(** * Multi-bot backup service ([send-to-google-drive.py])

    A shallow embedding of the [BotBackup] class: the archiver
    ([custom_zip_folder]), the two retention passes
    ([clean_local_backups], [delete_old_backups_by_count]), one backup
    cycle ([do_backup]) and the scheduling loop ([run]).

    Pure computations (slices, sorting, string formatting, the directory
    walk) are Rocq functions.  Code that touches the file system, Google
    Drive, the logger or the clock runs in a state-and-exception monad
    over an explicit [World]; a raised Python exception keeps the side
    effects performed before it. *)

From Stdlib Require Import ZArith List String Ascii Bool Arith Lia.
From Stdlib Require Import Permutation Sorted DecimalString DecimalNat.
From Stdlib Require Import RelationClasses.
Import ListNotations.

Open Scope string_scope.
Open Scope list_scope.
Open Scope Z_scope.

#[local] Set Warnings "-register-all".

(** ** Python built-ins used by the program *)

Module Py.

(** Slice bounds: a negative bound counts from the end, and every bound is
    clamped to [0 .. len] (step 1, as in [PySlice_AdjustIndices]). *)
Definition adjust_index (len i : Z) : Z :=
  if i <? 0 then Z.max (len + i) 0 else Z.min i len.

(** [l[i:]] *)
Definition slice_from {A : Type} (i : Z) (l : list A) : list A :=
  skipn (Z.to_nat (adjust_index (Z.of_nat (List.length l)) i)) l.

(** [l[:j]] *)
Definition slice_to {A : Type} (j : Z) (l : list A) : list A :=
  firstn (Z.to_nat (adjust_index (Z.of_nat (List.length l)) j)) l.

(** [list.sort(key=..., reverse=...)].  The sort is stable, also with
    [reverse=True]: elements with equal keys keep their original order.
    [sort] inserts from the right, so the element being inserted preceded,
    in the original list, everything already placed; it goes in front of
    the first element it is not strictly after. *)
Section Sort.
Context {A K : Type}.
Variable leb : K -> K -> bool.
Variable key : A -> K.

Definition goes_first (reverse : bool) (x y : A) : bool :=
  if reverse then leb (key y) (key x) else leb (key x) (key y).

Fixpoint insert (reverse : bool) (x : A) (l : list A) : list A :=
  match l with
  | [] => [x]
  | y :: l' =>
      if goes_first reverse x y then x :: y :: l'
      else y :: insert reverse x l'
  end.

Definition sort (reverse : bool) (l : list A) : list A :=
  fold_right (insert reverse) [] l.
End Sort.

(** [s.endswith(suffix)]: some tail of [s] is [suffix]. *)
Fixpoint endswith (s suffix : string) : bool :=
  (s =? suffix)%string ||
  match s with
  | EmptyString => false
  | String _ s' => endswith s' suffix
  end.

(** [str(n)] *)
Definition str (n : Z) : string :=
  NilEmpty.string_of_int (Z.to_int n).

Fixpoint zeros (n : nat) : string :=
  match n with
  | O => EmptyString
  | S n' => String "0" (zeros n')
  end.

(** [f"{n:0wd}"] for [n >= 0]: decimal, left-padded with zeros to width
    [w]. *)
Definition format_0d (w : nat) (n : Z) : string :=
  let s := str n in
  (zeros (w - String.length s) ++ s)%string.

(** [xs[i]]: a negative index counts from the end.  Out of range Python
    raises [IndexError]; the program only indexes its two constant tables
    with fields of a [datetime], which are in range, and the model
    returns the empty string there. *)
Definition getitem (xs : list string) (i : Z) : string :=
  let i' := if i <? 0 then Z.of_nat (List.length xs) + i else i in
  if i' <? 0 then EmptyString else nth (Z.to_nat i') xs EmptyString.

End Py.

(** ** Calendar time ([datetime]) *)

Record datetime : Type := mkDatetime {
  year : Z;
  month : Z;
  day : Z;
  hour : Z;
  minute : Z;
  second : Z
}.

Definition is_leap (y : Z) : bool :=
  (y mod 4 =? 0) && (negb (y mod 100 =? 0) || (y mod 400 =? 0)).

Definition days_in_month (y m : Z) : Z :=
  if m =? 2 then (if is_leap y then 29 else 28)
  else if (m =? 4) || (m =? 6) || (m =? 9) || (m =? 11) then 30
  else 31.

(** The values a [datetime] object can hold ([MINYEAR = 1],
    [MAXYEAR = 9999]); its constructor rejects anything else. *)
Definition valid_datetime (d : datetime) : Prop :=
  1 <= year d <= 9999 /\ 1 <= month d <= 12 /\
  1 <= day d <= days_in_month (year d) (month d) /\
  0 <= hour d <= 23 /\ 0 <= minute d <= 59 /\ 0 <= second d <= 59.

Definition days_before_year (y : Z) : Z :=
  let y' := y - 1 in y' * 365 + y' / 4 - y' / 100 + y' / 400.

Definition days_before_month (y m : Z) : Z :=
  nth (Z.to_nat m) [0; 0; 31; 59; 90; 120; 151; 181; 212; 243; 273; 304; 334] 0
  + (if (2 <? m) && is_leap y then 1 else 0).

Definition toordinal (d : datetime) : Z :=
  days_before_year (year d) + days_before_month (year d) (month d) + day d.

(** [now.weekday()]: Monday is 0. *)
Definition weekday (d : datetime) : Z :=
  (toordinal d + 6) mod 7.

(** [strftime("%Y%m%d_%H%M%S")] *)
Definition strftime_Ymd_HMS (d : datetime) : string :=
  (Py.format_0d 4 (year d) ++ Py.format_0d 2 (month d) ++ Py.format_0d 2 (day d)
   ++ "_" ++ Py.format_0d 2 (hour d) ++ Py.format_0d 2 (minute d)
   ++ Py.format_0d 2 (second d))%string.

(** ** Naming (first lines of [do_backup]) *)

Definition jours : list string :=
  ["lundi"; "mardi"; "mercredi"; "jeudi"; "vendredi"; "samedi"; "dimanche"].

Definition mois : list string :=
  ["janvier"; "février"; "mars"; "avril"; "mai"; "juin";
   "juillet"; "août"; "septembre"; "octobre"; "novembre"; "décembre"].

(** Name of the dated local folder; [now] is [datetime.now()]. *)
Definition local_name (now : datetime) : string :=
  (Py.getitem jours (weekday now) ++ "-"
   ++ Py.format_0d 2 (day now) ++ "-"
   ++ Py.getitem mois (month now - 1) ++ "-"
   ++ Py.str (year now) ++ "-"
   ++ Py.format_0d 2 (hour now) ++ "h" ++ Py.format_0d 2 (minute now))%string.

(** Name of the archive; [utcnow] is [datetime.utcnow()]. *)
Definition zip_name (zip_prefix : string) (utcnow : datetime) : string :=
  (zip_prefix ++ "_" ++ strftime_Ymd_HMS utcnow ++ ".zip")%string.

(** Name of the Drive folder of the cycle. *)
Definition drive_folder_name (name : string) (now : datetime) : string :=
  (name ++ " " ++ Py.str (day now) ++ " " ++ Py.getitem mois (month now - 1)
   ++ " " ++ Py.str (year now) ++ " " ++ Py.str (hour now) ++ "h"
   ++ Py.format_0d 2 (minute now))%string.


(** ** Retention selection

    The two computations between the listing and the deletion loop. *)

(** A local backup folder as [clean_local_backups] sees it: its path and
    [os.path.getctime] of it, the sort key. *)
Definition LocalEntry : Type := (list string * Z)%type.

(** [subs.sort(key=getctime, reverse=True); to_remove = subs[local_keep:]] *)
Definition select_local (local_keep : Z) (entries : list LocalEntry)
  : list LocalEntry :=
  Py.slice_from local_keep (Py.sort Z.leb snd true entries).

(** One element of the [files] list of a Drive [files.list] response. *)
Record DriveFile : Type := mkDriveFile {
  f_id : string;
  f_name : string;
  f_createdTime : string   (* RFC 3339, compared as a string *)
}.

(** [files.sort(key=createdTime); to_delete = files[:-drive_keep]] *)
Definition select_remote (drive_keep : Z) (files : list DriveFile)
  : list DriveFile :=
  Py.slice_to (- drive_keep) (Py.sort String.leb f_createdTime false files).

(** ** The local file system

    Paths are absolute and normalised, one component per element, so
    [os.path.join] appends a component and [os.path.abspath] is the
    identity. *)

Definition path : Type := list string.

Definition abspath (p : path) : path := p.

Definition path_str (p : path) : string := String.concat "/" p.

(** [os.path.join(root, d)] *)
Definition join (root : path) (d : string) : path := root ++ [d].

(** [os.path.relpath(p, start)] *)
Fixpoint relpath (p start : path) : path :=
  match p, start with
  | c :: p', s :: start' =>
      if (c =? s)%string then relpath p' start'
      else repeat ".."%string (List.length start) ++ p
  | _, _ => repeat ".."%string (List.length start) ++ p
  end.

Inductive FileData : Type :=
| Raw (bytes : string)
| ZipArchive (members : list (path * FileData)).

Inductive Node : Type :=
| File (ctime : Z) (data : FileData)
| Dir (ctime : Z) (children : list (string * Node)).

Definition Children : Type := list (string * Node).

Fixpoint get_child (c : string) (ch : Children) : option Node :=
  match ch with
  | [] => None
  | (c', m) :: ch' => if (c' =? c)%string then Some m else get_child c ch'
  end.

Fixpoint put_child (c : string) (m : Node) (ch : Children) : Children :=
  match ch with
  | [] => [(c, m)]
  | (c', m') :: ch' =>
      if (c' =? c)%string then (c, m) :: ch' else (c', m') :: put_child c m ch'
  end.

Definition del_child (c : string) (ch : Children) : Children :=
  filter (fun e => negb (fst e =? c)%string) ch.

Fixpoint lookup (p : path) (n : Node) : option Node :=
  match p with
  | [] => Some n
  | c :: p' =>
      match n with
      | Dir _ ch =>
          match get_child c ch with
          | Some m => lookup p' m
          | None => None
          end
      | File _ _ => None
      end
  end.

(** Replace what is at [p] by [v] ([None] removes it).  Nothing changes
    when the parent of [p] is not an existing directory; the callers check
    before they write. *)
Fixpoint store (p : path) (v : option Node) (n : Node) : Node :=
  match n with
  | File _ _ => n
  | Dir t ch =>
      match p with
      | [] => n
      | [c] =>
          Dir t (match v with
                 | Some m => put_child c m ch
                 | None => del_child c ch
                 end)
      | c :: p' =>
          match get_child c ch with
          | Some m => Dir t (put_child c (store p' v m) ch)
          | None => n
          end
      end
  end.

Definition isdir (p : path) (n : Node) : bool :=
  match lookup p n with
  | Some (Dir _ _) => true
  | _ => false
  end.

Definition isfile (p : path) (n : Node) : bool :=
  match lookup p n with
  | Some (File _ _) => true
  | _ => false
  end.

Definition exists_ (p : path) (n : Node) : bool :=
  match lookup p n with
  | Some _ => true
  | None => false
  end.

Definition parent (p : path) : path := removelast p.

(** ** Exceptions, the world and the monad *)

(** Classes of the exceptions the program meets; all derive from
    [Exception], the class both handlers catch. *)
Inductive ExcClass : Type :=
| FileNotFoundError
| FileExistsError
| IsADirectoryError
| NotADirectoryError
| ValueError
| HttpError (status : Z)
| OtherException (class_name : string).

Record exn : Type := mkExn {
  exc_class : ExcClass;
  exc_msg : string      (* [str(e)] *)
}.

Inductive Level : Type := DEBUG | INFO | ERROR.

(** What the program does to the outside: log records, and the calls the
    retention passes and the scheduler make, recorded when attempted. *)
Inductive Event : Type :=
| Log (lvl : Level) (msg : string)
| Rmtree (p : path)                            (* shutil.rmtree(p) *)
| DriveCreate (name : string)                  (* files().create(folder) *)
| DriveUpload (folder_id : string) (file : path)
| DriveList (page_size : Z)                    (* files().list(...) *)
| DriveDelete (file_id : string)               (* files().delete(fileId) *)
| Sleep (secs : Z).                            (* time.sleep(secs) *)

Record World : Type := mkWorld {
  fs : Node;                  (* the local file system, from its root *)
  drive : list DriveFile;     (* untrashed folders under the bot's parent,
                                 in the order the server lists them *)
  trace : list Event          (* oldest first *)
}.

Inductive result (A : Type) : Type :=
| Ok (a : A)
| Raise (e : exn).
Arguments Ok {A} a.
Arguments Raise {A} e.

Definition M (A : Type) : Type := World -> result A * World.

Definition ret {A : Type} (a : A) : M A := fun w => (Ok a, w).

Definition raise {A : Type} (e : exn) : M A := fun w => (Raise e, w).

Definition bind {A B : Type} (m : M A) (k : A -> M B) : M B :=
  fun w =>
    match m w with
    | (Ok a, w') => k a w'
    | (Raise e, w') => (Raise e, w')
    end.

(** [try: body / except Exception as e: handler(e)] *)
Definition try_except {A : Type} (body : M A) (handler : exn -> M A) : M A :=
  fun w =>
    match body w with
    | (Ok a, w') => (Ok a, w')
    | (Raise e, w') => handler e w'
    end.

Declare Scope py_scope.
Delimit Scope py_scope with py.
Notation "x <- m ;; k" := (bind m (fun x => k))
  (at level 61, m at next level, right associativity) : py_scope.
Notation "m ;; k" := (bind m (fun _ => k))
  (at level 61, right associativity) : py_scope.
Open Scope py_scope.

(** [for x in xs: body(x)]; an exception leaves the loop. *)
Fixpoint for_each {A : Type} (xs : list A) (body : A -> M unit) : M unit :=
  match xs with
  | [] => ret tt
  | x :: xs' => body x ;; for_each xs' body
  end.

Definition get_fs : M Node := fun w => (Ok (fs w), w).

Definition set_fs (n : Node) : M unit :=
  fun w => (Ok tt, mkWorld n (drive w) (trace w)).

Definition get_drive : M (list DriveFile) := fun w => (Ok (drive w), w).

Definition set_drive (d : list DriveFile) : M unit :=
  fun w => (Ok tt, mkWorld (fs w) d (trace w)).

Definition emit (e : Event) : M unit :=
  fun w => (Ok tt, mkWorld (fs w) (drive w) (trace w ++ [e])).

(** [self.logger.<lvl>(msg)]: the record, as an event of the trace.  The
    handlers also write it out, on the console and at the end of the file
    [backup.log] of the backup root; what that file holds is not followed
    in [fs]. *)
Definition log (lvl : Level) (msg : string) : M unit := emit (Log lvl msg).

(** Outcome of a call whose failure the program's state does not decide:
    [None] when it succeeds. *)
Definition fail_if (o : option exn) : M unit :=
  match o with
  | Some e => raise e
  | None => ret tt
  end.

Definition lift {A : Type} (r : result A) : M A :=
  match r with
  | Ok a => ret a
  | Raise e => raise e
  end.

(** ** Configuration and environment *)

(** The attributes [__init__] sets from [config.yaml]. *)
Record BotConfig : Type := mkBotConfig {
  name : string;
  service_account_file : string;
  parent_folder_id : string;
  folder_to_zip : path;
  local_backup_root : path;
  zip_prefix : string;
  backup_interval : Z;      (* the interval as [timedelta.total_seconds] gives it *)
  local_keep : Z;
  drive_keep : Z;
  scopes : list string;
  excluded_extensions : list string;
  excluded_folders : list string
}.

(** What the outside world answers during one cycle: the clocks, and the
    outcome of every call that can fail for reasons the [World] does not
    hold (permissions, credentials, network, quota, another process). *)
Record Env : Type := mkEnv {
  now : datetime;                          (* datetime.now() *)
  utcnow : datetime;                       (* datetime.utcnow() *)
  clock : Z;                               (* ctime of what the cycle creates *)
  zip_write_error : path -> option exn;    (* z.write(full_path, arcname) *)
  rmtree_error : path -> option exn;       (* shutil.rmtree(old) *)
  auth_error : option exn;                 (* from_service_account_file *)
  build_error : option exn;                (* build("drive", "v3", ...) *)
  create_outcome : string -> result (string * string);
                                           (* new folder: id, createdTime *)
  upload_outcome : string -> path -> result string;  (* new file: id *)
  list_error : option exn;                 (* files().list(...).execute() *)
  list_cap : nat;                          (* the server may cut a page short *)
  delete_error : string -> option exn;     (* files().delete(fileId).execute() *)
  scandir_fails : path -> bool             (* os.scandir(d) fails, for the
                                              directory [d] of the source,
                                              named from the source folder *)
}.

(** ** File-system and Drive primitives *)

Definition os_path_exists (p : path) : M bool :=
  n <- get_fs ;; ret (exists_ p n).

Definition os_path_isdir (p : path) : M bool :=
  n <- get_fs ;; ret (isdir p n).

(** [os.remove(p)]: removes a file, refuses a directory. *)
Definition os_remove (p : path) : M unit :=
  n <- get_fs ;;
  match lookup p n with
  | Some (File _ _) => set_fs (store p None n)
  | Some (Dir _ _) => raise (mkExn IsADirectoryError (path_str p))
  | None => raise (mkExn FileNotFoundError (path_str p))
  end.

(** The tree [os.makedirs(p, exist_ok=True)] leaves, walking down from
    [n]: missing directories are created, a file on the way is an error. *)
Fixpoint makedirs (t : Z) (p : path) (n : Node) : result Node :=
  match n with
  | File _ _ =>
      match p with
      | [] => Raise (mkExn FileExistsError "makedirs")
      | _ :: _ => Raise (mkExn NotADirectoryError "makedirs")
      end
  | Dir ct ch =>
      match p with
      | [] => Ok n
      | c :: p' =>
          let m := match get_child c ch with
                   | Some m => m
                   | None => Dir t []
                   end in
          match makedirs t p' m with
          | Ok m' => Ok (Dir ct (put_child c m' ch))
          | Raise e => Raise e
          end
      end
  end.

Definition os_makedirs (env : Env) (p : path) : M unit :=
  n <- get_fs ;; n' <- lift (makedirs (clock env) p n) ;; set_fs n'.

(** [os.listdir(p)] *)
Definition os_listdir (p : path) : M (list string) :=
  n <- get_fs ;;
  match lookup p n with
  | Some (Dir _ ch) => ret (map fst ch)
  | Some (File _ _) => raise (mkExn NotADirectoryError (path_str p))
  | None => raise (mkExn FileNotFoundError (path_str p))
  end.

(** [os.path.getctime(p)] *)
Definition os_path_getctime (p : path) : M Z :=
  n <- get_fs ;;
  match lookup p n with
  | Some (File t _) => ret t
  | Some (Dir t _) => ret t
  | None => raise (mkExn FileNotFoundError (path_str p))
  end.

(** [os.path.getsize(p)]; the size itself only reaches a log line. *)
Definition os_path_getsize (p : path) : M unit :=
  n <- get_fs ;;
  match lookup p n with
  | Some _ => ret tt
  | None => raise (mkExn FileNotFoundError (path_str p))
  end.

(** [shutil.rmtree(p)] *)
Definition shutil_rmtree (env : Env) (p : path) : M unit :=
  emit (Rmtree p) ;;
  fail_if (rmtree_error env p) ;;
  n <- get_fs ;;
  match lookup p n with
  | Some (Dir _ _) => set_fs (store p None n)
  | Some (File _ _) => raise (mkExn NotADirectoryError (path_str p))
  | None => raise (mkExn FileNotFoundError (path_str p))
  end.

(** Why the directory [p] cannot be reached when it is not there: a
    regular file stands on the way, or a name is missing. *)
Fixpoint no_such_dir (p : path) (n : Node) : ExcClass :=
  match n with
  | File _ _ => NotADirectoryError
  | Dir _ ch =>
      match p with
      | [] => FileNotFoundError
      | c :: p' =>
          match get_child c ch with
          | Some m => no_such_dir p' m
          | None => FileNotFoundError
          end
      end
  end.

(** [zipfile.ZipFile(zip_path, "w", ZIP_DEFLATED)]: an empty archive is
    created at [zip_path], over a file that is already there. *)
Definition zipfile_open (env : Env) (zip_path : path) : M unit :=
  n <- get_fs ;;
  if negb (isdir (parent zip_path) n) then
    raise (mkExn (no_such_dir (parent zip_path) n) (path_str zip_path))
  else if isdir zip_path n then
    raise (mkExn IsADirectoryError (path_str zip_path))
  else set_fs (store zip_path (Some (File (clock env) (ZipArchive []))) n).

Definition add_member (arcname : path) (data : FileData) (n : Node) : Node :=
  match n with
  | File t (ZipArchive ms) => File t (ZipArchive (ms ++ [(arcname, data)]))
  | _ => n
  end.

(** [z.write(full_path, arcname)]; [data] is what is at [full_path]. *)
Definition z_write (env : Env) (zip_path full_path arcname : path)
    (data : FileData) : M unit :=
  fail_if (zip_write_error env full_path) ;;
  n <- get_fs ;;
  match lookup zip_path n with
  | Some z => set_fs (store zip_path (Some (add_member arcname data z)) n)
  | None => raise (mkExn FileNotFoundError (path_str zip_path))
  end.

(** The longest sleep, in seconds: [time.sleep] turns the length into a
    64-bit count of nanoseconds. *)
Definition max_sleep : Z := 9223372036.

(** [time.sleep(secs)] *)
Definition time_sleep (secs : Z) : M unit :=
  if secs <? 0 then raise (mkExn ValueError "sleep length must be non-negative")
  else if max_sleep <? secs then
    raise (mkExn (OtherException "OverflowError")
             "timestamp too large to convert to C _PyTime_t")
  else emit (Sleep secs).

(** [service.files().list(q=..., fields=..., pageSize=n).execute()
    .get("files", [])]: one page, the head of the listing. *)
Definition drive_files_list (env : Env) (page_size : Z) : M (list DriveFile) :=
  emit (DriveList page_size) ;;
  fail_if (list_error env) ;;
  d <- get_drive ;;
  ret (firstn (Nat.min (Z.to_nat page_size) (list_cap env)) d).

(** [service.files().delete(fileId=i).execute()] *)
Definition drive_files_delete (env : Env) (i : string) : M unit :=
  emit (DriveDelete i) ;;
  fail_if (delete_error env i) ;;
  d <- get_drive ;;
  set_drive (filter (fun f => negb (f_id f =? i)%string) d).

(** ** The archiver ([custom_zip_folder]) *)

Definition dir_names (ch : Children) : list string :=
  flat_map (fun e => match snd e with
                     | Dir _ _ => [fst e]
                     | File _ _ => []
                     end) ch.

(** The files of a directory, each with the content [z.write] reads. *)
Definition file_entries (ch : Children) : list (string * FileData) :=
  flat_map (fun e => match snd e with
                     | File _ d => [(fst e, d)]
                     | Dir _ _ => []
                     end) ch.

(** One [(root, dirs, files)] triple of [os.walk]. *)
Definition WalkStep : Type :=
  (path * list string * list (string * FileData))%type.

(** [os.walk(top)], top-down, called without [onerror]: a directory
    whose listing fails ([skip]) yields nothing, neither itself nor what
    is below it, and the walk goes on.  The caller prunes [dirs] in place
    before the walk descends ([dirs[:] = [d for d in dirs if ...]]);
    [keep] is that filter, and [dirs] is shown as the caller leaves it. *)
Fixpoint os_walk (keep : string -> bool) (skip : path -> bool) (top : path)
    (n : Node) : list WalkStep :=
  match n with
  | File _ _ => []
  | Dir _ ch =>
      if skip top then []
      else
        (top, filter keep (dir_names ch), file_entries ch)
        :: flat_map (fun e => if keep (fst e)
                              then os_walk keep skip (join top (fst e)) (snd e)
                              else []) ch
  end.

(** The listing of [top], a directory of the source [abs_src], fails. *)
Definition unlistable (env : Env) (abs_src top : path) : bool :=
  scandir_fails env (relpath top abs_src).

(** [d not in self.excluded_folders] *)
Definition kept_folder (cfg : BotConfig) (d : string) : bool :=
  negb (existsb (String.eqb d) (excluded_folders cfg)).

(** [any(fname.endswith(ext) for ext in self.excluded_extensions)] *)
Definition excluded_file (cfg : BotConfig) (fname : string) : bool :=
  existsb (Py.endswith fname) (excluded_extensions cfg).

(** The members the two nested loops write, in order: archive name and
    content. *)
Definition zip_members (cfg : BotConfig) (env : Env) (abs_src : path)
    (tree : Node) : list (path * FileData) :=
  flat_map
    (fun step : WalkStep =>
       let '(root, _, files) := step in
       flat_map
         (fun f : string * FileData =>
            if excluded_file cfg (fst f) then []
            else [(relpath (join root (fst f)) abs_src, snd f)])
         files)
    (os_walk (kept_folder cfg) (unlistable env abs_src) abs_src tree).

Definition custom_zip_folder (cfg : BotConfig) (env : Env)
    (source_folder zip_path : path) : M unit :=
  log INFO ("📦 Zipping '" ++ path_str source_folder ++ "' → '"
            ++ path_str zip_path ++ "'")%string ;;
  ex <- os_path_exists zip_path ;;
  (if ex : bool
   then os_remove zip_path ;; log DEBUG "🗑️ Ancien zip supprimé"
   else ret tt) ;;
  let abs_src := abspath source_folder in
  isd <- os_path_isdir abs_src ;;
  if negb isd then
    raise (mkExn FileNotFoundError
             ("Dossier à zipper introuvable : " ++ path_str abs_src)%string)
  else
    zipfile_open env zip_path ;;
    n <- get_fs ;;
    let tree := match lookup abs_src n with
                | Some t => t
                | None => Dir 0 []
                end in
    for_each (os_walk (kept_folder cfg) (unlistable env abs_src) abs_src tree)
      (fun step : WalkStep =>
         let '(root, _, files) := step in
         for_each files
           (fun f : string * FileData =>
              let fname := fst f in
              if excluded_file cfg fname then
                log DEBUG ("⛔ Exclu: " ++ path_str (join root fname))%string
              else
                let full_path := join root fname in
                let arcname := relpath full_path abs_src in
                z_write env zip_path full_path arcname (snd f))) ;;
    os_path_getsize zip_path ;;
    log INFO ("✔️ ZIP créé, "
              ++ Py.str (Z.of_nat (List.length (zip_members cfg env abs_src tree)))
              ++ " fichiers")%string.

(** ** Google Drive steps *)

Definition authenticate (cfg : BotConfig) (env : Env) : M string :=
  log DEBUG "🔑 Authentification Google Service Account…" ;;
  fail_if (auth_error env) ;;
  log DEBUG "✔️ Authentifié" ;;
  ret (service_account_file cfg).

(** [build("drive", "v3", credentials=creds)] *)
Definition build (env : Env) (creds : string) : M unit :=
  fail_if (build_error env).

Definition create_drive_folder (cfg : BotConfig) (env : Env)
    (folder_name : string) : M string :=
  log INFO ("📁 Création du dossier Drive '" ++ folder_name ++ "'")%string ;;
  emit (DriveCreate folder_name) ;;
  folder <- lift (create_outcome env folder_name) ;;
  d <- get_drive ;;
  set_drive (d ++ [mkDriveFile (fst folder) folder_name (snd folder)]) ;;
  let folder_id := fst folder in
  log INFO ("✔️ Dossier Drive créé: ID=" ++ folder_id)%string ;;
  ret folder_id.

Definition upload_file_to_folder (cfg : BotConfig) (env : Env)
    (folder_id : string) (file_path : path) : M string :=
  log INFO ("⏫ Upload de '" ++ path_str file_path ++ "' → dossier Drive "
            ++ folder_id)%string ;;
  n <- get_fs ;;
  (if isfile file_path n then ret tt          (* MediaFileUpload opens it *)
   else raise (mkExn FileNotFoundError (path_str file_path))) ;;
  emit (DriveUpload folder_id file_path) ;;
  file_id <- lift (upload_outcome env folder_id file_path) ;;
  log INFO ("✔️ Upload terminé : fileId=" ++ file_id)%string ;;
  ret file_id.

(** ** Retention passes *)

Fixpoint map_m {A B : Type} (f : A -> M B) (xs : list A) : M (list B) :=
  match xs with
  | [] => ret []
  | x :: xs' => y <- f x ;; ys <- map_m f xs' ;; ret (y :: ys)
  end.

(** The listing [clean_local_backups] builds before it sorts: the
    directories directly under [root], each with its sort key. *)
Definition local_entries (root : path) : M (list LocalEntry) :=
  names <- os_listdir root ;;
  n <- get_fs ;;
  let subs := filter (fun p => isdir p n) (map (join root) names) in
  map_m (fun p => t <- os_path_getctime p ;; ret (p, t)) subs.

Definition clean_local_backups (cfg : BotConfig) (env : Env) : M unit :=
  let root := local_backup_root cfg in
  entries <- local_entries root ;;
  let to_remove := map fst (select_local (local_keep cfg) entries) in
  for_each to_remove
    (fun old =>
       shutil_rmtree env old ;;
       log INFO ("🗑️ Supprimé local : " ++ path_str old)%string).

Definition delete_old_backups_by_count (cfg : BotConfig) (env : Env) : M unit :=
  log DEBUG "🔍 Récupération des dossiers Drive pour nettoyage" ;;
  files <- drive_files_list env 1000 ;;
  let to_delete := select_remote (drive_keep cfg) files in
  for_each to_delete
    (fun f =>
       drive_files_delete env (f_id f) ;;
       log INFO ("🗑️ Supprimé Drive : " ++ f_name f ++ " (créé "
                 ++ f_createdTime f ++ ")")%string).

(** ** One cycle ([do_backup]) and the scheduler ([run]) *)

Definition debut_de_cycle : string :=
  "========== DÉBUT DE CYCLE DE BACKUP ==========".

Definition fin_de_cycle : string :=
  ("========== FIN DE CYCLE ==========" ++ String "010" EmptyString)%string.

(** Steps 3 to 5 of the [try] block: zip, authenticate and build the
    service, create the Drive folder and upload the archive. *)
Definition archive_and_upload (cfg : BotConfig) (env : Env) (zip_path : path)
  : M unit :=
  custom_zip_folder cfg env (folder_to_zip cfg) zip_path ;;
  creds <- authenticate cfg env ;;
  build env creds ;;
  df_id <- create_drive_folder cfg env (drive_folder_name (name cfg) (now env)) ;;
  upload_file_to_folder cfg env df_id zip_path ;;
  ret tt.

(** Step 6 of the [try] block. *)
Definition nettoyages (cfg : BotConfig) (env : Env) : M unit :=
  clean_local_backups cfg env ;;
  delete_old_backups_by_count cfg env.

(** The closing lines of the [try] block. *)
Definition bilan (cfg : BotConfig) (zip_path : path) : M unit :=
  os_path_getsize zip_path ;;
  log INFO "🎉 BACKUP OK".

Definition do_backup (cfg : BotConfig) (env : Env) : M unit :=
  let local_folder := join (local_backup_root cfg) (local_name (now env)) in
  os_makedirs env local_folder ;;
  let zip_path := join local_folder (zip_name (zip_prefix cfg) (utcnow env)) in
  log INFO debut_de_cycle ;;
  try_except
    (archive_and_upload cfg env zip_path ;;
     nettoyages cfg env ;;
     bilan cfg zip_path)
    (fun e =>
       log ERROR ("❌ ERREUR pendant le backup : " ++ exc_msg e)%string ;;
       log DEBUG ("Traceback: " ++ exc_msg e)%string) ;;
  log INFO fin_de_cycle.

(** One pass of the body of [while True:] in [run]. *)
Definition run_iteration (cfg : BotConfig) (env : Env) (interval : Z) : M unit :=
  try_except
    (do_backup cfg env)
    (fun e =>
       log ERROR ("💥 Exception inattendue dans run(): " ++ exc_msg e)%string ;;
       log DEBUG ("Traceback: " ++ exc_msg e)%string) ;;
  time_sleep interval.

(** The first [n] passes of the loop; pass [k] runs in the environment
    [envs k].  The loop has no [break]: it is left only by an exception,
    and [Ok tt] after [n] passes means pass [n] is about to start. *)
Fixpoint run_loop (cfg : BotConfig) (envs : nat -> Env) (interval : Z)
    (k n : nat) : M unit :=
  match n with
  | O => ret tt
  | S n' =>
      run_iteration cfg (envs k) interval ;;
      run_loop cfg envs interval (S k) n'
  end.

Definition run (cfg : BotConfig) (envs : nat -> Env) (n : nat) : M unit :=
  let interval := backup_interval cfg in
  log INFO "🔄 Service lancé" ;;
  run_loop cfg envs interval 0 n.

(** ** Vocabulary of the statements *)

(** What a computation started in [w] and ended in [w'] added to the
    trace. *)
Definition events_since (w w' : World) : list Event :=
  skipn (List.length (trace w)) (trace w').

Definition is_deletion (e : Event) : bool :=
  match e with
  | Rmtree _ | DriveDelete _ => true
  | _ => false
  end.

(** The folders [shutil.rmtree] was called on, in order. *)
Definition rmtree_attempts (evs : list Event) : list path :=
  flat_map (fun e => match e with Rmtree p => [p] | _ => [] end) evs.

(** The ids [files().delete] was called on, in order. *)
Definition delete_attempts (evs : list Event) : list string :=
  flat_map (fun e => match e with DriveDelete i => [i] | _ => [] end) evs.

Definition list_requests (evs : list Event) : list Z :=
  flat_map (fun e => match e with DriveList n => [n] | _ => [] end) evs.

Definition sleeps (evs : list Event) : list Z :=
  flat_map (fun e => match e with Sleep s => [s] | _ => [] end) evs.

(** [x] may stand before [y] in the outcome of [Py.sort]. *)
Definition in_order {A K : Type} (leb : K -> K -> bool) (key : A -> K)
    (r : bool) (x y : A) : Prop :=
  Py.goes_first leb key r x y = true.

(** The trace of [w'] is that of [w] followed by events that satisfy [P]. *)
Definition extends (P : Event -> Prop) (w w' : World) : Prop :=
  exists evs, trace w' = trace w ++ evs /\ Forall P evs.

(** Every directory of [n] is still a directory in [n']. *)
Definition dirs_preserved (n n' : Node) : Prop :=
  forall q, isdir q n = true -> isdir q n' = true.

(** Directories and remote folders of [w] are still there in [w']. *)
Definition nothing_deleted (w w' : World) : Prop :=
  dirs_preserved (fs w) (fs w') /\ incl (drive w) (drive w').

(** [R] relates every world [m] is started in to the world it leaves,
    whether [m] returns or raises. *)
Definition steps {A : Type} (R : World -> World -> Prop) (m : M A) : Prop :=
  forall w, R w (snd (m w)).

(** The folder and the archive path [do_backup] computes.  The name of
    the archive starts with the free text [zip_prefix]: the archive path
    is the dated folder with one more component when that text has no
    separator in it, which the theorems on where the archive is made
    assume ([plain_name]). *)
Definition local_folder_of (cfg : BotConfig) (env : Env) : path :=
  join (local_backup_root cfg) (local_name (now env)).

Definition zip_path_of (cfg : BotConfig) (env : Env) : path :=
  join (local_folder_of cfg env) (zip_name (zip_prefix cfg) (utcnow env)).

(** The world in which the [try] block of [do_backup] starts, when the
    dated folder could be created. *)
Definition try_block_start (cfg : BotConfig) (env : Env) (w : World) : World :=
  snd ((os_makedirs env (local_folder_of cfg env) ;; log INFO debut_de_cycle) w).

(** One of the steps that precede the retention passes raises, the steps
    before it having returned. *)
Inductive aborts_before_pruning (cfg : BotConfig) (env : Env) (zip_path : path)
    (w0 : World) : exn -> Prop :=
| abort_archiving e w1 :
    custom_zip_folder cfg env (folder_to_zip cfg) zip_path w0 = (Raise e, w1) ->
    aborts_before_pruning cfg env zip_path w0 e
| abort_authentication e w1 w2 :
    custom_zip_folder cfg env (folder_to_zip cfg) zip_path w0 = (Ok tt, w1) ->
    authenticate cfg env w1 = (Raise e, w2) ->
    aborts_before_pruning cfg env zip_path w0 e
| abort_build e w1 creds w2 w3 :
    custom_zip_folder cfg env (folder_to_zip cfg) zip_path w0 = (Ok tt, w1) ->
    authenticate cfg env w1 = (Ok creds, w2) ->
    build env creds w2 = (Raise e, w3) ->
    aborts_before_pruning cfg env zip_path w0 e
| abort_container_creation e w1 creds w2 w3 w4 :
    custom_zip_folder cfg env (folder_to_zip cfg) zip_path w0 = (Ok tt, w1) ->
    authenticate cfg env w1 = (Ok creds, w2) ->
    build env creds w2 = (Ok tt, w3) ->
    create_drive_folder cfg env (drive_folder_name (name cfg) (now env)) w3
      = (Raise e, w4) ->
    aborts_before_pruning cfg env zip_path w0 e
| abort_upload e w1 creds w2 w3 df_id w4 w5 :
    custom_zip_folder cfg env (folder_to_zip cfg) zip_path w0 = (Ok tt, w1) ->
    authenticate cfg env w1 = (Ok creds, w2) ->
    build env creds w2 = (Ok tt, w3) ->
    create_drive_folder cfg env (drive_folder_name (name cfg) (now env)) w3
      = (Ok df_id, w4) ->
    upload_file_to_folder cfg env df_id zip_path w4 = (Raise e, w5) ->
    aborts_before_pruning cfg env zip_path w0 e.

(** The files of a tree, each with its path relative to the root of the
    tree: those of the directory itself, then those of its
    subdirectories. *)
Fixpoint all_files (rel : path) (n : Node) : list (path * FileData) :=
  match n with
  | File _ _ => []
  | Dir _ ch =>
      map (fun f => (join rel (fst f), snd f)) (file_entries ch)
      ++ flat_map (fun e => all_files (join rel (fst e)) (snd e)) ch
  end.

(** The body of the inner loop of [custom_zip_folder]. *)
Definition write_file (cfg : BotConfig) (env : Env) (zip_path abs_src : path)
    (root : path) (f : string * FileData) : M unit :=
  let fname := fst f in
  if excluded_file cfg fname then
    log DEBUG ("⛔ Exclu: " ++ path_str (join root fname))%string
  else
    let full_path := join root fname in
    let arcname := relpath full_path abs_src in
    z_write env zip_path full_path arcname (snd f).

(** The relative path [p] of a file passes through a directory named in
    [excluded_folders]. *)
Definition through_excluded_folder (cfg : BotConfig) (p : path) : bool :=
  existsb (fun d => existsb (String.eqb d) (excluded_folders cfg)) (removelast p).

(** The file name, last component of [p], ends with an extension of
    [excluded_extensions]. *)
Definition has_excluded_extension (cfg : BotConfig) (p : path) : bool :=
  existsb (Py.endswith (last p EmptyString)) (excluded_extensions cfg).

(** The paths that lead to [p], from the empty one to [p] itself. *)
Fixpoint prefixes (p : path) : list path :=
  [] :: match p with
        | [] => []
        | c :: p' => map (cons c) (prefixes p')
        end.

(** The relative path [p] of a file passes through a directory, the
    source folder included, that cannot be listed. *)
Definition through_unlistable (env : Env) (p : path) : bool :=
  existsb (scandir_fails env) (prefixes (removelast p)).

Definition archived (cfg : BotConfig) (env : Env) (m : path * FileData)
  : bool :=
  negb (through_excluded_folder cfg (fst m))
  && negb (through_unlistable env (fst m))
  && negb (has_excluded_extension cfg (fst m)).

(** Two calendar times in the same minute. *)
Definition same_minute (a b : datetime) : Prop :=
  year a = year b /\ month a = month b /\ day a = day b /\
  hour a = hour b /\ minute a = minute b.

(** ** A scenario

    One bot, its source folder, three earlier local backups and three
    earlier remote folders; the statements below are tried on it. *)

Definition demo_cfg : BotConfig :=
  mkBotConfig "Bot" "sa.json" "PARENT" ["srv"; "bot"] ["srv"; "backup"]
    "backup-bot" 3600 1 1 ["drive"] [".log"] ["node_modules"].

Definition demo_source : Node :=
  Dir 0 [("a.txt", File 0 (Raw "A"));
         ("b.log", File 0 (Raw "B"));
         ("node_modules", Dir 0 [("x.js", File 0 (Raw "X"))]);
         ("sub", Dir 0 [("c.txt", File 0 (Raw "C"));
                        ("node_modules", Dir 0 [("y.js", File 0 (Raw "Y"))]);
                        ("d.log", File 0 (Raw "D"))])].

Definition demo_fs : Node :=
  Dir 0 [("srv", Dir 0 [("bot", demo_source);
                        ("backup", Dir 0 [("old1", Dir 10 []);
                                          ("old2", Dir 20 []);
                                          ("backup.log", File 0 (Raw ""));
                                          ("old3", Dir 30 [])])])].

Definition demo_drive : list DriveFile :=
  [mkDriveFile "id1" "Bot 1" "2026-01-01T00:00:00.000Z";
   mkDriveFile "id3" "Bot 3" "2026-03-01T00:00:00.000Z";
   mkDriveFile "id2" "Bot 2" "2026-02-01T00:00:00.000Z";
   mkDriveFile "id4" "Bot 4" "2026-04-01T00:00:00.000Z"].

Definition demo_world : World := mkWorld demo_fs demo_drive [].

Definition demo_now : datetime := mkDatetime 2026 11 3 11 2 7.

(** An environment in which only the given calls fail. *)
Definition demo_env (auth : option exn) (rm : path -> option exn)
    (del : string -> option exn) : Env :=
  mkEnv demo_now (mkDatetime 2026 11 3 10 2 7) 100
    (fun _ => None) rm auth None
    (fun _ => Ok ("id5", "2026-11-03T10:02:07.000Z"))
    (fun _ _ => Ok "file5") None 5000 del (fun _ => false).

Definition no_error {A : Type} (_ : A) : option exn := None.

Definition fails_on_path (p : path) (e : exn) (q : path) : option exn :=
  if list_eq_dec string_dec p q then Some e else None.

Definition fails_on_id (i : string) (e : exn) (j : string) : option exn :=
  if (i =? j)%string then Some e else None.

Definition permission_denied : exn :=
  mkExn (OtherException "PermissionError") "Permission denied".

Definition not_found : exn :=
  mkExn (HttpError 404) "File not found".

Definition bad_credentials : exn :=
  mkExn (OtherException "ValueError") "bad service account file".

(** The scenario with a regular file where the cycle of [demo_now] wants
    its dated folder. *)
Definition blocked_world : World :=
  mkWorld
    (Dir 0 [("srv", Dir 0 [("bot", demo_source);
                           ("backup",
                            Dir 0 [("mardi-03-novembre-2026-11h02",
                                    File 0 (Raw ""))])])])
    demo_drive [].

(** The message of the last-resort handler of [run]. *)
Definition unexpected_in_run (e : exn) : Event :=
  Log ERROR ("💥 Exception inattendue dans run(): " ++ exc_msg e)%string.

(** Induction on a tree, with the hypothesis for every child of a
    directory. *)
Fixpoint Node_induction (P : Node -> Prop)
    (HF : forall t d, P (File t d))
    (HD : forall t ch, Forall (fun e => P (snd e)) ch -> P (Dir t ch))
    (n : Node) : P n :=
  match n with
  | File t d => HF t d
  | Dir t ch =>
      HD t ch
        ((fix children (l : Children) : Forall (fun e => P (snd e)) l :=
            match l with
            | [] => Forall_nil _
            | e :: l' =>
                Forall_cons e (Node_induction P HF HD (snd e)) (children l')
            end) ch)
  end.

(** What the inner loop of [custom_zip_folder] writes for one triple of
    the walk. *)
Definition step_members (cfg : BotConfig) (abs_src : path) (step : WalkStep)
  : list (path * FileData) :=
  let '(root, _, files) := step in
  flat_map
    (fun f : string * FileData =>
       if excluded_file cfg (fst f) then []
       else [(relpath (join root (fst f)) abs_src, snd f)])
    files.

(** [c] does not occur in [s]. *)
Fixpoint free_of (c : ascii) (s : string) : bool :=
  match s with
  | EmptyString => true
  | String x s' => negb (Ascii.eqb x c) && free_of c s'
  end.

(** The number a string of decimal digits denotes. *)
Definition decimal_value (s : string) : option Z :=
  option_map Z.of_uint (NilEmpty.uint_of_string s).

(** The calls [z.write(full_path, arcname)] the inner loop makes for one
    triple of the walk: the path read, and the member written. *)
Definition step_writes (cfg : BotConfig) (abs_src : path) (step : WalkStep)
  : list (path * (path * FileData)) :=
  let '(root, _, files) := step in
  flat_map
    (fun f : string * FileData =>
       if excluded_file cfg (fst f) then []
       else [(join root (fst f), (relpath (join root (fst f)) abs_src, snd f))])
    files.

(** All the calls of one run of [custom_zip_folder], in order. *)
Definition write_plan (cfg : BotConfig) (env : Env) (abs_src : path)
    (tree : Node) : list (path * (path * FileData)) :=
  flat_map (step_writes cfg abs_src)
    (os_walk (kept_folder cfg) (unlistable env abs_src) abs_src tree).

(** The members written before the first read that fails, and that
    failure. *)
Fixpoint written (env : Env) (plan : list (path * (path * FileData)))
  : list (path * FileData) * option exn :=
  match plan with
  | [] => ([], None)
  | (full_path, m) :: plan' =>
      match zip_write_error env full_path with
      | Some e => ([], Some e)
      | None => let (ms, r) := written env plan' in (m :: ms, r)
      end
  end.

(** The scenario's environment with one file that cannot be read. *)
Definition demo_env_unreadable (p : path) (e : exn) : Env :=
  mkEnv demo_now (mkDatetime 2026 11 3 10 2 7) 100
    (fails_on_path p e) no_error None None
    (fun _ => Ok ("id5", "2026-11-03T10:02:07.000Z"))
    (fun _ _ => Ok "file5") None 5000 no_error (fun _ => false).

(** The scenario's bot with other exclusions. *)
Definition demo_cfg_excluding (extensions folders : list string) : BotConfig :=
  mkBotConfig "Bot" "sa.json" "PARENT" ["srv"; "bot"] ["srv"; "backup"]
    "backup-bot" 3600 1 1 ["drive"] extensions folders.

(** ** Vocabulary of the further properties *)

(** Neither path leads to the other. *)
Definition apart (p q : path) : Prop :=
  (forall r, p <> q ++ r) /\ (forall r, q <> p ++ r).

(** What is neither under [root] nor on the way to it is in [w'] what it
    was in [w]. *)
Definition same_outside (root : path) (w w' : World) : Prop :=
  forall q, apart q root -> lookup q (fs w') = lookup q (fs w).

Definition same_fs (w w' : World) : Prop := fs w' = fs w.

(** The [try] block of [do_backup]. *)
Definition try_block (cfg : BotConfig) (env : Env) : M unit :=
  archive_and_upload cfg env (zip_path_of cfg env) ;;
  nettoyages cfg env ;;
  bilan cfg (zip_path_of cfg env).

(** The record the handler of [do_backup] logs. *)
Definition erreur_pendant_le_backup (e : exn) : Event :=
  Log ERROR ("❌ ERREUR pendant le backup : " ++ exc_msg e)%string.

(** Anything but a record of level [ERROR]. *)
Definition not_an_error (ev : Event) : Prop :=
  match ev with
  | Log ERROR _ => False
  | _ => True
  end.

(** The scenario's bot with other retention counts. *)
Definition demo_cfg_keeping (local_keep drive_keep : Z) : BotConfig :=
  mkBotConfig "Bot" "sa.json" "PARENT" ["srv"; "bot"] ["srv"; "backup"]
    "backup-bot" 3600 local_keep drive_keep ["drive"] [".log"] ["node_modules"].

Definition same_drive (w w' : World) : Prop := drive w' = drive w.

(** Every folder the Drive holds in [w] is still there in [w']. *)
Definition drive_kept (w w' : World) : Prop := incl (drive w) (drive w').

(** Neither a listing of the Drive folders nor a deletion of one. *)
Definition no_remote_pruning (ev : Event) : Prop :=
  list_requests [ev] = [] /\ delete_attempts [ev] = [].

(** The scenario's environment with an upload that fails. *)
Definition demo_env_upload_fails (e : exn) : Env :=
  mkEnv demo_now (mkDatetime 2026 11 3 10 2 7) 100
    no_error no_error None None
    (fun _ => Ok ("id5", "2026-11-03T10:02:07.000Z"))
    (fun _ _ => Raise e) None 5000 no_error (fun _ => false).

Definition backend_error : exn := mkExn (HttpError 500) "Backend Error".

(** The scenario's bot with another interval, in seconds. *)
Definition demo_cfg_every (interval : Z) : BotConfig :=
  mkBotConfig "Bot" "sa.json" "PARENT" ["srv"; "bot"] ["srv"; "backup"]
    "backup-bot" interval 1 1 ["drive"] [".log"] ["node_modules"].

(** ** The attributes [__init__] reads from the configuration

    The assignments of [__init__], before it creates the backup root and
    sets the logger up.  [cfg] is the mapping of one bot and [global_cfg]
    the whole document.  The model is parametric in the values the
    document holds and in the three operations the assignments apply to
    them. *)

Inductive outcome (A : Type) : Type :=
| Returns (a : A)
| Raises (e : exn).
Arguments Returns {A} a.
Arguments Raises {A} e.

Definition and_then {A B : Type} (r : outcome A) (k : A -> outcome B)
  : outcome B :=
  match r with
  | Returns a => k a
  | Raises e => Raises e
  end.

Declare Scope init_scope.
Delimit Scope init_scope with init.
Notation "x <~ r ;; k" := (and_then r (fun x => k))
  (at level 61, r at next level, right associativity) : init_scope.

Section Init.
Variable Value : Type.
Variable fstring : string -> Value -> Value.    (* f"<text>{v}" *)
Variable lower : Value -> outcome Value.        (* v.lower() *)
Variable set : Value -> outcome Value.          (* set(v) *)

(** A Python [dict] with string keys: the first binding of a key counts. *)
Definition Dict : Type := list (string * Value).

Fixpoint dict_find (d : Dict) (k : string) : option Value :=
  match d with
  | [] => None
  | (k', v) :: d' => if (k' =? k)%string then Some v else dict_find d' k
  end.

(** [d[k]]; [str(KeyError(k))] is the [repr] of the key. *)
Definition dict_getitem (d : Dict) (k : string) : outcome Value :=
  match dict_find d k with
  | Some v => Returns v
  | None => Raises (mkExn (OtherException "KeyError") ("'" ++ k ++ "'")%string)
  end.

(** [d.get(k, default)]: [default] has been evaluated by the caller. *)
Definition dict_get (d : Dict) (k : string) (default : Value) : Value :=
  match dict_find d k with
  | Some v => v
  | None => default
  end.

Record Attributes : Type := mkAttributes {
  a_name : Value;
  a_service_account_file : Value;
  a_parent_folder_id : Value;
  a_folder_to_zip : Value;
  a_local_backup_root : Value;
  a_zip_prefix : Value;
  a_backup_interval : Value;
  a_local_keep : Value;
  a_drive_keep : Value;
  a_scopes : Value;
  a_excluded_extensions : Value;
  a_excluded_folders : Value
}.

(** The default of every [cfg.get(k, default)] is evaluated before the
    call, in the order of the assignments. *)
Definition init_attributes (cfg global_cfg : Dict) : outcome Attributes :=
  (name <~ dict_getitem cfg "name" ;;
   service_account_file <~ dict_getitem cfg "service_account_file" ;;
   parent_folder_id <~ dict_getitem cfg "parent_folder_id" ;;
   folder_to_zip <~ dict_getitem cfg "folder_to_zip" ;;
   let local_backup_root :=
     dict_get cfg "local_backup_root" (fstring "backup/" name) in
   lowered <~ lower name ;;
   let zip_prefix := dict_get cfg "zip_prefix" (fstring "backup-" lowered) in
   g_interval <~ dict_getitem global_cfg "backup_interval" ;;
   let backup_interval := dict_get cfg "backup_interval" g_interval in
   g_local_keep <~ dict_getitem global_cfg "local_keep" ;;
   let local_keep := dict_get cfg "local_keep" g_local_keep in
   g_drive_keep <~ dict_getitem global_cfg "drive_keep" ;;
   let drive_keep := dict_get cfg "drive_keep" g_drive_keep in
   scopes <~ dict_getitem global_cfg "scopes" ;;
   g_extensions <~ dict_getitem global_cfg "excluded_extensions" ;;
   excluded_extensions <~ set (dict_get cfg "excluded_extensions" g_extensions) ;;
   g_folders <~ dict_getitem global_cfg "excluded_folders" ;;
   excluded_folders <~ set (dict_get cfg "excluded_folders" g_folders) ;;
   Returns (mkAttributes name service_account_file parent_folder_id
              folder_to_zip local_backup_root zip_prefix backup_interval
              local_keep drive_keep scopes excluded_extensions
              excluded_folders))%init.

(** The keys [__init__] reads in [global_cfg]. *)
Definition global_keys : list string :=
  ["backup_interval"; "local_keep"; "drive_keep"; "scopes";
   "excluded_extensions"; "excluded_folders"].

(** The keys of [global_cfg] a bot can set for itself. *)
Definition overridable_keys : list string :=
  ["backup_interval"; "local_keep"; "drive_keep";
   "excluded_extensions"; "excluded_folders"].
End Init.

Arguments dict_find {Value} d k.
Arguments dict_getitem {Value} d k.
Arguments dict_get {Value} d k default.

(** A document whose values are strings, for the scenario; [lower] and
    [set] return their argument, the scenario does not look into them. *)
Definition demo_bot_document : list (string * string) :=
  [("name", "Bot"); ("service_account_file", "sa.json");
   ("parent_folder_id", "PARENT"); ("folder_to_zip", "/srv/bot");
   ("local_keep", "1"); ("drive_keep", "1"); ("backup_interval", "3600");
   ("excluded_extensions", ".log"); ("excluded_folders", "node_modules")].

Definition demo_global_document : list (string * string) :=
  [("backup_interval", "86400"); ("drive_keep", "7");
   ("scopes", "drive"); ("excluded_extensions", ".tmp");
   ("excluded_folders", ".git")].

Definition demo_init (cfg global_cfg : list (string * string))
  : outcome (Attributes string) :=
  init_attributes string String.append Returns Returns cfg global_cfg.

Definition demo_global_complete (interval keep extensions folders : string)
  : list (string * string) :=
  [("backup_interval", interval); ("local_keep", keep); ("drive_keep", keep);
   ("scopes", "drive"); ("excluded_extensions", extensions);
   ("excluded_folders", folders)].

(** The scenario's environment with one directory of the source that
    cannot be listed, named from the source folder. *)
Definition demo_env_unlistable (d : path) : Env :=
  mkEnv demo_now (mkDatetime 2026 11 3 10 2 7) 100
    no_error no_error None None
    (fun _ => Ok ("id5", "2026-11-03T10:02:07.000Z"))
    (fun _ _ => Ok "file5") None 5000 no_error
    (fun q => if list_eq_dec string_dec d q then true else false).

(** A file name in the strict sense: no separator in it, so neither an
    absolute path nor one that goes through [..], and no NUL.  The name of
    the archive starts with the free text [zip_prefix];
    [os.path.join(local_folder, zip_name)] is [local_folder] with one more
    component, as [join] has it, when that prefix is such a name. *)
Definition plain_name (s : string) : bool := free_of "/" s && free_of "000" s.

(** * Properties *)

(** ** Slices *)

Lemma slice_from_nonneg {A : Type} (k : Z) (l : list A) :
  0 <= k -> Py.slice_from k l = skipn (Z.to_nat k) l.
Proof.
  intros Hk. unfold Py.slice_from, Py.adjust_index.
  destruct (Z.ltb_spec k 0) as [Hlt | _]; [lia |].
  destruct (Z.le_ge_cases k (Z.of_nat (List.length l))) as [Hle | Hge].
  - now rewrite Z.min_l by assumption.
  - rewrite Z.min_r by assumption. rewrite Nat2Z.id.
    rewrite !skipn_all2; [reflexivity | lia | lia].
Qed.

Lemma slice_from_negative {A : Type} (k : Z) (l : list A) :
  k < 0 ->
  Py.slice_from k l = skipn (List.length l - Z.to_nat (- k)) l.
Proof.
  intros Hk. unfold Py.slice_from, Py.adjust_index.
  destruct (Z.ltb_spec k 0) as [_ | Hge]; [| lia].
  f_equal. lia.
Qed.

Lemma slice_to_zero {A : Type} (l : list A) : Py.slice_to 0 l = [].
Proof.
  unfold Py.slice_to, Py.adjust_index. simpl.
  rewrite Z.min_l by lia. reflexivity.
Qed.

Lemma slice_to_negative {A : Type} (k : Z) (l : list A) :
  k < 0 ->
  Py.slice_to k l = firstn (List.length l - Z.to_nat (- k)) l.
Proof.
  intros Hk. unfold Py.slice_to, Py.adjust_index.
  destruct (Z.ltb_spec k 0) as [_ | Hge]; [| lia].
  f_equal. lia.
Qed.

Lemma slice_to_positive {A : Type} (k : Z) (l : list A) :
  0 <= k -> Py.slice_to k l = firstn (Z.to_nat k) l.
Proof.
  intros Hk. unfold Py.slice_to, Py.adjust_index.
  destruct (Z.ltb_spec k 0) as [Hlt | _]; [lia |].
  destruct (Z.le_ge_cases k (Z.of_nat (List.length l))) as [Hle | Hge].
  - now rewrite Z.min_l by assumption.
  - rewrite Z.min_r by assumption. rewrite Nat2Z.id.
    rewrite !firstn_all2; [reflexivity | lia | lia].
Qed.

(** ** The stable sort *)

Section SortFacts.
Context {A K : Type}.
Variable leb : K -> K -> bool.
Variable key : A -> K.

Lemma insert_perm (r : bool) (x : A) (l : list A) :
  Permutation (Py.insert leb key r x l) (x :: l).
Proof.
  induction l as [| y l IH]; simpl.
  - apply Permutation_refl.
  - destruct (Py.goes_first leb key r x y).
    + apply Permutation_refl.
    + eapply Permutation_trans; [apply perm_skip, IH | apply perm_swap].
Qed.

Lemma sort_perm (r : bool) (l : list A) :
  Permutation (Py.sort leb key r l) l.
Proof.
  induction l as [| x l IH]; simpl.
  - apply Permutation_refl.
  - eapply Permutation_trans; [apply insert_perm | apply perm_skip, IH].
Qed.

Lemma sort_length (r : bool) (l : list A) :
  List.length (Py.sort leb key r l) = List.length l.
Proof. apply Permutation_length, sort_perm. Qed.

Hypothesis leb_total : forall a b, leb a b = true \/ leb b a = true.
Hypothesis leb_trans :
  forall a b c, leb a b = true -> leb b c = true -> leb a c = true.

Lemma in_order_total (r : bool) (x y : A) :
  in_order leb key r x y \/ in_order leb key r y x.
Proof. unfold in_order, Py.goes_first. destruct r; apply leb_total. Qed.

Lemma in_order_trans (r : bool) (x y z : A) :
  in_order leb key r x y -> in_order leb key r y z -> in_order leb key r x z.
Proof.
  unfold in_order, Py.goes_first. destruct r; intros H1 H2.
  - eapply leb_trans; eassumption.
  - eapply leb_trans; eassumption.
Qed.

Lemma insert_sorted (r : bool) (x : A) (l : list A) :
  StronglySorted (in_order leb key r) l ->
  StronglySorted (in_order leb key r) (Py.insert leb key r x l).
Proof.
  induction 1 as [| y l Hs IH Hy]; simpl.
  - constructor; constructor.
  - destruct (Py.goes_first leb key r x y) eqn:Hxy.
    + constructor; [constructor; assumption |].
      constructor; [exact Hxy |].
      eapply Forall_impl; [| exact Hy].
      intros z Hz. eapply in_order_trans; eassumption.
    + constructor; [exact IH |].
      assert (Hyx : in_order leb key r y x).
      { destruct (in_order_total r x y) as [H | H]; [| exact H].
        unfold in_order in H. congruence. }
      eapply Permutation_Forall.
      * apply Permutation_sym, insert_perm.
      * constructor; assumption.
Qed.

Lemma sort_sorted (r : bool) (l : list A) :
  StronglySorted (in_order leb key r) (Py.sort leb key r l).
Proof.
  induction l as [| x l IH]; simpl.
  - constructor.
  - apply insert_sorted, IH.
Qed.
End SortFacts.

Lemma Zleb_total (a b : Z) : (a <=? b) = true \/ (b <=? a) = true.
Proof. rewrite !Z.leb_le. lia. Qed.

Lemma Zleb_trans (a b c : Z) :
  (a <=? b) = true -> (b <=? c) = true -> (a <=? c) = true.
Proof. rewrite !Z.leb_le. lia. Qed.

Lemma string_compare_refl (s : string) : String.compare s s = Eq.
Proof.
  induction s as [| c s IH]; simpl; [reflexivity |].
  unfold Ascii.compare. now rewrite N.compare_refl.
Qed.

Lemma string_compare_lt_trans (a b c : string) :
  String.compare a b = Lt -> String.compare b c = Lt -> String.compare a c = Lt.
Proof.
  revert b c. induction a as [| x a IH]; intros [| y b] [| z c]; simpl;
    try discriminate; try reflexivity.
  unfold Ascii.compare.
  destruct (N.compare_spec (N_of_ascii x) (N_of_ascii y)) as [Hxy | Hxy | Hxy];
    destruct (N.compare_spec (N_of_ascii y) (N_of_ascii z)) as [Hyz | Hyz | Hyz];
    try discriminate; intros H1 H2;
    destruct (N.compare_spec (N_of_ascii x) (N_of_ascii z)) as [Hxz | Hxz | Hxz];
    try reflexivity; try lia.
  eapply IH; eassumption.
Qed.

Lemma string_leb_trans (a b c : string) :
  String.leb a b = true -> String.leb b c = true -> String.leb a c = true.
Proof.
  unfold String.leb.
  destruct (String.compare a b) eqn:Hab; try discriminate;
    destruct (String.compare b c) eqn:Hbc; try discriminate; intros _ _.
  - apply String.compare_eq_iff in Hab, Hbc. subst. now rewrite string_compare_refl.
  - apply String.compare_eq_iff in Hab. subst. now rewrite Hbc.
  - apply String.compare_eq_iff in Hbc. subst. now rewrite Hab.
  - now rewrite (string_compare_lt_trans a b c).
Qed.

(** ** Retention selection *)

Lemma StronglySorted_weaken {A : Type} (R S : A -> A -> Prop) (l : list A) :
  (forall a b, R a b -> S a b) -> StronglySorted R l -> StronglySorted S l.
Proof.
  intros HRS. induction 1 as [| x l Hs IH Hx]; constructor.
  - exact IH.
  - eapply Forall_impl; [| exact Hx]. intros y. apply HRS.
Qed.

Lemma nth_error_skipn {A : Type} (k i : nat) (l : list A) :
  nth_error (skipn k l) i = nth_error l (k + i).
Proof.
  revert l. induction k as [| k IH]; intros l; simpl; [reflexivity |].
  destruct l as [| x l]; simpl; [now destruct i | apply IH].
Qed.

(** The remote listing sorted as [delete_old_backups_by_count] sorts it:
    a stable rearrangement, oldest [createdTime] first. *)
Lemma remote_sort_ascending (files : list DriveFile) :
  let sorted := Py.sort String.leb f_createdTime false files in
  Permutation sorted files /\
  StronglySorted
    (fun a b => String.leb (f_createdTime a) (f_createdTime b) = true) sorted.
Proof.
  split.
  - apply sort_perm.
  - apply (sort_sorted String.leb f_createdTime String.leb_total
             string_leb_trans false files).
Qed.

(** With a positive [drive_keep] the remote selection is the listing
    without its [drive_keep] newest folders. *)
Lemma select_remote_positive (keep : Z) (files : list DriveFile) :
  0 < keep ->
  select_remote keep files =
  firstn (List.length files - Z.to_nat keep)
         (Py.sort String.leb f_createdTime false files).
Proof.
  intros Hk. unfold select_remote.
  rewrite slice_to_negative by lia.
  rewrite sort_length. f_equal. f_equal. lia.
Qed.

Lemma select_remote_keeps_all_when_few (keep : Z) (files : list DriveFile) :
  0 < keep -> Z.of_nat (List.length files) <= keep ->
  select_remote keep files = [].
Proof.
  intros Hk Hlen. rewrite select_remote_positive by assumption.
  replace (List.length files - Z.to_nat keep)%nat with 0%nat by lia.
  reflexivity.
Qed.

(** With a negative [drive_keep] the slice [files[:-drive_keep]] has a
    positive bound: the [- drive_keep] oldest folders are selected. *)
Lemma select_remote_negative (keep : Z) (files : list DriveFile) :
  keep < 0 ->
  select_remote keep files =
  firstn (Z.to_nat (- keep)) (Py.sort String.leb f_createdTime false files).
Proof.
  intros Hk. unfold select_remote. apply slice_to_positive. lia.
Qed.

Example select_remote_three_keep_one :
  let f1 := mkDriveFile "id1" "lundi" "2024-01-01T08:00:00.000Z" in
  let f2 := mkDriveFile "id2" "mardi" "2024-01-02T08:00:00.000Z" in
  let f3 := mkDriveFile "id3" "mercredi" "2024-01-03T08:00:00.000Z" in
  select_remote 1 [f3; f1; f2] = [f1; f2].
Proof. reflexivity. Qed.

(** C1, at the input where the code departs from it: with
    [drive_keep = 0] the bound of [files[:-drive_keep]] is [-0 = 0], the
    slice is empty and no remote folder is selected, whatever the
    listing. *)
Theorem select_remote_keep_zero (files : list DriveFile) :
  select_remote 0 files = [].
Proof. unfold select_remote. simpl. apply slice_to_zero. Qed.

Example select_remote_three_keep_zero :
  let f1 := mkDriveFile "id1" "lundi" "2024-01-01T08:00:00.000Z" in
  let f2 := mkDriveFile "id2" "mardi" "2024-01-02T08:00:00.000Z" in
  let f3 := mkDriveFile "id3" "mercredi" "2024-01-03T08:00:00.000Z" in
  select_remote 0 [f1; f2; f3] = [] /\
  map fst (select_local 0 [(["b"; "1"], 1); (["b"; "2"], 2); (["b"; "3"], 3)])
  = [["b"; "3"]; ["b"; "2"]; ["b"; "1"]].
Proof. split; reflexivity. Qed.

(** C2, counterexample: with [local_keep = -1] the slice
    [subs[local_keep:]] holds the last folder only, not all four. *)
Lemma select_local_negative_keep_counterexample :
  let entries :=
    [(["backup"; "a"], 1); (["backup"; "b"], 2);
     (["backup"; "c"], 3); (["backup"; "d"], 4)] in
  -1 <= 0 /\
  select_local (-1) entries = [(["backup"; "a"], 1)] /\
  ~ (forall e, In e entries -> In e (select_local (-1) entries)).
Proof.
  cbv zeta. split; [lia |]. split; [reflexivity |].
  intros H. specialize (H (["backup"; "d"], 4)).
  assert (Hin : In (["backup"; "d"], 4) (select_local (-1)
            [(["backup"; "a"], 1); (["backup"; "b"], 2);
             (["backup"; "c"], 3); (["backup"; "d"], 4)])).
  { apply H. simpl. tauto. }
  vm_compute in Hin. destruct Hin as [Hin | []]. discriminate Hin.
Qed.

(** C2, amended: for every list of local entries and every
    [keepCount >= 0], the entries are sorted by creation time, most recent
    first, and exactly those at 0-indexed positions [>= keepCount] are
    selected; with [keepCount = 0] all of them, with
    [keepCount >= len(entries)] none. *)
Theorem select_local_spec (keep : Z) (entries : list LocalEntry) :
  0 <= keep ->
  let sorted := Py.sort Z.leb snd true entries in
  Permutation sorted entries /\
  StronglySorted (fun a b => snd b <= snd a) sorted /\
  select_local keep entries = skipn (Z.to_nat keep) sorted /\
  (forall i, nth_error (select_local keep entries) i
             = nth_error sorted (Z.to_nat keep + i)) /\
  (keep = 0 -> select_local keep entries = sorted) /\
  (Z.of_nat (List.length entries) <= keep -> select_local keep entries = []).
Proof.
  intros Hk sorted.
  assert (Hsel : select_local keep entries = skipn (Z.to_nat keep) sorted).
  { unfold select_local. now rewrite slice_from_nonneg. }
  split; [apply sort_perm |].
  split.
  { eapply StronglySorted_weaken;
      [| apply (sort_sorted Z.leb snd Zleb_total Zleb_trans true entries)].
    intros a b H. unfold in_order, Py.goes_first in H. now apply Z.leb_le. }
  split; [exact Hsel |].
  split; [intros i; rewrite Hsel; apply nth_error_skipn |].
  split.
  - intros ->. rewrite Hsel. reflexivity.
  - intros Hlen. rewrite Hsel. apply skipn_all2.
    unfold sorted. rewrite sort_length. lia.
Qed.

Lemma select_local_spec_witness :
  let entries :=
    [(["backup"; "t3"], 3); (["backup"; "t1"], 1);
     (["backup"; "t4"], 4); (["backup"; "t2"], 2)] in
  0 <= 2 /\
  select_local 2 entries = [(["backup"; "t2"], 2); (["backup"; "t1"], 1)].
Proof.
  cbv zeta. split; [lia |].
  destruct (select_local_spec 2
              [(["backup"; "t3"], 3); (["backup"; "t1"], 1);
               (["backup"; "t4"], 4); (["backup"; "t2"], 2)])
    as (_ & _ & Hsel & _); [lia |].
  rewrite Hsel. reflexivity.
Defined.

(** ** The file-system model *)

Lemma get_put_same (c : string) (m : Node) (ch : Children) :
  get_child c (put_child c m ch) = Some m.
Proof.
  induction ch as [| [c' m'] ch IH]; simpl.
  - now rewrite String.eqb_refl.
  - destruct (String.eqb_spec c' c) as [-> | Hne]; simpl.
    + now rewrite String.eqb_refl.
    + destruct (String.eqb_spec c' c); [contradiction | exact IH].
Qed.

Lemma get_put_other (c c' : string) (m : Node) (ch : Children) :
  c' <> c -> get_child c' (put_child c m ch) = get_child c' ch.
Proof.
  intros Hne. induction ch as [| [d m'] ch IH]; simpl.
  - destruct (String.eqb_spec c c'); [congruence | reflexivity].
  - destruct (String.eqb_spec d c) as [-> | Hd]; simpl.
    + destruct (String.eqb_spec c c'); [congruence | reflexivity].
    + destruct (String.eqb_spec d c'); [reflexivity | exact IH].
Qed.

Lemma get_del_same (c : string) (ch : Children) :
  get_child c (del_child c ch) = None.
Proof.
  induction ch as [| [d m'] ch IH]; simpl; [reflexivity |].
  destruct (String.eqb_spec d c) as [-> | Hd]; simpl; [exact IH |].
  destruct (String.eqb_spec d c); [contradiction | exact IH].
Qed.

Lemma get_del_other (c c' : string) (ch : Children) :
  c' <> c -> get_child c' (del_child c ch) = get_child c' ch.
Proof.
  intros Hne. induction ch as [| [d m'] ch IH]; simpl; [reflexivity |].
  destruct (String.eqb_spec d c) as [-> | Hd]; simpl.
  - destruct (String.eqb_spec c c'); [congruence | exact IH].
  - destruct (String.eqb_spec d c'); [reflexivity | exact IH].
Qed.

Lemma store_cons (c : string) (p : path) (v : option Node) (t : Z)
    (ch : Children) :
  p <> [] ->
  store (c :: p) v (Dir t ch) =
  match get_child c ch with
  | Some m => Dir t (put_child c (store p v m) ch)
  | None => Dir t ch
  end.
Proof. destruct p; [congruence | reflexivity]. Qed.

(** After a removal nothing is left at the path. *)
Lemma lookup_store_none (p : path) (n : Node) :
  p <> [] -> lookup p (store p None n) = None.
Proof.
  revert n. induction p as [| c p IH]; intros n Hp; [congruence |].
  destruct n as [t d | t ch]; [reflexivity |].
  destruct p as [| c' p'].
  - simpl. now rewrite get_del_same.
  - rewrite store_cons by discriminate.
    destruct (get_child c ch) as [m |] eqn:Hget.
    + change (lookup (c :: c' :: p') (Dir t (put_child c (store (c' :: p') None m) ch)))
        with (match get_child c (put_child c (store (c' :: p') None m) ch) with
              | Some m0 => lookup (c' :: p') m0
              | None => None
              end).
      rewrite get_put_same. apply IH. discriminate.
    + change (lookup (c :: c' :: p') (Dir t ch))
        with (match get_child c ch with
              | Some m0 => lookup (c' :: p') m0
              | None => None
              end).
      now rewrite Hget.
Qed.

Lemma isdir_nil_dir (t : Z) (ch : Children) : isdir [] (Dir t ch) = true.
Proof. reflexivity. Qed.

Lemma isdir_file (q : path) (t : Z) (d : FileData) : isdir q (File t d) = false.
Proof. destruct q; reflexivity. Qed.

Lemma isdir_cons (c : string) (q : path) (t : Z) (ch : Children) :
  isdir (c :: q) (Dir t ch) =
  match get_child c ch with
  | Some m => isdir q m
  | None => false
  end.
Proof. unfold isdir. simpl. now destruct (get_child c ch). Qed.

Lemma dirs_preserved_refl (n : Node) : dirs_preserved n n.
Proof. intros q H. exact H. Qed.

Lemma dirs_preserved_trans (n1 n2 n3 : Node) :
  dirs_preserved n1 n2 -> dirs_preserved n2 n3 -> dirs_preserved n1 n3.
Proof. intros H12 H23 q H. apply H23, H12, H. Qed.

(** Writing [m] at [p] loses no directory when [m] has the directories
    of what it replaces. *)
Lemma store_some_dirs_preserved (p : path) (m n : Node) :
  (forall z, lookup p n = Some z -> dirs_preserved z m) ->
  dirs_preserved n (store p (Some m) n).
Proof.
  revert n. induction p as [| c p IH]; intros n Hz.
  - destruct n; apply dirs_preserved_refl.
  - destruct n as [t d | t ch]; [apply dirs_preserved_refl |].
    destruct p as [| c' p'].
    + intros [| d q] Hq; [reflexivity |].
      simpl store. rewrite isdir_cons in Hq |- *.
      destruct (String.eqb_spec d c) as [-> | Hne].
      * rewrite get_put_same.
        destruct (get_child c ch) as [x |] eqn:Hget; [| discriminate].
        apply (Hz x); [| exact Hq]. simpl. now rewrite Hget.
      * now rewrite get_put_other.
    + rewrite store_cons by discriminate.
      destruct (get_child c ch) as [x |] eqn:Hget;
        [| apply dirs_preserved_refl].
      intros [| d q] Hq; [reflexivity |].
      rewrite isdir_cons in Hq |- *.
      destruct (String.eqb_spec d c) as [-> | Hne].
      * rewrite get_put_same. rewrite Hget in Hq.
        apply IH; [| exact Hq].
        intros z Hlz. apply Hz. simpl. rewrite Hget. exact Hlz.
      * now rewrite get_put_other.
Qed.

(** Removing what is at [p] loses no directory when [p] is not one. *)
Lemma store_none_dirs_preserved (p : path) (n : Node) :
  isdir p n = false -> dirs_preserved n (store p None n).
Proof.
  revert n. induction p as [| c p IH]; intros n Hp.
  - destruct n; apply dirs_preserved_refl.
  - destruct n as [t d | t ch]; [apply dirs_preserved_refl |].
    rewrite isdir_cons in Hp.
    destruct p as [| c' p'].
    + intros [| d q] Hq; [reflexivity |].
      simpl store. rewrite isdir_cons in Hq |- *.
      destruct (String.eqb_spec d c) as [-> | Hne].
      * destruct (get_child c ch) as [x |] eqn:Hget; [| discriminate].
        destruct x as [tx dx | tx chx]; [| discriminate Hp].
        now rewrite isdir_file in Hq.
      * now rewrite get_del_other.
    + rewrite store_cons by discriminate.
      destruct (get_child c ch) as [x |] eqn:Hget;
        [| apply dirs_preserved_refl].
      intros [| d q] Hq; [reflexivity |].
      rewrite isdir_cons in Hq |- *.
      destruct (String.eqb_spec d c) as [-> | Hne].
      * rewrite get_put_same. rewrite Hget in Hq.
        apply IH; assumption.
      * now rewrite get_put_other.
Qed.

Lemma makedirs_dirs_preserved (t : Z) (p : path) (n n' : Node) :
  makedirs t p n = Ok n' -> dirs_preserved n n'.
Proof.
  revert n n'. induction p as [| c p IH]; intros n n' Hmk.
  - destruct n; simpl in Hmk; inversion Hmk; subst. apply dirs_preserved_refl.
  - destruct n as [tn d | tn ch]; simpl in Hmk; [discriminate |].
    destruct (makedirs t p
                (match get_child c ch with Some m => m | None => Dir t [] end))
      as [m' | e] eqn:Hrec; [| discriminate].
    inversion Hmk; subst; clear Hmk.
    intros [| d q] Hq; [reflexivity |].
    rewrite isdir_cons in Hq |- *.
    destruct (String.eqb_spec d c) as [-> | Hne].
    + rewrite get_put_same.
      destruct (get_child c ch) as [x |] eqn:Hget; [| discriminate].
      eapply IH; eassumption.
    + now rewrite get_put_other.
Qed.

(** ** Reasoning about computations in [M] *)

#[local] Instance extends_preorder (P : Event -> Prop) : PreOrder (extends P).
Proof.
  split.
  - intros w. exists []. now rewrite app_nil_r.
  - intros a b c (e1 & H1 & F1) (e2 & H2 & F2).
    exists (e1 ++ e2). split.
    + now rewrite H2, H1, app_assoc.
    + apply Forall_app. now split.
Qed.

#[local] Instance nothing_deleted_preorder : PreOrder nothing_deleted.
Proof.
  split.
  - intros w. split; [apply dirs_preserved_refl | apply incl_refl].
  - intros a b c [F1 D1] [F2 D2]. split.
    + eapply dirs_preserved_trans; eassumption.
    + eapply incl_tran; eassumption.
Qed.

Lemma extends_weaken (P Q : Event -> Prop) (w w' : World) :
  (forall e, P e -> Q e) -> extends P w w' -> extends Q w w'.
Proof.
  intros HPQ (evs & Ht & HF). exists evs. split; [exact Ht |].
  eapply Forall_impl; [| exact HF]. exact HPQ.
Qed.

Lemma extends_events_since (P : Event -> Prop) (w w' : World) :
  extends P w w' ->
  trace w' = trace w ++ events_since w w' /\ Forall P (events_since w w').
Proof.
  intros (evs & Ht & HF). unfold events_since. rewrite Ht.
  rewrite skipn_app, skipn_all, Nat.sub_diag. simpl. now split.
Qed.

Section Steps.
Context {R : World -> World -> Prop} {HR : PreOrder R}.

Lemma steps_ret {A : Type} (a : A) : steps R (ret a).
Proof. intros w. simpl. reflexivity. Qed.

Lemma steps_raise {A : Type} (e : exn) : steps R (@raise A e).
Proof. intros w. simpl. reflexivity. Qed.

Lemma steps_bind {A B : Type} (m : M A) (k : A -> M B) :
  steps R m -> (forall a, steps R (k a)) -> steps R (bind m k).
Proof.
  intros Hm Hk w. unfold bind. specialize (Hm w).
  destruct (m w) as [[a | e] w1]; simpl in *.
  - etransitivity; [exact Hm | apply Hk].
  - exact Hm.
Qed.

Lemma steps_try {A : Type} (body : M A) (handler : exn -> M A) :
  steps R body -> (forall e, steps R (handler e)) ->
  steps R (try_except body handler).
Proof.
  intros Hb Hh w. unfold try_except. specialize (Hb w).
  destruct (body w) as [[a | e] w1]; simpl in *.
  - exact Hb.
  - etransitivity; [exact Hb | apply Hh].
Qed.

Lemma steps_for_each {A : Type} (xs : list A) (body : A -> M unit) :
  (forall x, In x xs -> steps R (body x)) -> steps R (for_each xs body).
Proof.
  induction xs as [| x xs IH]; intros Hb; simpl.
  - apply steps_ret.
  - apply steps_bind; [apply Hb; now left |].
    intros _. apply IH. intros y Hy. apply Hb. now right.
Qed.

Lemma steps_map_m {A B : Type} (f : A -> M B) (xs : list A) :
  (forall x, steps R (f x)) -> steps R (map_m f xs).
Proof.
  intros Hf. induction xs as [| x xs IH]; simpl.
  - apply steps_ret.
  - apply steps_bind; [apply Hf |]. intros y.
    apply steps_bind; [exact IH |]. intros ys. apply steps_ret.
Qed.

Lemma steps_lift {A : Type} (r : result A) : steps R (lift r).
Proof. destruct r; [apply steps_ret | apply steps_raise]. Qed.

Lemma steps_fail_if (o : option exn) : steps R (fail_if o).
Proof. destruct o; [apply steps_raise | apply steps_ret]. Qed.

Lemma steps_get_fs : steps R get_fs.
Proof. intros w. simpl. reflexivity. Qed.

Lemma steps_get_drive : steps R get_drive.
Proof. intros w. simpl. reflexivity. Qed.
End Steps.

Lemma extends_emit (P : Event -> Prop) (e : Event) :
  P e -> steps (extends P) (emit e).
Proof. intros He w. exists [e]. simpl. split; [reflexivity | auto]. Qed.

Lemma extends_set_fs (P : Event -> Prop) (n : Node) :
  steps (extends P) (set_fs n).
Proof. intros w. exists []. simpl. now rewrite app_nil_r. Qed.

Lemma extends_set_drive (P : Event -> Prop) (d : list DriveFile) :
  steps (extends P) (set_drive d).
Proof. intros w. exists []. simpl. now rewrite app_nil_r. Qed.

Lemma nothing_deleted_emit (e : Event) : steps nothing_deleted (emit e).
Proof.
  intros w. split; simpl; [apply dirs_preserved_refl | apply incl_refl].
Qed.

Create HintDb steps.
#[local] Hint Resolve extends_set_fs extends_set_drive nothing_deleted_emit : steps.

(** Walks through a computation built from the combinators above; what is
    left are the events it emits and the writes it makes. *)
Ltac steps_tac :=
  repeat (intros;
    match goal with
    | |- steps _ _ => solve [auto with steps]
    | |- steps _ (bind _ _) => apply steps_bind
    | |- steps _ (ret _) => apply steps_ret
    | |- steps _ (raise _) => apply steps_raise
    | |- steps _ (lift _) => apply steps_lift
    | |- steps _ (fail_if _) => apply steps_fail_if
    | |- steps _ get_fs => apply steps_get_fs
    | |- steps _ get_drive => apply steps_get_drive
    | |- steps _ (try_except _ _) => apply steps_try
    | |- steps _ (for_each _ _) => apply steps_for_each
    | |- steps _ (map_m _ _) => apply steps_map_m
    | |- steps (extends _) (emit _) => apply extends_emit
    | |- steps (extends _) (log _ _) => apply extends_emit
    | |- steps _ (match ?x with _ => _ end) => destruct x
    end).

Section Extends.
Variable P : Event -> Prop.

Lemma extends_os_path_exists p : steps (extends P) (os_path_exists p).
Proof. unfold os_path_exists. steps_tac. Qed.

Lemma extends_os_path_isdir p : steps (extends P) (os_path_isdir p).
Proof. unfold os_path_isdir. steps_tac. Qed.

Lemma extends_os_remove p : steps (extends P) (os_remove p).
Proof. unfold os_remove. steps_tac. Qed.

Lemma extends_os_makedirs env p : steps (extends P) (os_makedirs env p).
Proof. unfold os_makedirs. steps_tac. Qed.

Lemma extends_os_listdir p : steps (extends P) (os_listdir p).
Proof. unfold os_listdir. steps_tac. Qed.

Lemma extends_os_path_getctime p : steps (extends P) (os_path_getctime p).
Proof. unfold os_path_getctime. steps_tac. Qed.

Lemma extends_os_path_getsize p : steps (extends P) (os_path_getsize p).
Proof. unfold os_path_getsize. steps_tac. Qed.

Lemma extends_zipfile_open env p : steps (extends P) (zipfile_open env p).
Proof. unfold zipfile_open. steps_tac. Qed.

Lemma extends_z_write env z f a d : steps (extends P) (z_write env z f a d).
Proof. unfold z_write. steps_tac. Qed.

Lemma extends_build env creds : steps (extends P) (build env creds).
Proof. unfold build. steps_tac. Qed.

#[local] Hint Resolve extends_os_path_exists extends_os_path_isdir extends_os_remove
  extends_os_makedirs extends_os_listdir extends_os_path_getctime
  extends_os_path_getsize extends_zipfile_open extends_z_write
  extends_build : steps.

Hypothesis P_log : forall lvl msg, P (Log lvl msg).

Lemma extends_custom_zip_folder cfg env src zip_path :
  steps (extends P) (custom_zip_folder cfg env src zip_path).
Proof. unfold custom_zip_folder. steps_tac; auto. Qed.

Lemma extends_authenticate cfg env : steps (extends P) (authenticate cfg env).
Proof. unfold authenticate. steps_tac; auto. Qed.

Lemma extends_local_entries root : steps (extends P) (local_entries root).
Proof. unfold local_entries. steps_tac. Qed.

Lemma extends_bilan cfg zip_path : steps (extends P) (bilan cfg zip_path).
Proof. unfold bilan. steps_tac; auto. Qed.

Lemma extends_shutil_rmtree env p :
  P (Rmtree p) -> steps (extends P) (shutil_rmtree env p).
Proof. intros Hp. unfold shutil_rmtree. steps_tac; auto. Qed.

Lemma extends_drive_files_list env n :
  P (DriveList n) -> steps (extends P) (drive_files_list env n).
Proof. intros Hp. unfold drive_files_list. steps_tac; auto. Qed.

Lemma extends_drive_files_delete env i :
  P (DriveDelete i) -> steps (extends P) (drive_files_delete env i).
Proof. intros Hp. unfold drive_files_delete. steps_tac; auto. Qed.

Lemma extends_time_sleep secs :
  P (Sleep secs) -> steps (extends P) (time_sleep secs).
Proof. intros Hp. unfold time_sleep. steps_tac; auto. Qed.

Lemma extends_create_drive_folder cfg env folder_name :
  P (DriveCreate folder_name) ->
  steps (extends P) (create_drive_folder cfg env folder_name).
Proof. intros Hp. unfold create_drive_folder. steps_tac; auto. Qed.

Lemma extends_upload_file_to_folder cfg env folder_id file_path :
  P (DriveUpload folder_id file_path) ->
  steps (extends P) (upload_file_to_folder cfg env folder_id file_path).
Proof. intros Hp. unfold upload_file_to_folder. steps_tac; auto. Qed.

Lemma extends_archive_and_upload cfg env zip_path :
  (forall n, P (DriveCreate n)) -> (forall i f, P (DriveUpload i f)) ->
  steps (extends P) (archive_and_upload cfg env zip_path).
Proof.
  intros Hc Hu. unfold archive_and_upload.
  apply steps_bind; [apply extends_custom_zip_folder | intros _].
  apply steps_bind; [apply extends_authenticate | intros creds].
  apply steps_bind; [apply extends_build | intros _].
  apply steps_bind; [apply extends_create_drive_folder, Hc | intros df_id].
  apply steps_bind; [apply extends_upload_file_to_folder, Hu | intros _].
  apply steps_ret.
Qed.

Lemma extends_clean_local_backups cfg env :
  (forall p, P (Rmtree p)) -> steps (extends P) (clean_local_backups cfg env).
Proof.
  intros Hr. unfold clean_local_backups.
  apply steps_bind; [apply extends_local_entries | intros entries].
  apply steps_for_each. intros old _.
  apply steps_bind; [apply extends_shutil_rmtree, Hr | intros _].
  apply extends_emit, P_log.
Qed.

Lemma extends_delete_old_backups_by_count cfg env :
  (forall n, P (DriveList n)) -> (forall i, P (DriveDelete i)) ->
  steps (extends P) (delete_old_backups_by_count cfg env).
Proof.
  intros Hl Hd. unfold delete_old_backups_by_count.
  apply steps_bind; [apply extends_emit, P_log | intros _].
  apply steps_bind; [apply extends_drive_files_list, Hl | intros files].
  apply steps_for_each. intros f _.
  apply steps_bind; [apply extends_drive_files_delete, Hd | intros _].
  apply extends_emit, P_log.
Qed.
End Extends.

(** ** Steps that delete nothing *)

Lemma nothing_deleted_fs (w : World) (n : Node) :
  dirs_preserved (fs w) n ->
  nothing_deleted w (mkWorld n (drive w) (trace w)).
Proof. intros H. split; [exact H | apply incl_refl]. Qed.

Lemma nothing_deleted_same (w w' : World) :
  fs w' = fs w -> drive w' = drive w -> nothing_deleted w w'.
Proof.
  intros Hf Hd. split; [rewrite Hf; apply dirs_preserved_refl |].
  rewrite Hd. apply incl_refl.
Qed.

Lemma nothing_deleted_os_remove p : steps nothing_deleted (os_remove p).
Proof.
  intros w. unfold os_remove, bind, get_fs. simpl.
  destruct (lookup p (fs w)) as [[t d | t ch] |] eqn:Hl; simpl;
    try reflexivity.
  apply nothing_deleted_fs, store_none_dirs_preserved.
  unfold isdir. now rewrite Hl.
Qed.

Lemma nothing_deleted_os_makedirs env p :
  steps nothing_deleted (os_makedirs env p).
Proof.
  intros w. unfold os_makedirs, bind, get_fs. simpl.
  destruct (makedirs (clock env) p (fs w)) as [n' | e] eqn:Hmk; simpl;
    [| reflexivity].
  eapply nothing_deleted_fs, makedirs_dirs_preserved, Hmk.
Qed.

Lemma nothing_deleted_zipfile_open env p :
  steps nothing_deleted (zipfile_open env p).
Proof.
  intros w. unfold zipfile_open, bind, get_fs. simpl.
  destruct (isdir (parent p) (fs w)); simpl; [| reflexivity].
  destruct (isdir p (fs w)) eqn:Hd; simpl; [reflexivity |].
  apply nothing_deleted_fs, store_some_dirs_preserved.
  intros z Hz q Hq. unfold isdir in Hd. rewrite Hz in Hd.
  destruct z as [t d | t ch]; [| discriminate Hd].
  now rewrite isdir_file in Hq.
Qed.

Lemma nothing_deleted_z_write env z f a d :
  steps nothing_deleted (z_write env z f a d).
Proof.
  intros w. unfold z_write, bind, get_fs, fail_if.
  destruct (zip_write_error env f); simpl; [reflexivity |].
  destruct (lookup z (fs w)) as [x |] eqn:Hl; simpl; [| reflexivity].
  apply nothing_deleted_fs, store_some_dirs_preserved.
  intros x' Hx'. assert (x' = x) by congruence. subst x'.
  destruct x as [t [b | ms] | t ch]; simpl;
    try apply dirs_preserved_refl.
  intros q Hq. now rewrite isdir_file in Hq.
Qed.

Lemma nothing_deleted_create_drive_folder cfg env folder_name :
  steps nothing_deleted (create_drive_folder cfg env folder_name).
Proof.
  intros w. unfold create_drive_folder, bind, log, emit, lift, get_drive,
    set_drive. simpl.
  destruct (create_outcome env folder_name) as [[i t] | e]; simpl.
  - split; simpl; [apply dirs_preserved_refl | apply incl_appl, incl_refl].
  - now apply nothing_deleted_same.
Qed.

#[local] Hint Resolve nothing_deleted_os_remove nothing_deleted_os_makedirs
  nothing_deleted_zipfile_open nothing_deleted_z_write
  nothing_deleted_create_drive_folder : steps.

Lemma nothing_deleted_log lvl msg : steps nothing_deleted (log lvl msg).
Proof. apply nothing_deleted_emit. Qed.

#[local] Hint Resolve nothing_deleted_log : steps.

Lemma nothing_deleted_custom_zip_folder cfg env src zip_path :
  steps nothing_deleted (custom_zip_folder cfg env src zip_path).
Proof.
  unfold custom_zip_folder, os_path_exists, os_path_isdir, os_path_getsize.
  steps_tac.
Qed.

Lemma nothing_deleted_archive_and_upload cfg env zip_path :
  steps nothing_deleted (archive_and_upload cfg env zip_path).
Proof.
  unfold archive_and_upload.
  apply steps_bind; [apply nothing_deleted_custom_zip_folder | intros _].
  unfold authenticate, build, upload_file_to_folder. steps_tac.
Qed.

(** ** One cycle *)

Lemma aborts_before_pruning_raises cfg env zip_path w0 e :
  aborts_before_pruning cfg env zip_path w0 e ->
  exists w1, archive_and_upload cfg env zip_path w0 = (Raise e, w1).
Proof.
  intros H. unfold archive_and_upload, bind.
  destruct H as [e w1 Hz | e w1 w2 Hz Ha | e w1 creds w2 w3 Hz Ha Hb
                 | e w1 creds w2 w3 w4 Hz Ha Hb Hc
                 | e w1 creds w2 w3 df_id w4 w5 Hz Ha Hb Hc Hu];
    rewrite Hz; try rewrite Ha; try rewrite Hb; try rewrite Hc;
    try rewrite Hu; eexists; reflexivity.
Qed.

Lemma try_block_start_eq cfg env w wa :
  os_makedirs env (local_folder_of cfg env) w = (Ok tt, wa) ->
  try_block_start cfg env w = snd (log INFO debut_de_cycle wa).
Proof. intros H. unfold try_block_start, bind. now rewrite H. Qed.

Section Abort.
Context {R : World -> World -> Prop} {HR : PreOrder R}.
Variables (cfg : BotConfig) (env : Env).
Hypothesis R_makedirs : forall p, steps R (os_makedirs env p).
Hypothesis R_log : forall lvl msg, steps R (log lvl msg).
Hypothesis R_archive :
  forall zip_path, steps R (archive_and_upload cfg env zip_path).

(** A cycle whose steps before the retention passes abort only makes
    steps of its preparation, of those steps and of the logger. *)
Lemma do_backup_abort_steps w e w1 :
  archive_and_upload cfg env (zip_path_of cfg env) (try_block_start cfg env w)
  = (Raise e, w1) ->
  R w (snd (do_backup cfg env w)).
Proof.
  intros Habort.
  assert (Hmk := R_makedirs (local_folder_of cfg env) w).
  unfold do_backup.
  change (join (local_backup_root cfg) (local_name (now env)))
    with (local_folder_of cfg env).
  change (join (local_folder_of cfg env)
            (zip_name (zip_prefix cfg) (utcnow env)))
    with (zip_path_of cfg env).
  unfold bind at 1.
  destruct (os_makedirs env (local_folder_of cfg env) w)
    as [[[] | e0] wa] eqn:Hmkeq; simpl in Hmk; [| exact Hmk].
  rewrite (try_block_start_eq cfg env w wa Hmkeq) in Habort.
  assert (Hlog := R_log INFO debut_de_cycle wa).
  unfold bind at 1.
  destruct (log INFO debut_de_cycle wa) as [[[] | e0] w0] eqn:Hlogeq;
    simpl in Hlog, Habort; [| discriminate Hlogeq].
  assert (Harch := R_archive (zip_path_of cfg env) w0).
  rewrite Habort in Harch. simpl in Harch.
  unfold bind at 1, try_except. unfold bind at 1. rewrite Habort.
  assert (Hh : steps R
    (log ERROR ("❌ ERREUR pendant le backup : " ++ exc_msg e)%string ;;
     log DEBUG ("Traceback: " ++ exc_msg e)%string)).
  { apply steps_bind; [apply R_log | intros _; apply R_log]. }
  specialize (Hh w1).
  destruct ((log ERROR ("❌ ERREUR pendant le backup : " ++ exc_msg e)%string ;;
             log DEBUG ("Traceback: " ++ exc_msg e)%string) w1)
    as [[[] | e1] w2]; simpl in Hh.
  - assert (Hfin := R_log INFO fin_de_cycle w2).
    etransitivity; [exact Hmk |]. etransitivity; [exact Hlog |].
    etransitivity; [exact Harch |]. etransitivity; [exact Hh | exact Hfin].
  - simpl. etransitivity; [exact Hmk |]. etransitivity; [exact Hlog |].
    etransitivity; [exact Harch | exact Hh].
Qed.
End Abort.

Lemma flat_map_nil_Forall {A B : Type} (f : A -> list B) (l : list A) :
  Forall (fun x => f x = []) l -> flat_map f l = [].
Proof.
  induction 1 as [| x l Hx _ IH]; simpl; [reflexivity |].
  now rewrite Hx, IH.
Qed.

(** C3: when archiving, authentication (or building the service), the
    creation of the remote folder or the upload raises, the cycle calls
    neither [shutil.rmtree] nor the Drive deletion, and every local
    directory and every remote folder that existed before the cycle is
    still there after it. *)
Theorem abort_before_pruning_deletes_nothing cfg env w e :
  aborts_before_pruning cfg env (zip_path_of cfg env)
    (try_block_start cfg env w) e ->
  let w' := snd (do_backup cfg env w) in
  rmtree_attempts (events_since w w') = [] /\
  delete_attempts (events_since w w') = [] /\
  dirs_preserved (fs w) (fs w') /\
  incl (drive w) (drive w').
Proof.
  intros Habort w'.
  destruct (aborts_before_pruning_raises _ _ _ _ _ Habort) as [w1 Hraise].
  assert (Hext : extends (fun ev => is_deletion ev = false) w w').
  { eapply (do_backup_abort_steps cfg env); try exact Hraise.
    - intros p. apply extends_os_makedirs.
    - intros lvl msg. now apply extends_emit.
    - intros zp. apply extends_archive_and_upload; reflexivity. }
  assert (Hnd : nothing_deleted w w').
  { eapply (do_backup_abort_steps cfg env); try exact Hraise.
    - apply nothing_deleted_os_makedirs.
    - apply nothing_deleted_log.
    - apply nothing_deleted_archive_and_upload. }
  apply extends_events_since in Hext. destruct Hext as [_ Hall].
  destruct Hnd as [Hfs Hdrive].
  repeat split; try assumption.
  - apply flat_map_nil_Forall. eapply Forall_impl; [| exact Hall].
    intros [] Hev; simpl in *; try reflexivity; discriminate.
  - apply flat_map_nil_Forall. eapply Forall_impl; [| exact Hall].
    intros [] Hev; simpl in *; try reflexivity; discriminate.
Qed.

Lemma abort_before_pruning_deletes_nothing_witness :
  let env := demo_env (Some bad_credentials) no_error no_error in
  let w' := snd (do_backup demo_cfg env demo_world) in
  rmtree_attempts (events_since demo_world w') = [] /\
  delete_attempts (events_since demo_world w') = [] /\
  dirs_preserved (fs demo_world) (fs w') /\
  incl (drive demo_world) (drive w').
Proof.
  apply (abort_before_pruning_deletes_nothing demo_cfg
           (demo_env (Some bad_credentials) no_error no_error)
           demo_world bad_credentials).
  pose (env := demo_env (Some bad_credentials) no_error no_error).
  pose (w0 := try_block_start demo_cfg env demo_world).
  pose (w1 := snd (custom_zip_folder demo_cfg env (folder_to_zip demo_cfg)
                     (zip_path_of demo_cfg env) w0)).
  apply (abort_authentication demo_cfg env (zip_path_of demo_cfg env) w0
           bad_credentials w1 (snd (authenticate demo_cfg env w1)));
    vm_compute; reflexivity.
Defined.

Lemma bind_ok {A B : Type} (m : M A) (k : A -> M B) w a w1 :
  m w = (Ok a, w1) -> bind m k w = k a w1.
Proof. intros H. unfold bind. now rewrite H. Qed.

Lemma bind_raise {A B : Type} (m : M A) (k : A -> M B) w e w1 :
  m w = (Raise e, w1) -> bind m k w = (Raise e, w1).
Proof. intros H. unfold bind. now rewrite H. Qed.

Lemma extends_nettoyages (P : Event -> Prop) cfg env :
  (forall e, sleeps [e] = [] -> P e) ->
  steps (extends P) (nettoyages cfg env).
Proof.
  intros HP. unfold nettoyages.
  apply steps_bind; [| intros _].
  - apply extends_clean_local_backups; intros; now apply HP.
  - apply extends_delete_old_backups_by_count; intros; now apply HP.
Qed.

Lemma extends_try_block (P : Event -> Prop) cfg env zip_path :
  (forall e, sleeps [e] = [] -> P e) ->
  steps (extends P)
    (archive_and_upload cfg env zip_path ;; nettoyages cfg env ;;
     bilan cfg zip_path).
Proof.
  intros HP.
  apply steps_bind; [| intros _].
  - apply extends_archive_and_upload; intros; now apply HP.
  - apply steps_bind; [now apply extends_nettoyages | intros _].
    apply extends_bilan. intros; now apply HP.
Qed.

(** An [except Exception] handler that only logs turns every outcome of
    the block into a normal return. *)
Lemma try_except_logging_returns (P : Event -> Prop) (body : M unit)
    (handler : exn -> M unit) w :
  steps (extends P) body ->
  (forall e w1, fst (handler e w1) = Ok tt /\ extends P w1 (snd (handler e w1))) ->
  fst (try_except body handler w) = Ok tt /\
  extends P w (snd (try_except body handler w)).
Proof.
  intros Hb Hh. unfold try_except. specialize (Hb w).
  destruct (body w) as [[[] | e] w1]; simpl in *.
  - now split.
  - destruct (Hh e w1) as [Hok Hext]. split; [exact Hok |].
    etransitivity; eassumption.
Qed.

Lemma two_logs_return (P : Event -> Prop) l1 m1 l2 m2 w :
  (forall lvl msg, P (Log lvl msg)) ->
  fst ((log l1 m1 ;; log l2 m2) w) = Ok tt /\
  extends P w (snd ((log l1 m1 ;; log l2 m2) w)).
Proof.
  intros HP. split; [reflexivity |].
  exists [Log l1 m1; Log l2 m2]. simpl. rewrite <- app_assoc. simpl.
  split; [reflexivity | repeat constructor; apply HP].
Qed.

Lemma os_makedirs_ok env p w n' :
  makedirs (clock env) p (fs w) = Ok n' ->
  os_makedirs env p w = (Ok tt, mkWorld n' (drive w) (trace w)).
Proof.
  intros H. unfold os_makedirs, bind, get_fs, lift. simpl. now rewrite H.
Qed.

Lemma os_makedirs_raise env p w e :
  makedirs (clock env) p (fs w) = Raise e ->
  os_makedirs env p w = (Raise e, w).
Proof.
  intros H. unfold os_makedirs, bind, get_fs, lift. simpl. now rewrite H.
Qed.

(** An error of [os.makedirs], which runs before the [try] block, leaves
    [do_backup] at once: nothing is logged. *)
Lemma do_backup_makedirs_error cfg env w e :
  makedirs (clock env) (local_folder_of cfg env) (fs w) = Raise e ->
  do_backup cfg env w = (Raise e, w).
Proof.
  intros H. unfold do_backup.
  apply bind_raise. now apply os_makedirs_raise.
Qed.

(** C5, counterexample: a regular file stands where the dated folder is
    to be created; [os.makedirs] raises [FileExistsError] before the [try]
    block, the error leaves [do_backup] and no end-of-cycle marker is
    logged. *)
Lemma do_backup_raises_counterexample :
  let r := do_backup demo_cfg (demo_env None no_error no_error) blocked_world in
  fst r = Raise (mkExn FileExistsError "makedirs") /\
  ~ In (Log INFO fin_de_cycle) (trace (snd r)).
Proof.
  cbv zeta. split; [vm_compute; reflexivity |].
  vm_compute. intros [].
Qed.

(** C5, amended: once the dated local folder exists or could be created,
    no exception raised by a later step of the cycle (archiving,
    authentication, Drive calls, the retention passes, the summary)
    leaves [do_backup]: it returns normally, and the last thing it logs
    is the end-of-cycle marker, after the start marker. *)
Theorem do_backup_catches_try_block cfg env w n' :
  makedirs (clock env) (local_folder_of cfg env) (fs w) = Ok n' ->
  fst (do_backup cfg env w) = Ok tt /\
  exists evs,
    trace (snd (do_backup cfg env w))
    = trace w ++ Log INFO debut_de_cycle :: evs ++ [Log INFO fin_de_cycle].
Proof.
  intros Hmk. unfold do_backup.
  rewrite (bind_ok _ _ _ _ _ (os_makedirs_ok env _ w n' Hmk)).
  set (wa := mkWorld n' (drive w) (trace w)).
  rewrite (bind_ok _ _ wa tt
             (mkWorld n' (drive w) (trace w ++ [Log INFO debut_de_cycle])))
    by reflexivity.
  set (w0 := mkWorld n' (drive w) (trace w ++ [Log INFO debut_de_cycle])).
  match goal with
  | |- context [bind (try_except ?b ?h) _ w0] =>
      destruct (try_except_logging_returns (fun _ => True) b h w0) as [Hok Hext]
  end.
  { apply extends_try_block. trivial. }
  { intros e w1. apply two_logs_return. trivial. }
  match goal with
  | |- context [bind ?t _ w0] => destruct (t w0) as [r w2] eqn:Ht
  end.
  simpl in Hok, Hext. subst r.
  rewrite (bind_ok _ _ _ _ _ Ht).
  split; [reflexivity |].
  destruct Hext as (evs & Htr & _). exists evs. simpl.
  rewrite Htr. unfold w0. simpl. rewrite <- !app_assoc. reflexivity.
Qed.

Lemma do_backup_catches_try_block_witness :
  let env := demo_env (Some bad_credentials) no_error no_error in
  fst (do_backup demo_cfg env demo_world) = Ok tt /\
  exists evs,
    trace (snd (do_backup demo_cfg env demo_world))
    = trace demo_world ++ Log INFO debut_de_cycle :: evs
      ++ [Log INFO fin_de_cycle].
Proof.
  cbv zeta.
  destruct (makedirs 100
              (local_folder_of demo_cfg
                 (demo_env (Some bad_credentials) no_error no_error))
              (fs demo_world)) as [n' | e] eqn:Hmk;
    [| vm_compute in Hmk; discriminate Hmk].
  exact (do_backup_catches_try_block demo_cfg
           (demo_env (Some bad_credentials) no_error no_error)
           demo_world n' Hmk).
Defined.

(** ** The scheduler *)

Lemma sleeps_app (a b : list Event) : sleeps (a ++ b) = sleeps a ++ sleeps b.
Proof. apply flat_map_app. Qed.

Lemma sleeps_nil (evs : list Event) :
  Forall (fun e => sleeps [e] = []) evs -> sleeps evs = [].
Proof.
  induction 1 as [| x l Hx _ IH]; [reflexivity |].
  unfold sleeps in *. simpl in *. rewrite app_nil_r in Hx.
  now rewrite Hx, IH.
Qed.

Lemma events_since_app (w w' : World) (evs : list Event) :
  trace w' = trace w ++ evs -> events_since w w' = evs.
Proof.
  intros H. unfold events_since. rewrite H.
  rewrite skipn_app, skipn_all, Nat.sub_diag. reflexivity.
Qed.

Lemma try_except_ok {A : Type} (body : M A) (h : exn -> M A) w a w1 :
  body w = (Ok a, w1) -> try_except body h w = (Ok a, w1).
Proof. intros H. unfold try_except. now rewrite H. Qed.

Lemma try_except_raise {A : Type} (body : M A) (h : exn -> M A) w e w1 :
  body w = (Raise e, w1) -> try_except body h w = h e w1.
Proof. intros H. unfold try_except. now rewrite H. Qed.

Lemma extends_do_backup (P : Event -> Prop) cfg env :
  (forall e, sleeps [e] = [] -> P e) -> steps (extends P) (do_backup cfg env).
Proof.
  intros HP. unfold do_backup.
  apply steps_bind; [apply extends_os_makedirs | intros _].
  apply steps_bind; [apply extends_emit; now apply HP | intros _].
  apply steps_bind; [| intros _; apply extends_emit; now apply HP].
  apply steps_try; [now apply extends_try_block | intros e].
  apply steps_bind; [| intros _]; apply extends_emit; now apply HP.
Qed.

(** One pass of the loop, for an interval [time.sleep] accepts: the
    cycle, the two records of the handler when [do_backup] raised, the
    sleep; the pass returns. *)
Lemma run_iteration_eq cfg env interval w :
  0 <= interval <= max_sleep ->
  run_iteration cfg env interval w
  = (Ok tt,
     mkWorld (fs (snd (do_backup cfg env w))) (drive (snd (do_backup cfg env w)))
       (trace (snd (do_backup cfg env w)) ++
        match fst (do_backup cfg env w) with
        | Ok _ => []
        | Raise e => [unexpected_in_run e;
                      Log DEBUG ("Traceback: " ++ exc_msg e)%string]
        end ++ [Sleep interval])).
Proof.
  intros Hrange. unfold run_iteration.
  assert (Hsleep : forall w1,
             time_sleep interval w1
             = (Ok tt, mkWorld (fs w1) (drive w1) (trace w1 ++ [Sleep interval]))).
  { intros w1. unfold time_sleep.
    destruct (Z.ltb_spec interval 0) as [Hlt | _]; [lia |].
    destruct (Z.ltb_spec max_sleep interval) as [Hlt | _]; [lia | reflexivity]. }
  destruct (do_backup cfg env w) as [[[] | e] w1] eqn:Hdb; cbn [fst snd].
  - rewrite (bind_ok _ _ w tt w1) by now apply try_except_ok.
    rewrite Hsleep. reflexivity.
  - rewrite (bind_ok _ _ w tt
               (mkWorld (fs w1) (drive w1)
                  (trace w1 ++ [unexpected_in_run e;
                                Log DEBUG ("Traceback: " ++ exc_msg e)%string]))).
    2: { rewrite (try_except_raise _ _ _ _ _ Hdb). unfold bind, log, emit.
         simpl. rewrite <- app_assoc. reflexivity. }
    rewrite Hsleep. cbn [fs drive trace]. now rewrite <- app_assoc.
Qed.

Lemma run_iteration_returns cfg env interval w :
  0 <= interval <= max_sleep ->
  fst (run_iteration cfg env interval w) = Ok tt /\
  exists evs,
    trace (snd (run_iteration cfg env interval w))
    = trace w ++ evs ++ [Sleep interval] /\
    sleeps evs = [].
Proof.
  intros Hrange. rewrite (run_iteration_eq cfg env interval w Hrange).
  split; [reflexivity |]. cbn [snd trace].
  destruct (extends_do_backup (fun e => sleeps [e] = []) cfg env
              (fun e H => H) w) as (evs & Htr & Hall).
  exists (evs ++ match fst (do_backup cfg env w) with
                 | Ok _ => []
                 | Raise e => [unexpected_in_run e;
                               Log DEBUG ("Traceback: " ++ exc_msg e)%string]
                 end).
  split.
  - rewrite Htr, <- !app_assoc. reflexivity.
  - rewrite sleeps_app, (sleeps_nil _ Hall).
    now destruct (fst (do_backup cfg env w)).
Qed.

Lemma run_loop_returns cfg envs interval k n w :
  0 <= interval <= max_sleep ->
  fst (run_loop cfg envs interval k n w) = Ok tt /\
  exists evs,
    trace (snd (run_loop cfg envs interval k n w)) = trace w ++ evs /\
    sleeps evs = repeat interval n.
Proof.
  intros Hrange. revert k w. induction n as [| n IH]; intros k w; simpl.
  - split; [reflexivity |]. exists []. now rewrite app_nil_r.
  - destruct (run_iteration_returns cfg (envs k) interval w Hrange)
      as (Hok & evs & Htr & Hsl).
    destruct (run_iteration cfg (envs k) interval w) as [r w1] eqn:Hit.
    simpl in Hok, Htr. subst r.
    rewrite (bind_ok _ _ _ _ _ Hit).
    destruct (IH (S k) w1) as (Hok' & evs' & Htr' & Hsl').
    split; [exact Hok' |].
    exists ((evs ++ [Sleep interval]) ++ evs'). split.
    + rewrite Htr', Htr, <- !app_assoc. reflexivity.
    + rewrite !sleeps_app, Hsl, Hsl'. reflexivity.
Qed.

Lemma bind_assoc {A B C : Type} (m : M A) (k : A -> M B) (h : B -> M C) w :
  bind (bind m k) h w = bind m (fun a => bind (k a) h) w.
Proof. unfold bind. now destruct (m w) as [[a | e] w1]. Qed.

Lemma bind_ext {A B : Type} (m : M A) (k h : A -> M B) w :
  (forall a w1, k a w1 = h a w1) -> bind m k w = bind m h w.
Proof. intros H. unfold bind. destruct (m w) as [[a | e] w1]; auto. Qed.

(** Pass [n + 1] of the loop comes after the first [n]. *)
Lemma run_loop_snoc cfg envs interval k n w :
  run_loop cfg envs interval k (S n) w
  = bind (run_loop cfg envs interval k n)
      (fun _ => run_iteration cfg (envs (k + n)%nat) interval) w.
Proof.
  revert k w. induction n as [| n IH]; intros k w.
  - simpl. unfold bind, ret. rewrite Nat.add_0_r.
    now destruct (run_iteration cfg (envs k) interval w) as [[[] | e] w1].
  - change (run_loop cfg envs interval k (S (S n)) w)
      with (bind (run_iteration cfg (envs k) interval)
              (fun _ => run_loop cfg envs interval (S k) (S n)) w).
    change (run_loop cfg envs interval k (S n))
      with (bind (run_iteration cfg (envs k) interval)
              (fun _ => run_loop cfg envs interval (S k) n)).
    rewrite bind_assoc. apply bind_ext. intros _ w1.
    rewrite IH. now rewrite Nat.add_succ_r.
Qed.

(** C6, counterexample: nothing checks the configured interval.  With
    an interval of -60 seconds the first cycle is done, then [time.sleep],
    which stands outside the [try], raises [ValueError] and [run] is
    left: there is no second iteration.  With an interval of 10^10
    seconds it is [OverflowError] that leaves [run]. *)
Lemma run_stops_counterexample :
  let envs := fun _ : nat => demo_env None no_error no_error in
  fst (run (demo_cfg_every (-60)) envs 2 demo_world)
  = Raise (mkExn ValueError "sleep length must be non-negative") /\
  sleeps (trace (snd (run (demo_cfg_every (-60)) envs 2 demo_world))) = [] /\
  (exists msg,
      fst (run (demo_cfg_every 10000000000) envs 2 demo_world)
      = Raise (mkExn (OtherException "OverflowError") msg)) /\
  sleeps (trace (snd (run (demo_cfg_every 10000000000) envs 2 demo_world)))
  = [].
Proof.
  cbv zeta. split; [vm_compute; reflexivity |].
  split; [vm_compute; reflexivity |].
  split; [eexists; vm_compute; reflexivity | vm_compute; reflexivity].
Qed.

(** C6, amended: with an interval [time.sleep] accepts, from 0 to
    [max_sleep] seconds, the loop of [run] is never left.  For every [n],
    whatever the cycles do, the first [n] passes complete without an
    exception, having slept the interval once each; and pass [n + 1] then
    takes place: it is [do_backup], started in the state pass [n] left,
    then the two records of the handler when an exception left
    [do_backup], then the sleep, and it returns. *)
Theorem run_never_stops cfg envs n w :
  0 <= backup_interval cfg <= max_sleep ->
  fst (run cfg envs n w) = Ok tt /\
  sleeps (events_since w (snd (run cfg envs n w)))
  = repeat (backup_interval cfg) n /\
  let cycle := do_backup cfg (envs n) (snd (run cfg envs n w)) in
  run cfg envs (S n) w
  = (Ok tt,
     mkWorld (fs (snd cycle)) (drive (snd cycle))
       (trace (snd cycle) ++
        match fst cycle with
        | Ok _ => []
        | Raise e => [unexpected_in_run e;
                      Log DEBUG ("Traceback: " ++ exc_msg e)%string]
        end ++ [Sleep (backup_interval cfg)])).
Proof.
  intros Hrange. unfold run. cbv zeta.
  rewrite !(bind_ok _ _ w tt
              (mkWorld (fs w) (drive w) (trace w ++ [Log INFO "🔄 Service lancé"])))
    by reflexivity.
  set (w1 := mkWorld (fs w) (drive w) (trace w ++ [Log INFO "🔄 Service lancé"])).
  destruct (run_loop_returns cfg envs (backup_interval cfg) 0 n w1 Hrange)
    as (Hok & evs & Htr & Hsl).
  split; [exact Hok |]. split.
  - rewrite (events_since_app w _ (Log INFO "🔄 Service lancé" :: evs)).
    + exact Hsl.
    + rewrite Htr. unfold w1. simpl. rewrite <- app_assoc. reflexivity.
  - rewrite run_loop_snoc. unfold bind.
    destruct (run_loop cfg envs (backup_interval cfg) 0 n w1) as [r wn].
    cbn [fst snd] in *. subst r. cbn [Nat.add].
    apply (run_iteration_eq cfg (envs n) (backup_interval cfg) wn Hrange).
Qed.

Lemma run_never_stops_witness :
  let envs := fun _ : nat => demo_env None no_error no_error in
  fst (run demo_cfg envs 3 blocked_world) = Ok tt /\
  sleeps (events_since blocked_world (snd (run demo_cfg envs 3 blocked_world)))
  = [3600; 3600; 3600].
Proof.
  cbv zeta.
  assert (Hrange : 0 <= backup_interval demo_cfg <= max_sleep)
    by (vm_compute; split; discriminate).
  destruct (run_never_stops demo_cfg
              (fun _ : nat => demo_env None no_error no_error) 3 blocked_world
              Hrange)
    as (Hok & Hsl & _).
  split; [exact Hok | exact Hsl].
Defined.

(** ** The deletion loops *)

Section ForEach.
Context {A B : Type}.
Variable f : Event -> list B.
Variable tag : A -> B.
Variable body : A -> M unit.
Hypothesis body_events :
  forall x w, exists evs,
    trace (snd (body x w)) = trace w ++ evs /\ flat_map f evs = [tag x].

(** A loop whose body makes one tagged call per element: the calls made
    are those for the elements up to and including the first one whose
    body raises, and that exception is the outcome of the loop. *)
Lemma for_each_attempts (xs : list A) (w : World) :
  exists evs,
    trace (snd (for_each xs body w)) = trace w ++ evs /\
    match fst (for_each xs body w) with
    | Ok _ =>
        flat_map f evs = map tag xs /\
        Forall (fun x => exists wa wb, body x wa = (Ok tt, wb)) xs
    | Raise e =>
        exists done x rest wa,
          xs = done ++ x :: rest /\
          flat_map f evs = map tag (done ++ [x]) /\
          body x wa = (Raise e, snd (for_each xs body w))
    end.
Proof.
  revert w. induction xs as [| x xs IH]; intros w.
  - exists []. simpl. rewrite app_nil_r. repeat split. constructor.
  - destruct (body_events x w) as (ex & Hex & Htag).
    destruct (body x w) as [[[] | e] w1] eqn:Hb; simpl in Hex.
    + simpl for_each. rewrite (bind_ok _ _ _ _ _ Hb).
      destruct (IH w1) as (evs & Htr & Hcase).
      exists (ex ++ evs). split.
      { rewrite Htr, Hex, app_assoc. reflexivity. }
      destruct (fst (for_each xs body w1)) as [[] | e].
      * destruct Hcase as [Hm Hall]. split.
        { rewrite flat_map_app, Htag, Hm. reflexivity. }
        { constructor; [now exists w, w1 | exact Hall]. }
      * destruct Hcase as (done & y & rest & wa & Hxs & Hm & Hy).
        exists (x :: done), y, rest, wa. split; [now rewrite Hxs |].
        split; [| exact Hy].
        rewrite flat_map_app, Htag, Hm. reflexivity.
    + simpl for_each. rewrite (bind_raise _ _ _ _ _ Hb). simpl.
      exists ex. split; [exact Hex |].
      exists [], x, xs, w. repeat split; assumption.
Qed.
End ForEach.

Lemma rmtree_body_events env (old : path) w :
  exists evs,
    trace (snd ((shutil_rmtree env old ;;
                 log INFO ("🗑️ Supprimé local : " ++ path_str old)%string) w))
    = trace w ++ evs /\
    rmtree_attempts evs = [old].
Proof.
  unfold shutil_rmtree, bind, emit, fail_if, get_fs, log, emit.
  simpl. destruct (rmtree_error env old); simpl.
  - exists [Rmtree old]. now split.
  - destruct (lookup old (fs w)) as [[t d | t ch] |]; simpl.
    + exists [Rmtree old]. now split.
    + eexists [Rmtree old; Log INFO _]. rewrite <- app_assoc. now split.
    + exists [Rmtree old]. now split.
Qed.

Lemma rmtree_body_raise env (old : path) wa e wb :
  (shutil_rmtree env old ;;
   log INFO ("🗑️ Supprimé local : " ++ path_str old)%string) wa = (Raise e, wb) ->
  shutil_rmtree env old wa = (Raise e, wb).
Proof.
  unfold bind at 1.
  destruct (shutil_rmtree env old wa) as [[[] | e'] w1]; [| easy].
  unfold log, emit. discriminate.
Qed.

Lemma delete_body_events env (g : DriveFile) w :
  exists evs,
    trace (snd ((drive_files_delete env (f_id g) ;;
                 log INFO ("🗑️ Supprimé Drive : " ++ f_name g ++ " (créé "
                           ++ f_createdTime g ++ ")")%string) w))
    = trace w ++ evs /\
    delete_attempts evs = [f_id g] /\ list_requests evs = [].
Proof.
  unfold drive_files_delete, bind, emit, fail_if, get_drive, set_drive, log,
    emit. simpl.
  destruct (delete_error env (f_id g)); simpl.
  - exists [DriveDelete (f_id g)]. now split.
  - eexists [DriveDelete (f_id g); Log INFO _]. rewrite <- app_assoc.
    now split.
Qed.

Lemma delete_body_outcome env (g : DriveFile) wa :
  fst ((drive_files_delete env (f_id g) ;;
        log INFO ("🗑️ Supprimé Drive : " ++ f_name g ++ " (créé "
                  ++ f_createdTime g ++ ")")%string) wa)
  = match delete_error env (f_id g) with
    | Some e => Raise e
    | None => Ok tt
    end.
Proof.
  unfold drive_files_delete, bind, emit, fail_if, get_drive, set_drive, log,
    emit. simpl.
  now destruct (delete_error env (f_id g)).
Qed.

#[local] Instance eq_world_preorder : PreOrder (@eq World).
Proof. split; [intros w; reflexivity | intros a b c; apply eq_trans]. Qed.

(** Building the listing changes nothing. *)
Lemma local_entries_reads root w r w1 :
  local_entries root w = (r, w1) -> w1 = w.
Proof.
  intros H.
  assert (Hs : steps eq (local_entries root)).
  { unfold local_entries, os_listdir, os_path_getctime. steps_tac. }
  specialize (Hs w). rewrite H in Hs. simpl in Hs. now symmetry.
Qed.

Lemma clean_local_backups_loop cfg env w entries w1 :
  local_entries (local_backup_root cfg) w = (Ok entries, w1) ->
  clean_local_backups cfg env w =
  for_each (map fst (select_local (local_keep cfg) entries))
    (fun old =>
       shutil_rmtree env old ;;
       log INFO ("🗑️ Supprimé local : " ++ path_str old)%string) w.
Proof.
  intros H. unfold clean_local_backups.
  assert (w1 = w) by (eapply local_entries_reads; eassumption). subst w1.
  now rewrite (bind_ok _ _ _ _ _ H).
Qed.

(** The world in which the remote pass starts its loop, and the page it
    loops over, when the listing request succeeds. *)
Lemma delete_old_backups_loop cfg env w :
  list_error env = None ->
  let w1 := mkWorld (fs w) (drive w)
              (trace w ++ [Log DEBUG "🔍 Récupération des dossiers Drive pour nettoyage";
                           DriveList 1000]) in
  delete_old_backups_by_count cfg env w =
  for_each (select_remote (drive_keep cfg)
              (firstn (Nat.min (Z.to_nat 1000) (list_cap env)) (drive w)))
    (fun g =>
       drive_files_delete env (f_id g) ;;
       log INFO ("🗑️ Supprimé Drive : " ++ f_name g ++ " (créé "
                 ++ f_createdTime g ++ ")")%string) w1.
Proof.
  intros Hl w1. unfold delete_old_backups_by_count.
  unfold bind at 1. unfold log at 1, emit at 1.
  unfold bind at 1. unfold drive_files_list, bind, emit, fail_if, get_drive.
  rewrite Hl. simpl. rewrite <- app_assoc. reflexivity.
Qed.

Lemma delete_old_backups_list_error cfg env w e :
  list_error env = Some e ->
  delete_old_backups_by_count cfg env w =
  (Raise e,
   mkWorld (fs w) (drive w)
     (trace w ++ [Log DEBUG "🔍 Récupération des dossiers Drive pour nettoyage";
                  DriveList 1000])).
Proof.
  intros Hl. unfold delete_old_backups_by_count.
  unfold bind at 1. unfold log at 1, emit at 1.
  unfold bind at 1. unfold drive_files_list, bind, emit, fail_if, get_drive.
  rewrite Hl. simpl. rewrite <- app_assoc. reflexivity.
Qed.

(** C4, counterexample: [shutil.rmtree] fails on the first of two
    selected local folders and the second is never tried; the Drive
    deletion of the first of three selected folders answers 404, the
    error leaves [delete_old_backups_by_count] and the next folder is
    never tried. *)
Lemma pruning_best_effort_counterexample :
  let env := demo_env None
               (fails_on_path ["srv"; "backup"; "old2"] permission_denied)
               (fails_on_id "id1" not_found) in
  let rl := clean_local_backups demo_cfg env demo_world in
  let rr := delete_old_backups_by_count demo_cfg env demo_world in
  match fst (local_entries (local_backup_root demo_cfg) demo_world) with
  | Ok entries => map fst (select_local (local_keep demo_cfg) entries)
  | Raise _ => []
  end = [["srv"; "backup"; "old2"]; ["srv"; "backup"; "old1"]] /\
  rmtree_attempts (trace (snd rl)) = [["srv"; "backup"; "old2"]] /\
  map f_id (select_remote (drive_keep demo_cfg) demo_drive)
  = ["id1"; "id2"; "id3"] /\
  fst rr = Raise not_found /\
  delete_attempts (trace (snd rr)) = ["id1"].
Proof. cbv zeta. repeat split; vm_compute; reflexivity. Qed.

Lemma rmtree_body_no_error env (old : path) wa wb :
  (shutil_rmtree env old ;;
   log INFO ("🗑️ Supprimé local : " ++ path_str old)%string) wa = (Ok tt, wb) ->
  rmtree_error env old = None.
Proof.
  intros H.
  unfold shutil_rmtree, log, emit, fail_if, bind, get_fs, set_fs in H.
  destruct (rmtree_error env old); [discriminate H | reflexivity].
Qed.

(** C4, amended: both retention passes stop at the first deletion that
    fails.  The selected entries are tried in order; when a deletion
    raises (for Drive, any error of the request, 404 included), the
    entries after it are not tried and the exception leaves the pass; a
    pass returns only when every selected entry was tried and no deletion
    failed. *)
Theorem pruning_stops_at_first_failure cfg env w entries w1 :
  local_entries (local_backup_root cfg) w = (Ok entries, w1) ->
  list_error env = None ->
  let to_remove := map fst (select_local (local_keep cfg) entries) in
  let to_delete :=
    select_remote (drive_keep cfg)
      (firstn (Nat.min (Z.to_nat 1000) (list_cap env)) (drive w)) in
  let rl := clean_local_backups cfg env w in
  let rr := delete_old_backups_by_count cfg env w in
  match fst rl with
  | Ok _ =>
      rmtree_attempts (events_since w (snd rl)) = to_remove /\
      (forall p, In p to_remove -> rmtree_error env p = None)
  | Raise e =>
      exists done old rest wa wb,
        to_remove = done ++ old :: rest /\
        rmtree_attempts (events_since w (snd rl)) = done ++ [old] /\
        shutil_rmtree env old wa = (Raise e, wb)
  end /\
  match fst rr with
  | Ok _ =>
      delete_attempts (events_since w (snd rr)) = map f_id to_delete /\
      (forall g, In g to_delete -> delete_error env (f_id g) = None)
  | Raise e =>
      exists done g rest,
        to_delete = done ++ g :: rest /\
        delete_attempts (events_since w (snd rr)) = map f_id (done ++ [g]) /\
        delete_error env (f_id g) = Some e
  end.
Proof.
  intros Hentries Hlist to_remove to_delete rl rr. split.
  - pose proof (clean_local_backups_loop cfg env w entries w1 Hentries) as Hl.
    fold to_remove in Hl. change (clean_local_backups cfg env w) with rl in Hl.
    clearbody rl. subst rl. clear rr.
    set (loop := for_each _ _ w).
    pose proof (for_each_attempts
                  (fun ev => match ev with Rmtree p => [p] | _ => [] end)
                  (fun p : path => p)
                  (fun old =>
                     shutil_rmtree env old ;;
                     log INFO ("🗑️ Supprimé local : " ++ path_str old)%string)
                  (rmtree_body_events env) to_remove w) as Hloop.
    change (for_each _ _ _) with loop in Hloop.
    destruct Hloop as (evs & Htr & Hcase).
    rewrite (events_since_app _ _ _ Htr).
    fold (rmtree_attempts evs) in Hcase.
    destruct (fst loop) as [[] | e].
    + destruct Hcase as [Hm Hall]. rewrite map_id in Hm.
      split; [exact Hm |].
      intros p Hp. rewrite Forall_forall in Hall.
      destruct (Hall p Hp) as (wa & wb & Hok).
      exact (rmtree_body_no_error env p wa wb Hok).
    + destruct Hcase as (done & old & rest & wa & Hxs & Hm & Hraise).
      rewrite map_id in Hm.
      exists done, old, rest, wa. eexists. split; [exact Hxs |].
      split; [exact Hm |].
      eapply rmtree_body_raise. exact Hraise.
  - pose proof (delete_old_backups_loop cfg env w Hlist) as Hl.
    cbv zeta in Hl. fold to_delete in Hl.
    change (delete_old_backups_by_count cfg env w) with rr in Hl.
    clearbody rr. subst rr. clear rl.
    set (w2 := mkWorld (fs w) (drive w) _).
    set (loop := for_each _ _ w2).
    pose proof (for_each_attempts
                  (fun ev => match ev with DriveDelete i => [i] | _ => [] end)
                  f_id
                  (fun g =>
                     drive_files_delete env (f_id g) ;;
                     log INFO ("🗑️ Supprimé Drive : " ++ f_name g ++ " (créé "
                               ++ f_createdTime g ++ ")")%string)
                  (fun g w0 =>
                     match delete_body_events env g w0 with
                     | ex_intro _ evs (conj Ht (conj Hd _)) =>
                         ex_intro _ evs (conj Ht Hd)
                     end)
                  to_delete w2) as Hloop.
    change (for_each _ _ _) with loop in Hloop.
    destruct Hloop as (evs & Htr & Hcase).
    fold (delete_attempts evs) in Hcase.
    assert (Hsince : delete_attempts (events_since w (snd loop))
                     = delete_attempts evs).
    { erewrite events_since_app.
      2: { rewrite Htr. unfold w2. simpl. rewrite <- app_assoc. reflexivity. }
      reflexivity. }
    rewrite Hsince.
    destruct (fst loop) as [[] | e].
    + destruct Hcase as [Hm Hall]. split; [exact Hm |].
      intros g Hg. rewrite Forall_forall in Hall.
      destruct (Hall g Hg) as (wa & wb & Hok).
      assert (Ho := delete_body_outcome env g wa). rewrite Hok in Ho.
      simpl in Ho. destruct (delete_error env (f_id g)); [discriminate | easy].
    + destruct Hcase as (done & g & rest & wa & Hxs & Hm & Hraise).
      exists done, g, rest. split; [exact Hxs |]. split; [exact Hm |].
      assert (Ho := delete_body_outcome env g wa). rewrite Hraise in Ho.
      simpl in Ho. destruct (delete_error env (f_id g)); congruence.
Qed.

Lemma pruning_stops_at_first_failure_witness :
  let env := demo_env None
               (fails_on_path ["srv"; "backup"; "old2"] permission_denied)
               (fails_on_id "id2" not_found) in
  let rl := clean_local_backups demo_cfg env demo_world in
  let rr := delete_old_backups_by_count demo_cfg env demo_world in
  (exists done old rest wa wb,
      [["srv"; "backup"; "old2"]; ["srv"; "backup"; "old1"]]
      = done ++ old :: rest /\
      rmtree_attempts (events_since demo_world (snd rl)) = done ++ [old] /\
      shutil_rmtree env old wa = (Raise permission_denied, wb)) /\
  (exists done g rest,
      select_remote 1 demo_drive = done ++ g :: rest /\
      delete_attempts (events_since demo_world (snd rr))
      = map f_id (done ++ [g]) /\
      delete_error env (f_id g) = Some not_found).
Proof.
  cbv zeta.
  exact (pruning_stops_at_first_failure demo_cfg
           (demo_env None
              (fails_on_path ["srv"; "backup"; "old2"] permission_denied)
              (fails_on_id "id2" not_found))
           demo_world
           [(["srv"; "backup"; "old1"], 10); (["srv"; "backup"; "old2"], 20);
            (["srv"; "backup"; "old3"], 30)]
           demo_world eq_refl eq_refl).
Defined.

(** ** The remote listing *)

Lemma In_firstn {A : Type} (n : nat) (l : list A) (x : A) :
  In x (firstn n l) -> In x l.
Proof.
  revert l. induction n as [| n IH]; intros [| y l]; simpl; try tauto.
  intros [-> | H]; [now left | right; now apply IH].
Qed.

Lemma select_remote_incl (keep : Z) (files : list DriveFile) (g : DriveFile) :
  In g (select_remote keep files) -> In g files.
Proof.
  unfold select_remote, Py.slice_to. intros H. apply In_firstn in H.
  eapply Permutation_in; [| exact H].
  apply (sort_perm String.leb f_createdTime).
Qed.

Lemma select_remote_length (keep : Z) (files : list DriveFile) :
  (List.length (select_remote keep files) <= List.length files)%nat.
Proof.
  unfold select_remote, Py.slice_to. rewrite length_firstn, sort_length. lia.
Qed.

Lemma delete_attempts_In (evs : list Event) (i : string) :
  In (DriveDelete i) evs <-> In i (delete_attempts evs).
Proof.
  unfold delete_attempts. rewrite in_flat_map. split.
  - intros H. exists (DriveDelete i). split; [exact H | now left].
  - intros (ev & Hin & Hi). destruct ev; simpl in Hi; try tauto.
    destruct Hi as [-> | []]. exact Hin.
Qed.

Lemma delete_loop_no_list_request env (xs : list DriveFile) w :
  extends (fun ev => list_requests [ev] = []) w
    (snd (for_each xs
            (fun g =>
               drive_files_delete env (f_id g) ;;
               log INFO ("🗑️ Supprimé Drive : " ++ f_name g ++ " (créé "
                         ++ f_createdTime g ++ ")")%string) w)).
Proof.
  apply (@steps_for_each (extends (fun ev => list_requests [ev] = [])) _).
  intros g _. apply steps_bind; [| intros _].
  - now apply extends_drive_files_delete.
  - now apply extends_emit.
Qed.

Lemma list_requests_nil (evs : list Event) :
  Forall (fun e => list_requests [e] = []) evs -> list_requests evs = [].
Proof.
  induction 1 as [| x l Hx _ IH]; [reflexivity |].
  unfold list_requests in *. simpl in *. rewrite app_nil_r in Hx.
  now rewrite Hx, IH.
Qed.

(** C10: [delete_old_backups_by_count] sends one listing request, with
    [pageSize = 1000] and no page token.  Every folder it tries to delete
    is among the first 1000 of the server's listing, at most 1000 are
    tried, and a folder whose id is not on that first page is never the
    target of a deletion in the pass. *)
Theorem remote_pruning_reads_one_page cfg env w :
  let w' := snd (delete_old_backups_by_count cfg env w) in
  let page := firstn 1000 (drive w) in
  list_requests (events_since w w') = [1000] /\
  (List.length (delete_attempts (events_since w w')) <= 1000)%nat /\
  (forall i, In i (delete_attempts (events_since w w')) ->
             exists g, In g page /\ f_id g = i) /\
  (forall g, ~ In (f_id g) (map f_id page) ->
             ~ In (DriveDelete (f_id g)) (events_since w w')).
Proof.
  intros w' page.
  assert (Hcore :
    list_requests (events_since w w') = [1000] /\
    (List.length (delete_attempts (events_since w w')) <= 1000)%nat /\
    (forall i, In i (delete_attempts (events_since w w')) ->
               exists g, In g page /\ f_id g = i)).
  { subst w'. destruct (list_error env) as [e |] eqn:Hlist.
    - rewrite (delete_old_backups_list_error cfg env w e Hlist). simpl.
      erewrite events_since_app by (simpl; reflexivity).
      simpl. repeat split; [lia | intros i []].
    - pose proof (delete_old_backups_loop cfg env w Hlist) as Hl.
      cbv zeta in Hl. rewrite Hl. clear Hl.
      set (files := firstn (Nat.min (Z.to_nat 1000) (list_cap env)) (drive w)).
      set (to_delete := select_remote (drive_keep cfg) files).
      set (w2 := mkWorld (fs w) (drive w) _).
      set (loop := for_each _ _ w2).
      pose proof (for_each_attempts
                    (fun ev => match ev with DriveDelete i => [i] | _ => [] end)
                    f_id
                    (fun g =>
                       drive_files_delete env (f_id g) ;;
                       log INFO ("🗑️ Supprimé Drive : " ++ f_name g ++ " (créé "
                                 ++ f_createdTime g ++ ")")%string)
                    (fun g w0 =>
                       match delete_body_events env g w0 with
                       | ex_intro _ evs (conj Ht (conj Hd _)) =>
                           ex_intro _ evs (conj Ht Hd)
                       end)
                    to_delete w2) as Hloop.
      change (for_each _ _ _) with loop in Hloop.
      destruct Hloop as (evs & Htr & Hcase).
      fold (delete_attempts evs) in Hcase.
      pose proof (delete_loop_no_list_request env to_delete w2) as Hnl.
      change (for_each _ _ _) with loop in Hnl.
      destruct Hnl as (evs' & Htr' & Hnl).
      assert (evs' = evs).
      { rewrite Htr in Htr'. now apply app_inv_head in Htr'. }
      subst evs'.
      assert (Hev : events_since w (snd loop)
                    = Log DEBUG "🔍 Récupération des dossiers Drive pour nettoyage"
                      :: DriveList 1000 :: evs).
      { apply events_since_app. rewrite Htr. unfold w2. simpl.
        rewrite <- app_assoc. reflexivity. }
      rewrite Hev.
      assert (Hfiles : forall g, In g files -> In g page).
      { intros g Hg. unfold files in Hg.
        rewrite Nat.min_comm, <- firstn_firstn in Hg.
        apply In_firstn in Hg. exact Hg. }
      assert (Hlen : (List.length to_delete <= 1000)%nat).
      { etransitivity; [apply select_remote_length |].
        unfold files. rewrite length_firstn. lia. }
      assert (Hprefix : exists sel, delete_attempts evs = map f_id sel /\
                          (List.length sel <= List.length to_delete)%nat /\
                          (forall g, In g sel -> In g to_delete)).
      { destruct (fst loop) as [[] | e].
        - destruct Hcase as [Hm _]. exists to_delete. auto.
        - destruct Hcase as (done & g & rest & wa & Hxs & Hm & _).
          exists (done ++ [g]). split; [exact Hm |]. split.
          + rewrite Hxs, !length_app. simpl. lia.
          + intros g' Hg'. rewrite Hxs. apply in_app_or in Hg'.
            apply in_or_app. destruct Hg' as [Hd | [-> | []]];
              [now left | right; now left]. }
      destruct Hprefix as (sel & Hsel & Hsellen & Hselin).
      change (delete_attempts (Log DEBUG _ :: DriveList 1000 :: evs))
        with (delete_attempts evs).
      change (list_requests (Log DEBUG _ :: DriveList 1000 :: evs))
        with (1000 :: list_requests evs).
      rewrite (list_requests_nil _ Hnl), Hsel, length_map.
      split; [reflexivity |]. split; [lia |].
      intros i Hi. apply in_map_iff in Hi. destruct Hi as (g & Hgi & Hg).
      exists g. split; [| exact Hgi].
      apply Hfiles. eapply select_remote_incl. apply Hselin, Hg. }
  destruct Hcore as (H1 & H2 & H3).
  repeat split; try assumption.
  intros g Hnot Hin. apply delete_attempts_In in Hin.
  destruct (H3 _ Hin) as (g' & Hg' & Hid).
  apply Hnot. rewrite <- Hid. now apply in_map.
Qed.

(** ** The archiver *)

Lemma store_none_no_new_dirs (p : path) (n : Node) :
  dirs_preserved (store p None n) n.
Proof.
  revert n. induction p as [| c p IH]; intros n.
  - destruct n; apply dirs_preserved_refl.
  - destruct n as [t d | t ch]; [apply dirs_preserved_refl |].
    destruct p as [| c' p'].
    + intros [| d q] Hq; [reflexivity |].
      simpl store in Hq. rewrite isdir_cons in Hq |- *.
      destruct (String.eqb_spec d c) as [-> | Hne].
      * now rewrite get_del_same in Hq.
      * now rewrite get_del_other in Hq.
    + rewrite store_cons by discriminate.
      destruct (get_child c ch) as [x |] eqn:Hget;
        [| apply dirs_preserved_refl].
      intros [| d q] Hq; [reflexivity |].
      rewrite isdir_cons in Hq |- *.
      destruct (String.eqb_spec d c) as [-> | Hne].
      * rewrite get_put_same in Hq. rewrite Hget. now apply IH.
      * now rewrite get_put_other in Hq.
Qed.

Lemma os_path_isdir_eq p w : os_path_isdir p w = (Ok (isdir p (fs w)), w).
Proof. reflexivity. Qed.

Lemma os_path_exists_eq p w : os_path_exists p w = (Ok (exists_ p (fs w)), w).
Proof. reflexivity. Qed.

Lemma os_remove_file p w t d :
  lookup p (fs w) = Some (File t d) ->
  os_remove p w = (Ok tt, mkWorld (store p None (fs w)) (drive w) (trace w)).
Proof. intros H. unfold os_remove, bind, get_fs. simpl. now rewrite H. Qed.

(** C8, counterexample: [os.remove(zip_path)] runs before the source is
    looked at.  With a directory at the destination path the call to the
    missing source [/srv/gone] raises [IsADirectoryError], not
    [FileNotFoundError], and the destination is still there after it. *)
Lemma custom_zip_folder_destination_counterexample :
  let zip_path := ["srv"; "backup"; "old1"] in
  let r := custom_zip_folder demo_cfg (demo_env None no_error no_error)
             ["srv"; "gone"] zip_path demo_world in
  isdir ["srv"; "gone"] (fs demo_world) = false /\
  (exists msg, fst r = Raise (mkExn IsADirectoryError msg)) /\
  exists_ zip_path (fs (snd r)) = true.
Proof.
  cbv zeta. split; [vm_compute; reflexivity |].
  split; [eexists; vm_compute; reflexivity | vm_compute; reflexivity].
Qed.

(** C8, amended: when the source is not an existing directory and
    nothing is at the destination path, [custom_zip_folder] raises
    [FileNotFoundError] and nothing is at the destination path after the
    call: no archive is created. *)
Theorem custom_zip_folder_source_missing cfg env src zip_path w :
  isdir (abspath src) (fs w) = false ->
  lookup zip_path (fs w) = None ->
  let r := custom_zip_folder cfg env src zip_path w in
  (exists msg, fst r = Raise (mkExn FileNotFoundError msg)) /\
  lookup zip_path (fs (snd r)) = None.
Proof.
  intros Hsrc Hl r. subst r. unfold custom_zip_folder. cbv zeta.
  rewrite (bind_ok _ _ w tt
             (mkWorld (fs w) (drive w)
                (trace w ++ [Log INFO ("📦 Zipping '" ++ path_str src ++ "' → '"
                                       ++ path_str zip_path ++ "'")%string])))
    by reflexivity.
  set (w0 := mkWorld (fs w) (drive w) _).
  rewrite (bind_ok _ _ w0 (exists_ zip_path (fs w)) w0) by reflexivity.
  assert (Hex : exists_ zip_path (fs w) = false)
    by (unfold exists_; now rewrite Hl).
  rewrite Hex.
  rewrite (bind_ok _ _ w0 tt w0) by reflexivity.
  rewrite (bind_ok _ _ w0 false w0)
    by (rewrite os_path_isdir_eq; unfold w0; simpl; now rewrite Hsrc).
  simpl. split; [eexists; reflexivity | exact Hl].
Qed.

Lemma custom_zip_folder_source_missing_witness :
  let r := custom_zip_folder demo_cfg (demo_env None no_error no_error)
             ["srv"; "gone"] ["srv"; "backup"; "new.zip"] demo_world in
  (exists msg, fst r = Raise (mkExn FileNotFoundError msg)) /\
  lookup ["srv"; "backup"; "new.zip"] (fs (snd r)) = None.
Proof.
  apply (custom_zip_folder_source_missing demo_cfg
           (demo_env None no_error no_error)
           ["srv"; "gone"] ["srv"; "backup"; "new.zip"] demo_world).
  - reflexivity.
  - reflexivity.
Defined.

Lemma relpath_app (abs_src rel : path) :
  rel <> [] -> relpath (abs_src ++ rel) abs_src = rel.
Proof.
  intros Hrel. induction abs_src as [| c p IH]; simpl.
  - now destruct rel.
  - now rewrite String.eqb_refl.
Qed.

Lemma join_app (p q : path) (d : string) : join (p ++ q) d = p ++ join q d.
Proof. unfold join. now rewrite app_assoc. Qed.

Lemma removelast_join (p : path) (d : string) : removelast (join p d) = p.
Proof. apply removelast_last. Qed.

Lemma last_join (p : path) (d : string) : last (join p d) EmptyString = d.
Proof. apply last_last. Qed.

Lemma filter_flat_map {A B : Type} (f : B -> bool) (g : A -> list B)
    (l : list A) :
  filter f (flat_map g l) = flat_map (fun x => filter f (g x)) l.
Proof.
  induction l as [| x l IH]; simpl; [reflexivity |].
  now rewrite filter_app, IH.
Qed.

Lemma flat_map_flat_map {A B C : Type} (g : B -> list C) (h : A -> list B)
    (l : list A) :
  flat_map g (flat_map h l) = flat_map (fun x => flat_map g (h x)) l.
Proof.
  induction l as [| x l IH]; simpl; [reflexivity |].
  now rewrite flat_map_app, IH.
Qed.

Lemma flat_map_ext_Forall {A B : Type} (g h : A -> list B) (l : list A) :
  Forall (fun x => g x = h x) l -> flat_map g l = flat_map h l.
Proof.
  induction 1 as [| x l Hx _ IH]; simpl; [reflexivity |].
  now rewrite Hx, IH.
Qed.

(** Every file below [rel] has a path that goes through [rel]. *)
Lemma all_files_below (rel : path) (n : Node) (m : path * FileData) :
  In m (all_files rel n) -> exists q d, fst m = rel ++ join q d.
Proof.
  revert rel. induction n as [t d | t ch IH] using Node_induction; intros rel;
    simpl; [tauto |].
  rewrite in_app_iff, in_map_iff, in_flat_map.
  intros [(f & <- & _) | (e & He & Hin)].
  - exists [], (fst f). reflexivity.
  - rewrite Forall_forall in IH.
    destruct (IH e He _ Hin) as (q & d & Hq).
    exists (fst e :: q), d. rewrite Hq. unfold join.
    rewrite <- !app_assoc. reflexivity.
Qed.

Lemma kept_folder_excluded cfg (d : string) :
  kept_folder cfg d = negb (existsb (String.eqb d) (excluded_folders cfg)).
Proof. reflexivity. Qed.

Lemma through_excluded_app cfg (rel q : path) (d : string) :
  through_excluded_folder cfg (rel ++ join q d)
  = existsb (fun x => existsb (String.eqb x) (excluded_folders cfg)) rel
    || existsb (fun x => existsb (String.eqb x) (excluded_folders cfg)) q.
Proof.
  unfold through_excluded_folder, join.
  rewrite app_assoc, removelast_last. apply existsb_app.
Qed.

(** Nothing below a directory that has an excluded folder on its path is
    archived. *)
Lemma nothing_archived_below_excluded cfg env (rel : path) (n : Node) :
  existsb (fun x => existsb (String.eqb x) (excluded_folders cfg)) rel = true ->
  filter (archived cfg env) (all_files rel n) = [].
Proof.
  intros Hrel.
  assert (H : forall m, In m (all_files rel n) -> archived cfg env m = false).
  { intros m Hm. destruct (all_files_below rel n m Hm) as (q & d & Hq).
    unfold archived. rewrite Hq, through_excluded_app, Hrel. reflexivity. }
  induction (all_files rel n) as [| m l IH]; simpl; [reflexivity |].
  rewrite (H m) by now left. apply IH. intros m' Hm'. apply H. now right.
Qed.

Lemma relpath_below (abs_src rel : path) : relpath (abs_src ++ rel) abs_src = rel.
Proof.
  induction abs_src as [| c p IH]; simpl.
  - now destruct rel.
  - now rewrite String.eqb_refl.
Qed.

Lemma unlistable_below env (abs_src rel : path) :
  unlistable env abs_src (abs_src ++ rel) = scandir_fails env rel.
Proof. unfold unlistable. now rewrite relpath_below. Qed.

Lemma prefixes_snoc (p : path) (c : string) :
  prefixes (p ++ [c]) = prefixes p ++ [p ++ [c]].
Proof.
  induction p as [| d p IH]; [reflexivity |].
  simpl. rewrite IH, map_app. reflexivity.
Qed.

Lemma prefixes_self (p : path) : In p (prefixes p).
Proof.
  induction p as [| d p IH]; [now left |].
  simpl. right. now apply in_map.
Qed.

Lemma prefixes_app (p q x : path) : In x (prefixes p) -> In x (prefixes (p ++ q)).
Proof.
  revert x. induction p as [| d p IH]; intros x Hx.
  - destruct Hx as [<- | []]. destruct q; now left.
  - simpl in Hx. destruct Hx as [<- | Hx]; [now left |].
    apply in_map_iff in Hx. destruct Hx as (y & <- & Hy).
    simpl. right. apply in_map. now apply IH.
Qed.

Lemma existsb_false_forall {A : Type} (f : A -> bool) (l : list A) :
  (forall x, In x l -> f x = false) -> existsb f l = false.
Proof.
  intros H. induction l as [| x l IH]; [reflexivity |].
  simpl. rewrite (H x) by now left. apply IH. intros y Hy. apply H. now right.
Qed.

(** Nothing below a directory that cannot be listed, or that lies under
    such a directory, is archived. *)
Lemma nothing_archived_below_unlistable cfg env (rel : path) (n : Node) :
  existsb (scandir_fails env) (prefixes rel) = true ->
  filter (archived cfg env) (all_files rel n) = [].
Proof.
  intros Hrel.
  assert (H : forall m, In m (all_files rel n) -> archived cfg env m = false).
  { intros m Hm. destruct (all_files_below rel n m Hm) as (q & d & Hq).
    unfold archived, through_unlistable. rewrite Hq. unfold join.
    rewrite app_assoc, removelast_last.
    apply existsb_exists in Hrel. destruct Hrel as (x & Hx & Hfails).
    replace (existsb (scandir_fails env) (prefixes (rel ++ q))) with true.
    - now rewrite andb_false_r.
    - symmetry. apply existsb_exists. exists x.
      split; [now apply prefixes_app | exact Hfails]. }
  induction (all_files rel n) as [| m l IH]; simpl; [reflexivity |].
  rewrite (H m) by now left. apply IH. intros m' Hm'. apply H. now right.
Qed.

(** The walk and the two loops against the tree, from any directory
    reached through folders that are not excluded and can be listed. *)
Lemma walk_members cfg env (abs_src rel : path) (n : Node) :
  existsb (fun x => existsb (String.eqb x) (excluded_folders cfg)) rel = false ->
  (forall q, In q (prefixes rel) -> q <> rel -> scandir_fails env q = false) ->
  flat_map (step_members cfg abs_src)
    (os_walk (kept_folder cfg) (unlistable env abs_src) (abs_src ++ rel) n)
  = filter (archived cfg env) (all_files rel n).
Proof.
  revert rel. induction n as [t d | t ch IH] using Node_induction;
    intros rel Hrel Habove; [reflexivity |].
  change (os_walk (kept_folder cfg) (unlistable env abs_src) (abs_src ++ rel)
            (Dir t ch))
    with (if unlistable env abs_src (abs_src ++ rel) then []
          else (abs_src ++ rel, filter (kept_folder cfg) (dir_names ch),
                file_entries ch)
               :: flat_map
                    (fun e => if kept_folder cfg (fst e)
                              then os_walk (kept_folder cfg)
                                     (unlistable env abs_src)
                                     (join (abs_src ++ rel) (fst e)) (snd e)
                              else []) ch).
  rewrite unlistable_below.
  destruct (scandir_fails env rel) eqn:Hfails.
  - symmetry. apply nothing_archived_below_unlistable.
    apply existsb_exists. exists rel. split; [apply prefixes_self | exact Hfails].
  - assert (Hall : existsb (scandir_fails env) (prefixes rel) = false).
    { apply existsb_false_forall. intros q Hq.
      destruct (list_eq_dec string_dec q rel) as [-> | Hne];
        [exact Hfails | now apply Habove]. }
    simpl all_files. simpl flat_map.
    rewrite filter_app. f_equal.
    + (* the files of the directory itself *)
      unfold step_members.
      induction (file_entries ch) as [| f fs IHf]; simpl; [reflexivity |].
      rewrite join_app, relpath_app by (unfold join; now destruct rel).
      unfold archived at 1. simpl fst.
      unfold through_excluded_folder, has_excluded_extension,
        through_unlistable.
      rewrite removelast_join, last_join, Hrel, Hall. simpl negb at 1 2.
      unfold excluded_file at 1. simpl andb.
      destruct (existsb (Py.endswith (fst f)) (excluded_extensions cfg)); simpl;
        now rewrite IHf.
    + (* the subdirectories *)
      rewrite flat_map_flat_map, filter_flat_map.
      apply flat_map_ext_Forall.
      eapply Forall_impl; [| exact IH]. intros e He. simpl in He.
      destruct (kept_folder cfg (fst e)) eqn:Hk.
      * rewrite join_app. apply He.
        -- unfold join. rewrite existsb_app, Hrel. simpl.
           rewrite kept_folder_excluded in Hk.
           destruct (existsb (String.eqb (fst e)) (excluded_folders cfg));
             [discriminate | reflexivity].
        -- intros q Hq Hne. unfold join in Hq. rewrite prefixes_snoc in Hq.
           apply in_app_iff in Hq. destruct Hq as [Hq | [<- | []]].
           ++ destruct (list_eq_dec string_dec q rel) as [-> | Hne'];
                [exact Hfails | now apply Habove].
           ++ now contradiction Hne.
      * simpl. symmetry. apply nothing_archived_below_excluded.
        unfold join. rewrite existsb_app. simpl.
        rewrite kept_folder_excluded in Hk.
        destruct (existsb (String.eqb (fst e)) (excluded_folders cfg));
          [apply orb_true_r | discriminate].
Qed.

(** The walk only enters directories reached through folders that are
    not excluded, and no excluded name is left in [dirs]. *)
Lemma walk_visits cfg env (abs_src rel : path) (n : Node) :
  forallb (kept_folder cfg) rel = true ->
  Forall (fun step : WalkStep =>
            exists rel', fst (fst step) = abs_src ++ rel' /\
                         forallb (kept_folder cfg) rel' = true /\
                         forallb (kept_folder cfg) (snd (fst step)) = true)
    (os_walk (kept_folder cfg) (unlistable env abs_src) (abs_src ++ rel) n).
Proof.
  revert rel. induction n as [t d | t ch IH] using Node_induction;
    intros rel Hrel; [constructor |].
  simpl os_walk.
  destruct (unlistable env abs_src (abs_src ++ rel)); [constructor |].
  constructor.
  - exists rel. simpl. repeat split; [exact Hrel |].
    apply forallb_forall. intros d Hd. apply filter_In in Hd. tauto.
  - apply Forall_flat_map. eapply Forall_impl; [| exact IH].
    intros e He. simpl in He.
    destruct (kept_folder cfg (fst e)) eqn:Hk; [| constructor].
    rewrite join_app. apply He. unfold join.
    rewrite forallb_app, Hrel. simpl. now rewrite Hk.
Qed.

Lemma zip_members_steps cfg env abs_src tree :
  zip_members cfg env abs_src tree
  = flat_map (step_members cfg abs_src)
      (os_walk (kept_folder cfg) (unlistable env abs_src) abs_src tree).
Proof.
  unfold zip_members. apply flat_map_ext. intros [[root dirs] files].
  reflexivity.
Qed.

(** What the loops of [custom_zip_folder] write is exactly the files of
    the tree that are to be archived, under their relative paths. *)
Lemma zip_members_archived cfg env abs_src tree :
  zip_members cfg env abs_src tree
  = filter (archived cfg env) (all_files [] tree).
Proof.
  rewrite zip_members_steps.
  rewrite <- (app_nil_r abs_src) at 3. apply walk_members; [reflexivity |].
  intros q [<- | []] Hne. now contradiction Hne.
Qed.

Lemma lookup_cons (c : string) (p : path) (t : Z) (ch : Children) :
  lookup (c :: p) (Dir t ch) =
  match get_child c ch with
  | Some m => lookup p m
  | None => None
  end.
Proof. reflexivity. Qed.

(** What is written at [p] is found there when the folder of [p] exists. *)
Lemma lookup_store_some (p : path) (m n : Node) :
  p <> [] -> isdir (removelast p) n = true ->
  lookup p (store p (Some m) n) = Some m.
Proof.
  revert n. induction p as [| c p IH]; intros n Hp Hd; [congruence |].
  destruct n as [t d | t ch]; [now rewrite isdir_file in Hd |].
  destruct p as [| c' p'].
  - simpl. now rewrite get_put_same.
  - change (removelast (c :: c' :: p')) with (c :: removelast (c' :: p')) in Hd.
    rewrite isdir_cons in Hd. rewrite store_cons by discriminate.
    destruct (get_child c ch) as [x |] eqn:Hget; [| discriminate].
    rewrite lookup_cons, get_put_same. apply IH; [discriminate | exact Hd].
Qed.

Lemma lookup_some_parent (p : path) (n z : Node) :
  p <> [] -> lookup p n = Some z -> isdir (removelast p) n = true.
Proof.
  revert n. induction p as [| c p IH]; intros n Hp Hl; [congruence |].
  destruct n as [t d | t ch]; [discriminate |].
  destruct p as [| c' p']; [reflexivity |].
  change (removelast (c :: c' :: p')) with (c :: removelast (c' :: p')).
  rewrite isdir_cons. rewrite lookup_cons in Hl.
  destruct (get_child c ch) as [x |]; [| discriminate].
  apply IH; [discriminate | exact Hl].
Qed.

(** A write at [p] is not seen at a path that neither contains [p] nor
    lies below it. *)
Lemma lookup_store_other (p q : path) (v : option Node) (n : Node) :
  (forall r, p <> q ++ r) -> (forall r, q <> p ++ r) ->
  lookup q (store p v n) = lookup q n.
Proof.
  revert q n. induction p as [| c p IH]; intros q n Hpq Hqp.
  - exfalso. now apply (Hqp q).
  - destruct q as [| d q]; [exfalso; now apply (Hpq (c :: p)) |].
    destruct n as [t x | t ch]; [reflexivity |].
    destruct (String.eqb_spec d c) as [-> | Hne].
    + destruct p as [| c' p'].
      { exfalso. now apply (Hqp q). }
      rewrite store_cons by discriminate.
      destruct (get_child c ch) as [x |] eqn:Hget; [| reflexivity].
      rewrite !lookup_cons, get_put_same, Hget.
      apply IH.
      * intros r Hr. apply (Hpq r). simpl. now rewrite Hr.
      * intros r Hr. apply (Hqp r). simpl. now rewrite Hr.
    + destruct p as [| c' p'].
      * simpl store. rewrite !lookup_cons.
        destruct v; [now rewrite get_put_other | now rewrite get_del_other].
      * rewrite store_cons by discriminate.
        destruct (get_child c ch) as [x |] eqn:Hget; [| reflexivity].
        rewrite !lookup_cons. now rewrite get_put_other.
Qed.

Section Writes.
Variables (cfg : BotConfig) (env : Env) (zip_path abs_src : path).
Hypothesis zip_path_named : zip_path <> [].
Hypothesis reads_succeed : forall p, zip_write_error env p = None.

Lemma write_files_ok root dirs files w t ms :
  lookup zip_path (fs w) = Some (File t (ZipArchive ms)) ->
  exists w',
    for_each files (write_file cfg env zip_path abs_src root) w = (Ok tt, w') /\
    lookup zip_path (fs w')
    = Some (File t (ZipArchive
                      (ms ++ step_members cfg abs_src (root, dirs, files)))).
Proof.
  revert w ms. induction files as [| f files IH]; intros w ms Hz.
  - exists w. simpl. now rewrite app_nil_r.
  - simpl for_each. unfold write_file at 1. cbv zeta.
    simpl step_members.
    destruct (excluded_file cfg (fst f)) eqn:Hex.
    + rewrite (bind_ok _ _ w tt
                 (mkWorld (fs w) (drive w)
                    (trace w ++ [Log DEBUG ("⛔ Exclu: "
                        ++ path_str (join root (fst f)))%string])))
        by reflexivity.
      apply (IH _ ms). exact Hz.
    + set (member := (relpath (join root (fst f)) abs_src, snd f)).
      set (z' := File t (ZipArchive (ms ++ [member]))).
      rewrite (bind_ok _ _ w tt
                 (mkWorld (store zip_path (Some z') (fs w)) (drive w) (trace w))).
      2: { unfold z_write, bind, fail_if, get_fs. rewrite reads_succeed.
           simpl. rewrite Hz. reflexivity. }
      destruct (IH (mkWorld (store zip_path (Some z') (fs w)) (drive w) (trace w))
                  (ms ++ [member])) as (w' & Hok & Hl).
      { simpl. apply lookup_store_some; [exact zip_path_named |].
        eapply lookup_some_parent; eassumption. }
      exists w'. split; [exact Hok |].
      rewrite Hl. simpl. now rewrite <- app_assoc.
Qed.

Lemma write_steps_ok (steps_ : list WalkStep) w t ms :
  lookup zip_path (fs w) = Some (File t (ZipArchive ms)) ->
  exists w',
    for_each steps_
      (fun step : WalkStep =>
         let '(root, _, files) := step in
       for_each files (write_file cfg env zip_path abs_src root)) w
    = (Ok tt, w') /\
    lookup zip_path (fs w')
    = Some (File t (ZipArchive
                      (ms ++ flat_map (step_members cfg abs_src) steps_))).
Proof.
  revert w ms. induction steps_ as [| [[root dirs] files] steps_ IH];
    intros w ms Hz.
  - exists w. simpl. now rewrite app_nil_r.
  - simpl for_each.
    destruct (write_files_ok root dirs files w t ms Hz) as (w1 & Hok1 & Hl1).
    rewrite (bind_ok _ _ _ _ _ Hok1).
    destruct (IH w1 _ Hl1) as (w' & Hok & Hl).
    exists w'. split; [exact Hok |].
    rewrite Hl. simpl flat_map. now rewrite <- app_assoc.
Qed.
End Writes.

Lemma lookup_through (p r : path) (n x : Node) :
  r <> [] -> lookup (p ++ r) n = Some x -> isdir p n = true.
Proof.
  revert n. induction p as [| c p IH]; intros n Hr Hl.
  - destruct r as [| d r]; [congruence |].
    destruct n; [discriminate | reflexivity].
  - destruct n as [t d | t ch]; [discriminate |].
    simpl app in Hl. rewrite lookup_cons in Hl. rewrite isdir_cons.
    destruct (get_child c ch) as [m |]; [| discriminate].
    now apply IH.
Qed.

Lemma zipfile_open_ok env zip_path w :
  isdir (parent zip_path) (fs w) = true ->
  isdir zip_path (fs w) = false ->
  zipfile_open env zip_path w
  = (Ok tt,
     mkWorld (store zip_path (Some (File (clock env) (ZipArchive []))) (fs w))
       (drive w) (trace w)).
Proof.
  intros Hp Hz. unfold zipfile_open, bind, get_fs. simpl.
  now rewrite Hp, Hz.
Qed.

Lemma custom_zip_folder_rest cfg env src zip_path t ch w1 :
  zip_path <> [] ->
  (forall r, zip_path <> abspath src ++ r) ->
  (forall r, abspath src <> zip_path ++ r) ->
  (forall p, zip_write_error env p = None) ->
  lookup (abspath src) (fs w1) = Some (Dir t ch) ->
  isdir (parent zip_path) (fs w1) = true ->
  isdir zip_path (fs w1) = false ->
  exists w2,
    (let abs_src := abspath src in
     isd <- os_path_isdir abs_src ;;
     if negb isd then
       raise (mkExn FileNotFoundError
                ("Dossier à zipper introuvable : " ++ path_str abs_src)%string)
     else
       zipfile_open env zip_path ;;
       n <- get_fs ;;
       let tree := match lookup abs_src n with
                   | Some t => t
                   | None => Dir 0 []
                   end in
       for_each (os_walk (kept_folder cfg) (unlistable env abs_src) abs_src tree)
         (fun step : WalkStep =>
            let '(root, _, files) := step in
            for_each files
              (fun f : string * FileData =>
                 let fname := fst f in
                 if excluded_file cfg fname then
                   log DEBUG ("⛔ Exclu: " ++ path_str (join root fname))%string
                 else
                   let full_path := join root fname in
                   let arcname := relpath full_path abs_src in
                   z_write env zip_path full_path arcname (snd f))) ;;
       os_path_getsize zip_path ;;
       log INFO ("✔️ ZIP créé, "
                 ++ Py.str (Z.of_nat (List.length (zip_members cfg env abs_src tree)))
                 ++ " fichiers")%string) w1 = (Ok tt, w2) /\
    lookup zip_path (fs w2)
    = Some (File (clock env)
              (ZipArchive (filter (archived cfg env) (all_files [] (Dir t ch))))).
Proof.
  intros Hne Hout Hin Hreads Hsrc1 Hparent1 Hzip1. cbv zeta.
  rewrite (bind_ok _ _ w1 true w1)
    by (rewrite os_path_isdir_eq; unfold isdir; now rewrite Hsrc1).
  unfold negb. cbv iota.
  rewrite (bind_ok _ _ _ _ _ (zipfile_open_ok env zip_path w1 Hparent1 Hzip1)).
  set (w2 := mkWorld _ (drive w1) (trace w1)).
  rewrite (bind_ok _ _ w2 (fs w2) w2) by reflexivity.
  assert (Htree : lookup (abspath src) (fs w2) = Some (Dir t ch)).
  { unfold w2. simpl. rewrite lookup_store_other; assumption. }
  rewrite Htree.
  assert (Hz2 : lookup zip_path (fs w2) = Some (File (clock env) (ZipArchive []))).
  { unfold w2. simpl. apply lookup_store_some; assumption. }
  destruct (write_steps_ok cfg env zip_path (abspath src) Hne Hreads
              (os_walk (kept_folder cfg) (unlistable env (abspath src)) (abspath src) (Dir t ch))
              w2 (clock env) [] Hz2) as (w3 & Hok & Hl3).
  unfold write_file in Hok. cbv zeta in Hok.
  rewrite (bind_ok _ _ _ _ _ Hok).
  rewrite (bind_ok _ _ w3 tt w3)
    by (unfold os_path_getsize, bind, get_fs; simpl; now rewrite Hl3).
  eexists. split; [reflexivity |].
  cbn [fs snd]. rewrite Hl3. rewrite app_nil_l.
  now rewrite <- zip_members_steps, zip_members_archived.
Qed.

Lemma custom_zip_folder_run cfg env src zip_path w t ch :
  lookup (abspath src) (fs w) = Some (Dir t ch) ->
  isdir (parent zip_path) (fs w) = true ->
  isdir zip_path (fs w) = false ->
  (forall r, zip_path <> abspath src ++ r) ->
  (forall p, zip_write_error env p = None) ->
  exists w2,
    custom_zip_folder cfg env src zip_path w = (Ok tt, w2) /\
    lookup zip_path (fs w2)
    = Some (File (clock env)
              (ZipArchive (filter (archived cfg env) (all_files [] (Dir t ch))))).
Proof.
  intros Hsrc Hparent Hzip Hout Hreads.
  assert (Hne : zip_path <> []).
  { intros ->. destruct (abspath src) as [| c p] eqn:Ha.
    - now apply (Hout []).
    - destruct (fs w); [discriminate Hsrc | discriminate Hzip]. }
  assert (Hin : forall r, abspath src <> zip_path ++ r).
  { intros [| d r] Hr.
    - apply (Hout []). now rewrite Hr, !app_nil_r.
    - rewrite Hr in Hsrc. apply lookup_through in Hsrc;
        [congruence | discriminate]. }
  unfold custom_zip_folder.
  rewrite (bind_ok _ _ w tt
             (mkWorld (fs w) (drive w)
                (trace w ++ [Log INFO ("📦 Zipping '" ++ path_str src ++ "' → '"
                                       ++ path_str zip_path ++ "'")%string])))
    by reflexivity.
  set (w0 := mkWorld (fs w) (drive w) _).
  rewrite (bind_ok _ _ w0 (exists_ zip_path (fs w)) w0) by reflexivity.
  destruct (lookup zip_path (fs w)) as [[tz dz | tz chz] |] eqn:Hlz.
  - assert (Hex : exists_ zip_path (fs w) = true)
      by (unfold exists_; now rewrite Hlz).
    rewrite Hex.
    set (w1 := mkWorld (store zip_path None (fs w)) (drive w)
                 (trace w0 ++ [Log DEBUG "🗑️ Ancien zip supprimé"])).
    rewrite (bind_ok _ _ w0 tt w1).
    2: { rewrite (bind_ok _ _ w0 tt
                    (mkWorld (store zip_path None (fs w)) (drive w) (trace w0)));
         [reflexivity | now apply (os_remove_file zip_path w0 tz dz)]. }
    apply (custom_zip_folder_rest cfg env src zip_path t ch w1);
      try assumption.
    + simpl. rewrite lookup_store_other; assumption.
    + simpl. apply store_none_dirs_preserved; assumption.
    + simpl. unfold isdir. now rewrite lookup_store_none.
  - unfold isdir in Hzip. rewrite Hlz in Hzip. discriminate.
  - assert (Hex : exists_ zip_path (fs w) = false)
      by (unfold exists_; now rewrite Hlz).
    rewrite Hex.
    rewrite (bind_ok _ _ w0 tt w0) by reflexivity.
    apply (custom_zip_folder_rest cfg env src zip_path t ch w0);
      assumption.
Qed.

(** C7, counterexample: [os.walk] is called without [onerror], so a
    directory it cannot list is skipped without a word.  With [sub]
    unlistable the call returns normally and the archive lacks
    [sub/c.txt], a file of the tree that is under no excluded folder and
    has no excluded extension. *)
Lemma custom_zip_folder_unlistable_counterexample :
  let zip_path := ["srv"; "backup"; "new.zip"] in
  let r := custom_zip_folder demo_cfg (demo_env_unlistable ["sub"])
             ["srv"; "bot"] zip_path demo_world in
  fst r = Ok tt /\
  lookup zip_path (fs (snd r))
  = Some (File 100 (ZipArchive [(["a.txt"], Raw "A")])) /\
  In (["sub"; "c.txt"], Raw "C") (all_files [] demo_source) /\
  through_excluded_folder demo_cfg ["sub"; "c.txt"] = false /\
  has_excluded_extension demo_cfg ["sub"; "c.txt"] = false.
Proof.
  cbv zeta. split; [vm_compute; reflexivity |].
  split; [vm_compute; reflexivity |].
  split; [vm_compute; right; right; right; left; reflexivity |].
  split; vm_compute; reflexivity.
Qed.

(** An archive path inside the source: the walk finds the archive that
    was just opened there, and it becomes a member of itself. *)
Lemma custom_zip_folder_inside_source :
  let zip_path := ["srv"; "bot"; "new.zip"] in
  let r := custom_zip_folder demo_cfg (demo_env None no_error no_error)
             ["srv"; "bot"] zip_path demo_world in
  fst r = Ok tt /\
  lookup zip_path (fs demo_world) = None /\
  exists t ms, lookup zip_path (fs (snd r)) = Some (File t (ZipArchive ms)) /\
               In ["new.zip"] (map fst ms).
Proof.
  cbv zeta. split; [vm_compute; reflexivity |].
  split; [vm_compute; reflexivity |].
  eexists. eexists. split; [vm_compute; reflexivity |].
  simpl. tauto.
Qed.

(** C7, amended: when the source is a directory holding the tree
    [Dir t ch], the archive path lies outside it in an existing folder,
    with nothing at that path yet, and the files can be read,
    [custom_zip_folder] returns and leaves at the archive path an archive
    whose members are exactly the files of the
    tree whose relative path passes through no folder of
    [excluded_folders] and through no directory that cannot be listed,
    and whose name ends with no extension of [excluded_extensions], each
    under its path relative to the source; and the walk enters no
    directory that has an excluded folder on its path. *)
Theorem custom_zip_folder_archives_exactly cfg env src zip_path w t ch :
  lookup (abspath src) (fs w) = Some (Dir t ch) ->
  isdir (parent zip_path) (fs w) = true ->
  lookup zip_path (fs w) = None ->
  (forall r, zip_path <> abspath src ++ r) ->
  (forall p, zip_write_error env p = None) ->
  let r := custom_zip_folder cfg env src zip_path w in
  fst r = Ok tt /\
  (exists members,
      lookup zip_path (fs (snd r))
      = Some (File (clock env) (ZipArchive members)) /\
      members = filter (archived cfg env) (all_files [] (Dir t ch)) /\
      forall m, In m members <->
                In m (all_files [] (Dir t ch)) /\
                through_excluded_folder cfg (fst m) = false /\
                through_unlistable env (fst m) = false /\
                has_excluded_extension cfg (fst m) = false) /\
  Forall (fun step : WalkStep =>
            exists rel, fst (fst step) = abspath src ++ rel /\
                        forallb (kept_folder cfg) rel = true /\
                        forallb (kept_folder cfg) (snd (fst step)) = true)
    (os_walk (kept_folder cfg) (unlistable env (abspath src)) (abspath src)
       (Dir t ch)).
Proof.
  intros Hsrc Hparent Hfree Hout Hreads r.
  assert (Hzip : isdir zip_path (fs w) = false)
    by (unfold isdir; now rewrite Hfree).
  destruct (custom_zip_folder_run cfg env src zip_path w t ch
              Hsrc Hparent Hzip Hout Hreads) as (w2 & Hrun & Hl).
  subst r. rewrite Hrun. simpl.
  split; [reflexivity |]. split.
  - eexists. split; [exact Hl |]. split; [reflexivity |].
    intros m. rewrite filter_In. unfold archived.
    rewrite !andb_true_iff, !negb_true_iff. tauto.
  - pose proof (walk_visits cfg env (abspath src) [] (Dir t ch) eq_refl) as Hv.
    now rewrite app_nil_r in Hv.
Qed.

Lemma custom_zip_folder_archives_exactly_witness :
  let zip_path := ["srv"; "backup"; "new.zip"] in
  let r := custom_zip_folder demo_cfg (demo_env None no_error no_error)
             ["srv"; "bot"] zip_path demo_world in
  fst r = Ok tt /\
  lookup zip_path (fs (snd r))
  = Some (File 100 (ZipArchive [(["a.txt"], Raw "A");
                                (["sub"; "c.txt"], Raw "C")])).
Proof.
  cbv zeta.
  destruct (custom_zip_folder_archives_exactly demo_cfg
              (demo_env None no_error no_error) ["srv"; "bot"]
              ["srv"; "backup"; "new.zip"] demo_world 0
              [("a.txt", File 0 (Raw "A"));
               ("b.log", File 0 (Raw "B"));
               ("node_modules", Dir 0 [("x.js", File 0 (Raw "X"))]);
               ("sub", Dir 0 [("c.txt", File 0 (Raw "C"));
                              ("node_modules", Dir 0 [("y.js", File 0 (Raw "Y"))]);
                              ("d.log", File 0 (Raw "D"))])])
    as (Hok & (members & Hl & -> & _) & _).
  - reflexivity.
  - reflexivity.
  - reflexivity.
  - intros r Hr. discriminate Hr.
  - intros p. reflexivity.
  - split; [exact Hok | exact Hl].
Defined.

(** ** Names of the folder and of the archive *)

Lemma string_app_inv_head (a b c : string) :
  (a ++ b)%string = (a ++ c)%string -> b = c.
Proof.
  induction a as [| x a IH]; simpl; intros H; [exact H |].
  injection H as H. now apply IH.
Qed.

Lemma string_app_length_inj (a a' b b' : string) :
  String.length a = String.length a' ->
  (a ++ b)%string = (a' ++ b')%string -> a = a' /\ b = b'.
Proof.
  revert a'. induction a as [| x a IH]; intros [| x' a'] Hlen H;
    simpl in *; try discriminate.
  - now split.
  - injection H as -> H. injection Hlen as Hlen.
    destruct (IH a' Hlen H) as [-> ->]. now split.
Qed.

Lemma string_length_app (a b : string) :
  String.length (a ++ b)%string = (String.length a + String.length b)%nat.
Proof. induction a as [| x a IH]; simpl; [reflexivity | now rewrite IH]. Qed.

Lemma string_app_inv_tail (a b c : string) :
  (a ++ c)%string = (b ++ c)%string -> a = b.
Proof.
  intros H. apply (string_app_length_inj a b c c); [| exact H].
  apply (f_equal String.length) in H. rewrite !string_length_app in H. lia.
Qed.

(** Two strings cut at their first [-]. *)
Lemma split_at_dash (a a' b b' : string) :
  free_of "-" a = true -> free_of "-" a' = true ->
  (a ++ "-" ++ b)%string = (a' ++ "-" ++ b')%string -> a = a' /\ b = b'.
Proof.
  revert a'. induction a as [| x a IH]; intros [| x' a'] Ha Ha' H;
    simpl in *.
  - injection H as H. now split.
  - injection H as <- _. discriminate Ha'.
  - injection H as -> _. discriminate Ha.
  - injection H as -> H.
    apply andb_prop in Ha, Ha'.
    destruct (IH a' (proj2 Ha) (proj2 Ha') H) as [-> ->]. now split.
Qed.

(** A property checked on [0 .. n-1] holds on that range. *)
Lemma range_check (P : Z -> bool) (n : Z) :
  forallb (fun k => P (Z.of_nat k)) (seq 0 (Z.to_nat n)) = true ->
  forall z, 0 <= z < n -> P z = true.
Proof.
  intros H z Hz. rewrite forallb_forall in H.
  specialize (H (Z.to_nat z)). rewrite Z2Nat.id in H by lia.
  apply H, in_seq. lia.
Qed.

Lemma format_2_facts (n : Z) :
  0 <= n <= 99 ->
  String.length (Py.format_0d 2 n) = 2%nat /\
  decimal_value (Py.format_0d 2 n) = Some n /\
  free_of "-" (Py.format_0d 2 n) = true.
Proof.
  intros Hn.
  assert (H := range_check
    (fun n => Nat.eqb (String.length (Py.format_0d 2 n)) 2
              && match decimal_value (Py.format_0d 2 n) with
                 | Some v => v =? n
                 | None => false
                 end
              && free_of "-" (Py.format_0d 2 n)) 100).
  specialize (H ltac:(vm_compute; reflexivity) n ltac:(lia)).
  apply andb_prop in H. destruct H as [H H3].
  apply andb_prop in H. destruct H as [H1 H2].
  apply Nat.eqb_eq in H1.
  destruct (decimal_value (Py.format_0d 2 n)) as [v |]; [| discriminate].
  apply Z.eqb_eq in H2. subst v. auto.
Qed.

Lemma year_facts (y : Z) :
  0 <= y <= 9999 ->
  String.length (Py.format_0d 4 y) = 4%nat /\
  decimal_value (Py.format_0d 4 y) = Some y /\
  decimal_value (Py.str y) = Some y /\
  free_of "-" (Py.str y) = true.
Proof.
  intros Hy.
  assert (H := range_check
    (fun n => Nat.eqb (String.length (Py.format_0d 4 n)) 4
              && match decimal_value (Py.format_0d 4 n) with
                 | Some v => v =? n
                 | None => false
                 end
              && match decimal_value (Py.str n) with
                 | Some v => v =? n
                 | None => false
                 end
              && free_of "-" (Py.str n)) 10000).
  specialize (H ltac:(vm_compute; reflexivity) y ltac:(lia)).
  apply andb_prop in H. destruct H as [H H4].
  apply andb_prop in H. destruct H as [H H3].
  apply andb_prop in H. destruct H as [H1 H2].
  apply Nat.eqb_eq in H1.
  destruct (decimal_value (Py.format_0d 4 y)) as [v |]; [| discriminate].
  destruct (decimal_value (Py.str y)) as [v' |]; [| discriminate].
  apply Z.eqb_eq in H2, H3. subst v v'. auto.
Qed.

Lemma jours_free_of_dash (i : Z) :
  0 <= i < 7 -> free_of "-" (Py.getitem jours i) = true.
Proof.
  intros Hi.
  apply (range_check (fun i => free_of "-" (Py.getitem jours i)) 7);
    [vm_compute; reflexivity | lia].
Qed.

Lemma mois_facts (m m' : Z) :
  1 <= m <= 12 -> 1 <= m' <= 12 ->
  free_of "-" (Py.getitem mois (m - 1)) = true /\
  (Py.getitem mois (m - 1) = Py.getitem mois (m' - 1) -> m = m').
Proof.
  intros Hm Hm'.
  assert (H := range_check
    (fun i => free_of "-" (Py.getitem mois i)
              && forallb (fun j => implb (Py.getitem mois i
                                          =? Py.getitem mois (Z.of_nat j))%string
                                         (i =? Z.of_nat j))
                   (seq 0 12)) 12).
  specialize (H ltac:(vm_compute; reflexivity) (m - 1) ltac:(lia)).
  apply andb_prop in H. destruct H as [H1 H2]. split; [exact H1 |].
  intros Heq. rewrite forallb_forall in H2.
  specialize (H2 (Z.to_nat (m' - 1))). rewrite Z2Nat.id in H2 by lia.
  rewrite Heq, String.eqb_refl in H2. simpl in H2.
  assert (Hin : In (Z.to_nat (m' - 1)) (seq 0 12)) by (apply in_seq; lia).
  apply H2 in Hin. apply Z.eqb_eq in Hin. lia.
Qed.

Lemma days_in_month_le (y m : Z) : days_in_month y m <= 31.
Proof.
  unfold days_in_month.
  destruct (m =? 2); [destruct (is_leap y); lia |].
  destruct ((m =? 4) || (m =? 6) || (m =? 9) || (m =? 11)); lia.
Qed.

Lemma weekday_range (d : datetime) : 0 <= weekday d < 7.
Proof. unfold weekday. apply Z.mod_pos_bound. lia. Qed.

Lemma some_inj {A : Type} (a b : A) : Some a = Some b -> a = b.
Proof. congruence. Qed.

(** The archive name tells the second. *)
Lemma zip_name_injective (prefix : string) (a b : datetime) :
  valid_datetime a -> valid_datetime b ->
  zip_name prefix a = zip_name prefix b -> a = b.
Proof.
  intros (Hy & Hm & Hd & Hh & Hmi & Hs) (Hy' & Hm' & Hd' & Hh' & Hmi' & Hs') H.
  pose proof (days_in_month_le (year a) (month a)) as Hda.
  pose proof (days_in_month_le (year b) (month b)) as Hdb.
  unfold zip_name in H. apply string_app_inv_head in H.
  simpl in H. injection H as H. apply string_app_inv_tail in H.
  unfold strftime_Ymd_HMS in H.
  destruct (year_facts (year a)) as (L1 & V1 & _); [lia |].
  destruct (year_facts (year b)) as (L1' & V1' & _); [lia |].
  destruct (format_2_facts (month a)) as (L2 & V2 & _); [lia |].
  destruct (format_2_facts (month b)) as (L2' & V2' & _); [lia |].
  destruct (format_2_facts (day a)) as (L3 & V3 & _); [lia |].
  destruct (format_2_facts (day b)) as (L3' & V3' & _); [lia |].
  destruct (format_2_facts (hour a)) as (L4 & V4 & _); [lia |].
  destruct (format_2_facts (hour b)) as (L4' & V4' & _); [lia |].
  destruct (format_2_facts (minute a)) as (L5 & V5 & _); [lia |].
  destruct (format_2_facts (minute b)) as (L5' & V5' & _); [lia |].
  destruct (format_2_facts (second a)) as (L6 & V6 & _); [lia |].
  destruct (format_2_facts (second b)) as (L6' & V6' & _); [lia |].
  apply string_app_length_inj in H; [| congruence]. destruct H as [E1 H].
  apply string_app_length_inj in H; [| congruence]. destruct H as [E2 H].
  apply string_app_length_inj in H; [| congruence]. destruct H as [E3 H].
  simpl in H. injection H as H.
  apply string_app_length_inj in H; [| congruence]. destruct H as [E4 H].
  apply string_app_length_inj in H; [| congruence]. destruct H as [E5 E6].
  rewrite E1 in V1. rewrite E2 in V2. rewrite E3 in V3.
  rewrite E4 in V4. rewrite E5 in V5. rewrite E6 in V6.
  destruct a, b; simpl in *. f_equal; apply some_inj; congruence.
Qed.

(** The folder name tells the minute, and nothing more. *)
Lemma local_name_same_minute (a b : datetime) :
  valid_datetime a -> valid_datetime b ->
  (local_name a = local_name b <-> same_minute a b).
Proof.
  intros (Hy & Hm & Hd & Hh & Hmi & Hs) (Hy' & Hm' & Hd' & Hh' & Hmi' & Hs').
  pose proof (days_in_month_le (year a) (month a)) as Hda.
  pose proof (days_in_month_le (year b) (month b)) as Hdb.
  split.
  - intros H. unfold local_name in H.
    destruct (year_facts (year a)) as (_ & _ & V1 & F1); [lia |].
    destruct (year_facts (year b)) as (_ & _ & V1' & F1'); [lia |].
    destruct (mois_facts (month a) (month b)) as (F2 & I2); [lia | lia |].
    destruct (mois_facts (month b) (month a)) as (F2' & _); [lia | lia |].
    destruct (format_2_facts (day a)) as (_ & V3 & F3); [lia |].
    destruct (format_2_facts (day b)) as (_ & V3' & F3'); [lia |].
    destruct (format_2_facts (hour a)) as (L4 & V4 & _); [lia |].
    destruct (format_2_facts (hour b)) as (L4' & V4' & _); [lia |].
    destruct (format_2_facts (minute a)) as (_ & V5 & _); [lia |].
    destruct (format_2_facts (minute b)) as (_ & V5' & _); [lia |].
    apply split_at_dash in H;
      try (apply jours_free_of_dash, weekday_range).
    destruct H as [_ H].
    apply split_at_dash in H; try assumption. destruct H as [E3 H].
    apply split_at_dash in H; try assumption. destruct H as [E2 H].
    apply split_at_dash in H; try assumption. destruct H as [E1 H].
    apply string_app_length_inj in H; [| congruence]. destruct H as [E4 H].
    simpl in H. injection H as E5.
    rewrite E1 in V1. rewrite E3 in V3. rewrite E4 in V4. rewrite E5 in V5.
    unfold same_minute. repeat split; try (apply some_inj; congruence).
    now apply I2.
  - intros (E1 & E2 & E3 & E4 & E5). unfold local_name, weekday, toordinal.
    now rewrite E1, E2, E3, E4, E5.
Qed.

(** C9, counterexample: two cycles of the same minute, 38 seconds apart,
    get the same local folder name. *)
Lemma local_name_collision_counterexample :
  let a := mkDatetime 2026 11 3 11 2 7 in
  let b := mkDatetime 2026 11 3 11 2 45 in
  valid_datetime a /\ valid_datetime b /\ second a <> second b /\
  local_name a = local_name b.
Proof.
  cbv zeta. unfold valid_datetime. simpl.
  repeat split; try lia; try discriminate.
Qed.

(** C9, amended: the archive name is derived from the UTC time to the
    second, so two cycles of one bot started at distinct seconds get
    distinct archive names; the local folder name is derived from the
    local time to the minute only, so two cycles get the same folder
    name exactly when they start in the same minute. *)
Theorem naming_resolution (prefix : string) (a b : datetime) :
  valid_datetime a -> valid_datetime b ->
  (zip_name prefix a = zip_name prefix b <-> a = b) /\
  (local_name a = local_name b <-> same_minute a b).
Proof.
  intros Ha Hb. split.
  - split; [now apply zip_name_injective | now intros ->].
  - now apply local_name_same_minute.
Qed.

Lemma naming_resolution_witness :
  let a := mkDatetime 2026 11 3 11 2 7 in
  let b := mkDatetime 2026 11 3 11 2 45 in
  (zip_name "backup-bot" a = zip_name "backup-bot" b <-> a = b) /\
  (local_name a = local_name b <-> same_minute a b).
Proof.
  cbv zeta.
  apply (naming_resolution "backup-bot"
           (mkDatetime 2026 11 3 11 2 7) (mkDatetime 2026 11 3 11 2 45));
    vm_compute; repeat split; discriminate.
Defined.

(** * Further properties *)

(** ** What the retention passes keep *)

Lemma StronglySorted_app_inv {A : Type} (R : A -> A -> Prop) (a b : list A) :
  StronglySorted R (a ++ b) ->
  forall x y, In x a -> In y b -> R x y.
Proof.
  induction a as [| z a IH]; simpl; intros Hs x y Hx Hy; [contradiction |].
  inversion Hs as [| ? ? Hs' Hall]; subst.
  destruct Hx as [-> | Hx].
  - rewrite Forall_forall in Hall. apply Hall, in_or_app. now right.
  - now apply IH.
Qed.

(** The remote selection and the folders it leaves, for a positive
    count. *)
Lemma select_remote_partition (keep : Z) (files : list DriveFile) :
  0 < keep ->
  let sorted := Py.sort String.leb f_createdTime false files in
  let kept := skipn (List.length files - Z.to_nat keep) sorted in
  select_remote keep files ++ kept = sorted /\
  Permutation (select_remote keep files ++ kept) files /\
  List.length kept = Nat.min (Z.to_nat keep) (List.length files).
Proof.
  intros Hk sorted kept.
  assert (Hsplit : select_remote keep files ++ kept = sorted).
  { rewrite select_remote_positive by assumption. apply firstn_skipn. }
  split; [exact Hsplit |]. split.
  - rewrite Hsplit. apply sort_perm.
  - unfold kept. rewrite length_skipn. unfold sorted. rewrite sort_length. lia.
Qed.

(** X1: with a positive [drive_keep] the remote selection and what it
    leaves, the [min(drive_keep, len)] last folders of the ascending
    sort, make up the whole listing, and no selected folder is newer than
    a folder that is kept. *)
Theorem select_remote_keeps_newest (keep : Z) (files : list DriveFile) :
  0 < keep ->
  let sorted := Py.sort String.leb f_createdTime false files in
  let kept := skipn (List.length files - Z.to_nat keep) sorted in
  select_remote keep files ++ kept = sorted /\
  Permutation (select_remote keep files ++ kept) files /\
  List.length kept = Nat.min (Z.to_nat keep) (List.length files) /\
  (forall d k, In d (select_remote keep files) -> In k kept ->
               String.leb (f_createdTime d) (f_createdTime k) = true).
Proof.
  intros Hk sorted kept.
  destruct (select_remote_partition keep files Hk) as (Hsplit & Hperm & Hlen).
  fold sorted in Hsplit. fold kept in Hsplit, Hperm, Hlen.
  split; [exact Hsplit |]. split; [exact Hperm |]. split; [exact Hlen |].
  intros d k Hd Hkept.
  destruct (remote_sort_ascending files) as [_ Hsorted].
  fold sorted in Hsorted. rewrite <- Hsplit in Hsorted.
  exact (StronglySorted_app_inv _ _ _ Hsorted d k Hd Hkept).
Qed.

Lemma select_remote_keeps_newest_witness :
  let f1 := mkDriveFile "id1" "lundi" "2024-01-01T08:00:00.000Z" in
  let f2 := mkDriveFile "id2" "mardi" "2024-01-02T08:00:00.000Z" in
  let f3 := mkDriveFile "id3" "mercredi" "2024-01-03T08:00:00.000Z" in
  select_remote 2 [f3; f1; f2] ++ [f2; f3] = [f1; f2; f3].
Proof.
  cbv zeta.
  exact (proj1 (select_remote_keeps_newest 2
                  [mkDriveFile "id3" "mercredi" "2024-01-03T08:00:00.000Z";
                   mkDriveFile "id1" "lundi" "2024-01-01T08:00:00.000Z";
                   mkDriveFile "id2" "mardi" "2024-01-02T08:00:00.000Z"]
                  eq_refl)).
Defined.

(** X2: with [local_keep >= 0] the local pass keeps the
    [min(local_keep, len)] first folders of the descending sort, and no
    folder it selects was created after a folder it keeps. *)
Theorem select_local_keeps_newest (keep : Z) (entries : list LocalEntry) :
  0 <= keep ->
  let sorted := Py.sort Z.leb snd true entries in
  let kept := firstn (Z.to_nat keep) sorted in
  kept ++ select_local keep entries = sorted /\
  Permutation (kept ++ select_local keep entries) entries /\
  List.length kept = Nat.min (Z.to_nat keep) (List.length entries) /\
  (forall k d, In k kept -> In d (select_local keep entries) ->
               snd d <= snd k).
Proof.
  intros Hk sorted kept.
  assert (Hsel : select_local keep entries = skipn (Z.to_nat keep) sorted).
  { unfold select_local. now rewrite slice_from_nonneg. }
  assert (Hsplit : kept ++ select_local keep entries = sorted).
  { rewrite Hsel. apply firstn_skipn. }
  split; [exact Hsplit |]. split; [| split].
  - rewrite Hsplit. apply sort_perm.
  - unfold kept. rewrite length_firstn. unfold sorted. now rewrite sort_length.
  - intros k d Hkept Hd.
    assert (Hsorted := sort_sorted Z.leb snd Zleb_total Zleb_trans true entries).
    fold sorted in Hsorted. rewrite <- Hsplit in Hsorted.
    pose proof (StronglySorted_app_inv _ _ _ Hsorted k d Hkept Hd) as H.
    unfold in_order, Py.goes_first in H. now apply Z.leb_le.
Qed.

Lemma select_local_keeps_newest_witness :
  let entries :=
    [(["backup"; "t3"], 3); (["backup"; "t1"], 1);
     (["backup"; "t4"], 4); (["backup"; "t2"], 2)] in
  [(["backup"; "t4"], 4); (["backup"; "t3"], 3)] ++ select_local 2 entries
  = [(["backup"; "t4"], 4); (["backup"; "t3"], 3);
     (["backup"; "t2"], 2); (["backup"; "t1"], 1)].
Proof.
  cbv zeta.
  destruct (select_local_keeps_newest 2
              [(["backup"; "t3"], 3); (["backup"; "t1"], 1);
               (["backup"; "t4"], 4); (["backup"; "t2"], 2)])
    as [H _]; [discriminate | exact H].
Defined.

(** X3: a negative retention count is a slice bound counted from the
    other end: with [keep < 0] both passes select the [min(-keep, len)]
    oldest entries, the last ones of the descending local sort and the
    first ones of the ascending remote sort. *)
Theorem negative_keep_selects_oldest (keep : Z) (entries : list LocalEntry)
    (files : list DriveFile) :
  keep < 0 ->
  select_local keep entries
  = skipn (List.length entries - Z.to_nat (- keep)) (Py.sort Z.leb snd true entries) /\
  List.length (select_local keep entries)
  = Nat.min (Z.to_nat (- keep)) (List.length entries) /\
  select_remote keep files
  = firstn (Z.to_nat (- keep)) (Py.sort String.leb f_createdTime false files) /\
  List.length (select_remote keep files)
  = Nat.min (Z.to_nat (- keep)) (List.length files).
Proof.
  intros Hk.
  assert (Hl : select_local keep entries
               = skipn (List.length entries - Z.to_nat (- keep))
                   (Py.sort Z.leb snd true entries)).
  { unfold select_local. rewrite slice_from_negative by assumption.
    now rewrite sort_length. }
  assert (Hr := select_remote_negative keep files Hk).
  split; [exact Hl |]. split; [| split; [exact Hr |]].
  - rewrite Hl, length_skipn, sort_length.
    unfold LocalEntry in *. lia.
  - rewrite Hr, length_firstn, sort_length. reflexivity.
Qed.

Lemma negative_keep_selects_oldest_witness :
  List.length (select_local (-2) [(["b"; "1"], 1); (["b"; "2"], 2); (["b"; "3"], 3)])
  = 2%nat /\
  List.length (select_remote (-2) demo_drive) = 2%nat.
Proof.
  destruct (negative_keep_selects_oldest (-2)
              [(["b"; "1"], 1); (["b"; "2"], 2); (["b"; "3"], 3)] demo_drive)
    as (_ & Hl & _ & Hr); [reflexivity |].
  split; [exact Hl | exact Hr].
Defined.

(** ** The remote pass on the Drive state *)

Lemma filter_filter_and {A : Type} (p q : A -> bool) (l : list A) :
  filter p (filter q l) = filter (fun a => q a && p a) l.
Proof.
  induction l as [| a l IH]; simpl; [reflexivity |].
  destruct (q a); simpl; [destruct (p a) |]; now rewrite IH.
Qed.

Lemma Permutation_filter_compat {A : Type} (p : A -> bool) (l l' : list A) :
  Permutation l l' -> Permutation (filter p l) (filter p l').
Proof.
  induction 1 as [| x l l' _ IH | x y l | l l' l'' _ IH1 _ IH2]; simpl.
  - constructor.
  - destruct (p x); [now constructor | exact IH].
  - destruct (p x), (p y); try apply Permutation_refl. apply perm_swap.
  - eapply Permutation_trans; eassumption.
Qed.

Lemma NoDup_app_disjoint {A : Type} (a b : list A) (x : A) :
  NoDup (a ++ b) -> In x a -> In x b -> False.
Proof.
  induction a as [| y a IH]; simpl; intros Hnd Ha Hb; [contradiction |].
  inversion Hnd as [| ? ? Hy Hnd']; subst.
  destruct Ha as [-> | Ha]; [| now apply IH].
  apply Hy, in_or_app. now right.
Qed.

(** The loop of the remote pass when no deletion fails: every selected id
    leaves the Drive state, nothing else changes. *)
Lemma delete_loop_ok env (xs : list DriveFile) w :
  (forall g, In g xs -> delete_error env (f_id g) = None) ->
  exists w',
    for_each xs
      (fun g =>
         drive_files_delete env (f_id g) ;;
         log INFO ("🗑️ Supprimé Drive : " ++ f_name g ++ " (créé "
                   ++ f_createdTime g ++ ")")%string) w = (Ok tt, w') /\
    fs w' = fs w /\
    drive w'
    = filter (fun f => negb (existsb (String.eqb (f_id f)) (map f_id xs)))
        (drive w).
Proof.
  revert w. induction xs as [| x xs IH]; intros w Hok.
  - exists w. simpl. repeat split.
    induction (drive w) as [| f d IHd]; simpl; [reflexivity | now rewrite <- IHd].
  - simpl for_each.
    set (w1 := mkWorld (fs w)
                 (filter (fun f => negb (f_id f =? f_id x)%string) (drive w))
                 ((trace w ++ [DriveDelete (f_id x)])
                  ++ [Log INFO ("🗑️ Supprimé Drive : " ++ f_name x ++ " (créé "
                                ++ f_createdTime x ++ ")")%string])).
    rewrite (bind_ok _ _ w tt w1).
    2: { unfold drive_files_delete, bind, emit, fail_if, get_drive, set_drive,
           log, emit. rewrite (Hok x) by now left. reflexivity. }
    destruct (IH w1) as (w' & Hrun & Hfs & Hdrive).
    { intros g Hg. apply Hok. now right. }
    exists w'. split; [exact Hrun |]. split; [exact Hfs |].
    rewrite Hdrive. unfold w1. simpl drive. rewrite filter_filter_and.
    apply filter_ext. intros f. simpl. now rewrite negb_orb.
Qed.

Lemma existsb_id (i : string) (ids : list string) :
  existsb (String.eqb i) ids = true <-> In i ids.
Proof.
  rewrite existsb_exists. split.
  - intros (j & Hj & He). apply String.eqb_eq in He. now subst.
  - intros H. exists i. split; [exact H | apply String.eqb_refl].
Qed.

Lemma filter_ids_all (ids : list string) (l : list DriveFile) :
  (forall g, In g l -> In (f_id g) ids) ->
  filter (fun f => negb (existsb (String.eqb (f_id f)) ids)) l = [].
Proof.
  induction l as [| g l IH]; intros H; simpl; [reflexivity |].
  rewrite (proj2 (existsb_id (f_id g) ids)) by (apply H; now left).
  simpl. apply IH. intros g' Hg'. apply H. now right.
Qed.

Lemma filter_ids_none (ids : list string) (l : list DriveFile) :
  (forall g, In g l -> ~ In (f_id g) ids) ->
  filter (fun f => negb (existsb (String.eqb (f_id f)) ids)) l = l.
Proof.
  induction l as [| g l IH]; intros H; simpl; [reflexivity |].
  destruct (existsb (String.eqb (f_id g)) ids) eqn:E.
  - apply existsb_id in E. exfalso. apply (H g); [now left | exact E].
  - simpl. f_equal. apply IH. intros g' Hg'. apply H. now right.
Qed.

(** X4: when the listing request succeeds and returns every folder (at
    most 1000, ids distinct), [drive_keep] is positive and no deletion
    fails, the remote pass returns, what is left on Drive is exactly the
    [min(drive_keep, len)] newest folders, and a second pass would select
    nothing. *)
Theorem remote_pass_leaves_newest cfg env w :
  0 < drive_keep cfg ->
  list_error env = None ->
  (List.length (drive w) <= Nat.min (Z.to_nat 1000) (list_cap env))%nat ->
  NoDup (map f_id (drive w)) ->
  (forall g, In g (select_remote (drive_keep cfg) (drive w)) ->
             delete_error env (f_id g) = None) ->
  let r := delete_old_backups_by_count cfg env w in
  let kept :=
    skipn (List.length (drive w) - Z.to_nat (drive_keep cfg))
      (Py.sort String.leb f_createdTime false (drive w)) in
  fst r = Ok tt /\
  Permutation (drive (snd r)) kept /\
  select_remote (drive_keep cfg)
    (firstn (Nat.min (Z.to_nat 1000) (list_cap env)) (drive (snd r))) = [].
Proof.
  intros Hkeep Hlist Hpage Hnd Hdel r kept.
  pose proof (delete_old_backups_loop cfg env w Hlist) as Hl. cbv zeta in Hl.
  rewrite (firstn_all2 (drive w)) in Hl by exact Hpage.
  set (to_delete := select_remote (drive_keep cfg) (drive w)) in *.
  match type of Hl with
  | _ = for_each _ _ ?w1 =>
      destruct (delete_loop_ok env to_delete w1 Hdel) as (w' & Hrun & _ & Hdrive)
  end.
  rewrite Hrun in Hl. subst r. rewrite Hl. simpl fst. simpl snd.
  simpl drive in Hdrive.
  destruct (select_remote_partition (drive_keep cfg) (drive w) Hkeep)
    as (_ & Hperm & Hlen).
  fold to_delete kept in Hperm, Hlen.
  assert (Hleft : Permutation (drive w') kept).
  { rewrite Hdrive.
    assert (Hnd' : NoDup (map f_id to_delete ++ map f_id kept)).
    { rewrite <- map_app. eapply Permutation_NoDup; [| exact Hnd].
      apply Permutation_map, Permutation_sym, Hperm. }
    eapply Permutation_trans.
    - apply Permutation_filter_compat, Permutation_sym, Hperm.
    - rewrite filter_app.
      rewrite filter_ids_all by (intros g Hg; now apply in_map).
      rewrite filter_ids_none; [apply Permutation_refl |].
      intros g Hg Hin.
      eapply NoDup_app_disjoint; [exact Hnd' | exact Hin | now apply in_map]. }
  split; [reflexivity |]. split; [exact Hleft |].
  apply select_remote_keeps_all_when_few; [exact Hkeep |].
  assert (Hlen' : List.length (drive w') = List.length kept)
    by now apply Permutation_length.
  pose proof (length_firstn (Nat.min (Z.to_nat 1000) (list_cap env)) (drive w'))
    as Hf.
  rewrite Hf, Hlen', Hlen. lia.
Qed.

Lemma remote_pass_leaves_newest_witness :
  let env := demo_env None no_error no_error in
  let r := delete_old_backups_by_count demo_cfg env demo_world in
  fst r = Ok tt /\
  Permutation (drive (snd r))
    [mkDriveFile "id4" "Bot 4" "2026-04-01T00:00:00.000Z"].
Proof.
  cbv zeta.
  destruct (remote_pass_leaves_newest demo_cfg
              (demo_env None no_error no_error) demo_world)
    as (Hok & Hperm & _).
  - reflexivity.
  - reflexivity.
  - vm_compute. repeat constructor.
  - vm_compute. repeat constructor; simpl; intuition discriminate.
  - intros g _. reflexivity.
  - split; [exact Hok | exact Hperm].
Defined.

(** X5: when the listing request fails, the remote pass raises that
    error at once: the one request was made, no deletion is tried, and
    the Drive holds the folders it held. *)
Theorem remote_pass_list_error cfg env w e :
  list_error env = Some e ->
  let r := delete_old_backups_by_count cfg env w in
  fst r = Raise e /\
  list_requests (events_since w (snd r)) = [1000] /\
  delete_attempts (events_since w (snd r)) = [] /\
  drive (snd r) = drive w.
Proof.
  intros Hl r. subst r.
  rewrite (delete_old_backups_list_error cfg env w e Hl). cbn [fst snd drive].
  erewrite events_since_app by (cbn [trace]; reflexivity).
  repeat split.
Qed.

Lemma remote_pass_list_error_witness :
  let env := mkEnv demo_now demo_now 100 no_error no_error None None
               (fun _ => Ok ("id5", "t")) (fun _ _ => Ok "file5")
               (Some not_found) 5000 no_error (fun _ => false) in
  fst (delete_old_backups_by_count demo_cfg env demo_world) = Raise not_found /\
  drive (snd (delete_old_backups_by_count demo_cfg env demo_world)) = demo_drive.
Proof.
  cbv zeta.
  destruct (remote_pass_list_error demo_cfg
              (mkEnv demo_now demo_now 100 no_error no_error None None
                 (fun _ => Ok ("id5", "t")) (fun _ _ => Ok "file5")
                 (Some not_found) 5000 no_error (fun _ => false))
              demo_world not_found eq_refl) as (Hr & _ & _ & Hd).
  split; [exact Hr | exact Hd].
Defined.

(** ** The local pass on the file system *)

Lemma In_skipn {A : Type} (n : nat) (l : list A) (x : A) :
  In x (skipn n l) -> In x l.
Proof.
  revert l. induction n as [| n IH]; intros [| y l]; simpl; try tauto.
  intros H. right. now apply IH.
Qed.

Lemma select_local_incl (keep : Z) (entries : list LocalEntry) (e : LocalEntry) :
  In e (select_local keep entries) -> In e entries.
Proof.
  unfold select_local, Py.slice_from. intros H. apply In_skipn in H.
  eapply Permutation_in; [| exact H]. apply (sort_perm Z.leb snd).
Qed.

Lemma map_m_getctime_paths (subs : list path) w entries w1 :
  map_m (fun p => t <- os_path_getctime p ;; ret (p, t)) subs w
  = (Ok entries, w1) ->
  map fst entries = subs.
Proof.
  revert entries w. induction subs as [| p subs IH]; intros entries w H.
  - simpl in H. inversion H. reflexivity.
  - simpl in H. unfold bind at 1 in H.
    destruct ((t <- os_path_getctime p ;; ret (p, t)) w) as [[y | e] w2] eqn:Hp;
      [| discriminate].
    assert (Hy : fst y = p).
    { unfold os_path_getctime, bind, get_fs in Hp. simpl in Hp.
      destruct (lookup p (fs w)) as [[t d | t ch] |]; inversion Hp; reflexivity. }
    unfold bind at 1 in H.
    destruct (map_m _ subs w2) as [[ys | e] w3] eqn:Hrec; [| discriminate].
    injection H as He Hw. rewrite <- He. simpl. rewrite Hy. f_equal.
    eapply IH. rewrite <- Hw. exact Hrec.
Qed.

(** The listing holds directories that stand directly under the root. *)
Lemma local_entries_paths root w entries w1 :
  local_entries root w = (Ok entries, w1) ->
  forall p, In p (map fst entries) ->
            isdir p (fs w) = true /\ exists d, p = join root d.
Proof.
  intros H p Hp. unfold local_entries in H. unfold bind at 1 in H.
  destruct (os_listdir root w) as [[names | e] w2] eqn:Hls; [| discriminate].
  assert (w2 = w).
  { unfold os_listdir, bind, get_fs in Hls. simpl in Hls.
    destruct (lookup root (fs w)) as [[t d | t ch] |]; inversion Hls;
      reflexivity. }
  subst w2. rewrite (bind_ok _ _ w (fs w) w) in H by reflexivity.
  apply map_m_getctime_paths in H.
  assert (Hp' : In p (filter (fun q => isdir q (fs w)) (map (join root) names)))
    by (rewrite <- H; exact Hp).
  apply filter_In in Hp'. destruct Hp' as [Hin Hdir].
  split; [exact Hdir |].
  apply in_map_iff in Hin. destruct Hin as (d & Hd & _). now exists d.
Qed.

Lemma rmtree_attempts_In (evs : list Event) (p : path) :
  In p (rmtree_attempts evs) <-> In (Rmtree p) evs.
Proof.
  unfold rmtree_attempts. rewrite in_flat_map. split.
  - intros (ev & Hin & Hp). destruct ev; simpl in Hp; try tauto.
    destruct Hp as [-> | []]. exact Hin.
  - intros H. exists (Rmtree p). split; [exact H | now left].
Qed.

(** X6: [clean_local_backups] only ever calls [shutil.rmtree] on
    directories that stood directly under [local_backup_root] when the
    pass started; a regular file there, such as [backup.log], and anything
    elsewhere is never its target.  When the listing fails nothing is
    tried. *)
Theorem local_pass_targets cfg env w p :
  In (Rmtree p) (events_since w (snd (clean_local_backups cfg env w))) ->
  isdir p (fs w) = true /\ exists d, p = join (local_backup_root cfg) d.
Proof.
  intros Hin. apply rmtree_attempts_In in Hin.
  destruct (local_entries (local_backup_root cfg) w) as [[entries | e] w1]
    eqn:Hentries.
  - pose proof (clean_local_backups_loop cfg env w entries w1 Hentries) as Hl.
    rewrite Hl in Hin. clear Hl.
    set (to_remove := map fst (select_local (local_keep cfg) entries)) in *.
    set (loop := for_each _ _ w) in *.
    pose proof (for_each_attempts
                  (fun ev => match ev with Rmtree q => [q] | _ => [] end)
                  (fun q : path => q)
                  (fun old =>
                     shutil_rmtree env old ;;
                     log INFO ("🗑️ Supprimé local : " ++ path_str old)%string)
                  (rmtree_body_events env) to_remove w) as Hloop.
    change (for_each _ _ _) with loop in Hloop.
    destruct Hloop as (evs & Htr & Hcase).
    rewrite (events_since_app _ _ _ Htr) in Hin.
    fold (rmtree_attempts evs) in Hcase.
    assert (Hsel : In p to_remove).
    { destruct (fst loop) as [[] | e].
      - destruct Hcase as [Hm _]. rewrite map_id in Hm. now rewrite <- Hm.
      - destruct Hcase as (done & old & rest & wa & Hxs & Hm & _).
        rewrite map_id in Hm. rewrite Hm in Hin. rewrite Hxs.
        apply in_app_or in Hin. apply in_or_app.
        destruct Hin as [Hd | [-> | []]]; [now left | right; now left]. }
    eapply (local_entries_paths _ _ _ _ Hentries).
    unfold to_remove in Hsel. apply in_map_iff in Hsel.
    destruct Hsel as (x & <- & Hx). apply in_map.
    eapply select_local_incl. exact Hx.
  - exfalso. unfold clean_local_backups in Hin.
    assert (w1 = w) by (eapply local_entries_reads; eassumption). subst w1.
    rewrite (bind_raise _ _ _ _ _ Hentries) in Hin. simpl in Hin.
    unfold events_since in Hin. rewrite skipn_all in Hin. exact Hin.
Qed.

Lemma local_pass_targets_witness :
  isdir ["srv"; "backup"; "old2"] (fs demo_world) = true /\
  exists d, ["srv"; "backup"; "old2"] = join (local_backup_root demo_cfg) d.
Proof.
  apply (local_pass_targets demo_cfg (demo_env None no_error no_error)
           demo_world ["srv"; "backup"; "old2"]).
  vm_compute. left. reflexivity.
Defined.

(** ** More on the archiver *)

Lemma endswith_iff (s suffix : string) :
  Py.endswith s suffix = true <-> exists p, s = (p ++ suffix)%string.
Proof.
  induction s as [| c s IH].
  - change (Py.endswith EmptyString suffix)
      with ((EmptyString =? suffix)%string || false).
    rewrite orb_false_r, String.eqb_eq. split.
    + intros <-. now exists EmptyString.
    + intros ([| x p] & Hp); simpl in Hp; [exact Hp | discriminate].
  - change (Py.endswith (String c s) suffix)
      with ((String c s =? suffix)%string || Py.endswith s suffix).
    rewrite orb_true_iff, String.eqb_eq, IH. split.
    + intros [<- | (p & ->)]; [now exists EmptyString | now exists (String c p)].
    + intros ([| x p] & Hp); simpl in Hp; [now left |].
      injection Hp as -> ->. right. now exists p.
Qed.

(** X7: a file is skipped by the archiver exactly when its name is some
    text followed by one of the configured extensions; the match is on the
    end of the name, a dot is not required, and an extension equal to the
    whole name matches. *)
Theorem excluded_file_iff cfg (fname : string) :
  excluded_file cfg fname = true <->
  exists ext p, In ext (excluded_extensions cfg) /\ fname = (p ++ ext)%string.
Proof.
  unfold excluded_file. rewrite existsb_exists. split.
  - intros (ext & Hin & He). apply endswith_iff in He. destruct He as (p & ->).
    now exists ext, p.
  - intros (ext & p & Hin & ->). exists ext. split; [exact Hin |].
    apply endswith_iff. now exists p.
Qed.

Lemma written_app env a b :
  written env (a ++ b) =
  match written env a with
  | (ms, Some e) => (ms, Some e)
  | (ms, None) => let (ms', r) := written env b in (ms ++ ms', r)
  end.
Proof.
  induction a as [| [q m] a IH]; simpl.
  - now destruct (written env b).
  - destruct (zip_write_error env q); [reflexivity |].
    rewrite IH. destruct (written env a) as [ms [e |]]; [reflexivity |].
    now destruct (written env b).
Qed.

Lemma step_writes_members cfg abs_src step :
  map snd (step_writes cfg abs_src step) = step_members cfg abs_src step.
Proof.
  destruct step as [[root dirs] files]. simpl.
  induction files as [| f files IH]; simpl; [reflexivity |].
  rewrite map_app, IH. now destruct (excluded_file cfg (fst f)).
Qed.

Lemma write_plan_members cfg env abs_src tree :
  map snd (write_plan cfg env abs_src tree) = zip_members cfg env abs_src tree.
Proof.
  rewrite zip_members_steps. unfold write_plan.
  induction (os_walk (kept_folder cfg) (unlistable env abs_src) abs_src tree) as [| s l IH]; simpl;
    [reflexivity |].
  now rewrite map_app, step_writes_members, IH.
Qed.

Lemma written_all_readable env plan :
  (forall q m, In (q, m) plan -> zip_write_error env q = None) ->
  written env plan = (map snd plan, None).
Proof.
  induction plan as [| [q m] plan IH]; intros H; simpl; [reflexivity |].
  rewrite (H q m) by now left.
  rewrite IH; [reflexivity |]. intros q' m' Hin. apply (H q' m'). now right.
Qed.


Section Outcome.
Variables (cfg : BotConfig) (env : Env) (zip_path abs_src : path).
Hypothesis zip_path_named : zip_path <> [].

Lemma write_files_outcome root dirs files w t ms :
  lookup zip_path (fs w) = Some (File t (ZipArchive ms)) ->
  exists w',
    for_each files (write_file cfg env zip_path abs_src root) w
    = (match snd (written env (step_writes cfg abs_src (root, dirs, files))) with
       | None => Ok tt
       | Some e => Raise e
       end, w') /\
    lookup zip_path (fs w')
    = Some (File t (ZipArchive
                      (ms ++ fst (written env
                                    (step_writes cfg abs_src (root, dirs, files)))))).
Proof.
  revert w ms. induction files as [| f files IH]; intros w ms Hz.
  - exists w. simpl. now rewrite app_nil_r.
  - simpl for_each. unfold write_file at 1. cbv zeta. simpl step_writes.
    destruct (excluded_file cfg (fst f)) eqn:Hex.
    + rewrite (bind_ok _ _ w tt
                 (mkWorld (fs w) (drive w)
                    (trace w ++ [Log DEBUG ("⛔ Exclu: "
                        ++ path_str (join root (fst f)))%string])))
        by reflexivity.
      apply (IH _ ms). exact Hz.
    + simpl app. simpl written.
      destruct (zip_write_error env (join root (fst f))) as [e |] eqn:Herr.
      * exists w. split.
        { apply bind_raise. unfold z_write, bind, fail_if. now rewrite Herr. }
        { simpl. now rewrite app_nil_r. }
      * set (member := (relpath (join root (fst f)) abs_src, snd f)).
        set (z' := File t (ZipArchive (ms ++ [member]))).
        rewrite (bind_ok _ _ w tt
                   (mkWorld (store zip_path (Some z') (fs w)) (drive w) (trace w))).
        2: { unfold z_write, bind, fail_if, get_fs. rewrite Herr.
             simpl. rewrite Hz. reflexivity. }
        destruct (IH (mkWorld (store zip_path (Some z') (fs w)) (drive w) (trace w))
                    (ms ++ [member])) as (w' & Hok & Hl).
        { simpl. apply lookup_store_some; [exact zip_path_named |].
          eapply lookup_some_parent; eassumption. }
        exists w'. simpl step_writes in Hok, Hl.
        destruct (written env _) as [ms' r]. simpl in *.
        split; [exact Hok |]. rewrite Hl. now rewrite <- app_assoc.
Qed.

Lemma write_steps_outcome (steps_ : list WalkStep) w t ms :
  lookup zip_path (fs w) = Some (File t (ZipArchive ms)) ->
  exists w',
    for_each steps_
      (fun step : WalkStep =>
         let '(root, _, files) := step in
         for_each files (write_file cfg env zip_path abs_src root)) w
    = (match snd (written env (flat_map (step_writes cfg abs_src) steps_)) with
       | None => Ok tt
       | Some e => Raise e
       end, w') /\
    lookup zip_path (fs w')
    = Some (File t (ZipArchive
                      (ms ++ fst (written env
                                    (flat_map (step_writes cfg abs_src) steps_))))).
Proof.
  revert w ms. induction steps_ as [| [[root dirs] files] steps_ IH];
    intros w ms Hz.
  - exists w. simpl. now rewrite app_nil_r.
  - simpl for_each.
    change (flat_map (step_writes cfg abs_src) ((root, dirs, files) :: steps_))
      with (step_writes cfg abs_src (root, dirs, files)
            ++ flat_map (step_writes cfg abs_src) steps_).
    rewrite written_app.
    destruct (write_files_outcome root dirs files w t ms Hz) as (w1 & Hok1 & Hl1).
    destruct (written env (step_writes cfg abs_src (root, dirs, files)))
      as [ms1 [e |]]; simpl in Hok1, Hl1.
    + exists w1. cbv beta iota. cbn [fst snd]. split; [| exact Hl1].
      apply (bind_raise _ _ _ _ _ Hok1).
    + rewrite (bind_ok _ _ _ _ _ Hok1).
      destruct (IH w1 _ Hl1) as (w' & Hok & Hl).
      destruct (written env (flat_map (step_writes cfg abs_src) steps_))
        as [ms2 r]. cbv beta iota. cbn [fst snd] in *.
      exists w'. split; [exact Hok |]. rewrite Hl. now rewrite <- app_assoc.
Qed.
End Outcome.

Lemma custom_zip_folder_rest_outcome cfg env src zip_path t ch w1 :
  zip_path <> [] ->
  (forall r, zip_path <> abspath src ++ r) ->
  (forall r, abspath src <> zip_path ++ r) ->
  lookup (abspath src) (fs w1) = Some (Dir t ch) ->
  isdir (parent zip_path) (fs w1) = true ->
  isdir zip_path (fs w1) = false ->
  exists w2,
    (let abs_src := abspath src in
     isd <- os_path_isdir abs_src ;;
     if negb isd then
       raise (mkExn FileNotFoundError
                ("Dossier à zipper introuvable : " ++ path_str abs_src)%string)
     else
       zipfile_open env zip_path ;;
       n <- get_fs ;;
       let tree := match lookup abs_src n with
                   | Some t => t
                   | None => Dir 0 []
                   end in
       for_each (os_walk (kept_folder cfg) (unlistable env abs_src) abs_src tree)
         (fun step : WalkStep =>
            let '(root, _, files) := step in
            for_each files
              (fun f : string * FileData =>
                 let fname := fst f in
                 if excluded_file cfg fname then
                   log DEBUG ("⛔ Exclu: " ++ path_str (join root fname))%string
                 else
                   let full_path := join root fname in
                   let arcname := relpath full_path abs_src in
                   z_write env zip_path full_path arcname (snd f))) ;;
       os_path_getsize zip_path ;;
       log INFO ("✔️ ZIP créé, "
                 ++ Py.str (Z.of_nat (List.length (zip_members cfg env abs_src tree)))
                 ++ " fichiers")%string) w1
    = (match snd (written env (write_plan cfg env (abspath src) (Dir t ch))) with
       | None => Ok tt
       | Some e => Raise e
       end, w2) /\
    lookup zip_path (fs w2)
    = Some (File (clock env)
              (ZipArchive
                 (fst (written env (write_plan cfg env (abspath src) (Dir t ch)))))).
Proof.
  intros Hne Hout Hin Hsrc1 Hparent1 Hzip1. cbv zeta.
  rewrite (bind_ok _ _ w1 true w1)
    by (rewrite os_path_isdir_eq; unfold isdir; now rewrite Hsrc1).
  unfold negb. cbv iota.
  rewrite (bind_ok _ _ _ _ _ (zipfile_open_ok env zip_path w1 Hparent1 Hzip1)).
  set (w2 := mkWorld _ (drive w1) (trace w1)).
  rewrite (bind_ok _ _ w2 (fs w2) w2) by reflexivity.
  assert (Htree : lookup (abspath src) (fs w2) = Some (Dir t ch)).
  { unfold w2. simpl. rewrite lookup_store_other; assumption. }
  rewrite Htree.
  assert (Hz2 : lookup zip_path (fs w2) = Some (File (clock env) (ZipArchive []))).
  { unfold w2. simpl. apply lookup_store_some; assumption. }
  destruct (write_steps_outcome cfg env zip_path (abspath src) Hne
              (os_walk (kept_folder cfg) (unlistable env (abspath src)) (abspath src) (Dir t ch))
              w2 (clock env) [] Hz2) as (w3 & Hrun & Hl3).
  fold (write_plan cfg env (abspath src) (Dir t ch)) in Hrun, Hl3.
  unfold write_file in Hrun. cbv zeta in Hrun.
  rewrite app_nil_l in Hl3.
  destruct (written env (write_plan cfg env (abspath src) (Dir t ch))) as [ms [e |]];
    cbn [fst snd] in *.
  - rewrite (bind_raise _ _ _ _ _ Hrun). now exists w3.
  - rewrite (bind_ok _ _ _ _ _ Hrun).
    rewrite (bind_ok _ _ w3 tt w3)
      by (unfold os_path_getsize, bind, get_fs; simpl; now rewrite Hl3).
    eexists. split; [reflexivity |]. cbn [fs snd]. exact Hl3.
Qed.

(** What a call of [custom_zip_folder] on an existing source does, in
    terms of the reads that succeed. *)
Lemma custom_zip_folder_outcome cfg env src zip_path w t ch :
  lookup (abspath src) (fs w) = Some (Dir t ch) ->
  isdir (parent zip_path) (fs w) = true ->
  isdir zip_path (fs w) = false ->
  (forall r, zip_path <> abspath src ++ r) ->
  exists w2,
    custom_zip_folder cfg env src zip_path w
    = (match snd (written env (write_plan cfg env (abspath src) (Dir t ch))) with
       | None => Ok tt
       | Some e => Raise e
       end, w2) /\
    lookup zip_path (fs w2)
    = Some (File (clock env)
              (ZipArchive
                 (fst (written env (write_plan cfg env (abspath src) (Dir t ch)))))).
Proof.
  intros Hsrc Hparent Hzip Hout.
  assert (Hne : zip_path <> []).
  { intros ->. destruct (abspath src) as [| c p] eqn:Ha.
    - now apply (Hout []).
    - destruct (fs w); [discriminate Hsrc | discriminate Hzip]. }
  assert (Hin : forall r, abspath src <> zip_path ++ r).
  { intros [| d r] Hr.
    - apply (Hout []). now rewrite Hr, !app_nil_r.
    - rewrite Hr in Hsrc. apply lookup_through in Hsrc;
        [congruence | discriminate]. }
  unfold custom_zip_folder.
  rewrite (bind_ok _ _ w tt
             (mkWorld (fs w) (drive w)
                (trace w ++ [Log INFO ("📦 Zipping '" ++ path_str src ++ "' → '"
                                       ++ path_str zip_path ++ "'")%string])))
    by reflexivity.
  set (w0 := mkWorld (fs w) (drive w) _).
  rewrite (bind_ok _ _ w0 (exists_ zip_path (fs w)) w0) by reflexivity.
  destruct (lookup zip_path (fs w)) as [[tz dz | tz chz] |] eqn:Hlz.
  - assert (Hex : exists_ zip_path (fs w) = true)
      by (unfold exists_; now rewrite Hlz).
    rewrite Hex.
    set (w1 := mkWorld (store zip_path None (fs w)) (drive w)
                 (trace w0 ++ [Log DEBUG "🗑️ Ancien zip supprimé"])).
    rewrite (bind_ok _ _ w0 tt w1).
    2: { rewrite (bind_ok _ _ w0 tt
                    (mkWorld (store zip_path None (fs w)) (drive w) (trace w0)));
         [reflexivity | now apply (os_remove_file zip_path w0 tz dz)]. }
    apply (custom_zip_folder_rest_outcome cfg env src zip_path t ch w1);
      try assumption.
    + simpl. rewrite lookup_store_other; assumption.
    + simpl. apply store_none_dirs_preserved; assumption.
    + simpl. unfold isdir. now rewrite lookup_store_none.
  - unfold isdir in Hzip. rewrite Hlz in Hzip. discriminate.
  - assert (Hex : exists_ zip_path (fs w) = false)
      by (unfold exists_; now rewrite Hlz).
    rewrite Hex.
    rewrite (bind_ok _ _ w0 tt w0) by reflexivity.
    apply (custom_zip_folder_rest_outcome cfg env src zip_path t ch w0);
      assumption.
Qed.

(** Every planned read is of an archived file, at its place under the
    source. *)
Lemma write_plan_paths cfg env abs_src tree q m :
  In (q, m) (write_plan cfg env abs_src tree) ->
  q = abs_src ++ fst m /\ In m (filter (archived cfg env) (all_files [] tree)).
Proof.
  intros Hin. split.
  - unfold write_plan in Hin. apply in_flat_map in Hin.
    destruct Hin as ([[root dirs] files] & Hstep & Hw).
    pose proof (walk_visits cfg env abs_src [] tree eq_refl) as Hv.
    rewrite app_nil_r in Hv. rewrite Forall_forall in Hv.
    destruct (Hv _ Hstep) as (rel & Hroot & _). simpl in Hroot. subst root.
    simpl in Hw. apply in_flat_map in Hw. destruct Hw as (f & _ & Hf).
    destruct (excluded_file cfg (fst f)); [contradiction |].
    destruct Hf as [Hf | []]. inversion Hf; subst. simpl.
    rewrite join_app, relpath_app by (unfold join; now destruct rel).
    reflexivity.
  - rewrite <- (zip_members_archived cfg env abs_src), <- write_plan_members.
    change m with (snd (q, m)). now apply in_map.
Qed.



(** X9: only the files that are archived are read.  With an archive
    path outside the source where nothing is yet, when each file that is
    under no excluded folder and no directory that cannot be listed, and
    has no excluded extension, can be read, the call returns with the
    archive of exactly those files, whatever would happen on reading any
    other file. *)
Theorem custom_zip_folder_reads_archived_only cfg env src zip_path w t ch :
  lookup (abspath src) (fs w) = Some (Dir t ch) ->
  isdir (parent zip_path) (fs w) = true ->
  lookup zip_path (fs w) = None ->
  (forall r, zip_path <> abspath src ++ r) ->
  (forall m, In m (filter (archived cfg env) (all_files [] (Dir t ch))) ->
             zip_write_error env (abspath src ++ fst m) = None) ->
  let r := custom_zip_folder cfg env src zip_path w in
  fst r = Ok tt /\
  lookup zip_path (fs (snd r))
  = Some (File (clock env)
            (ZipArchive (filter (archived cfg env) (all_files [] (Dir t ch))))).
Proof.
  intros Hsrc Hparent Hfree Hout Hreads r.
  assert (Hzip : isdir zip_path (fs w) = false)
    by (unfold isdir; now rewrite Hfree).
  destruct (custom_zip_folder_outcome cfg env src zip_path w t ch
              Hsrc Hparent Hzip Hout) as (w2 & Hrun & Hl).
  rewrite written_all_readable in Hrun, Hl.
  2, 3: (intros q m Hin; apply write_plan_paths in Hin;
         destruct Hin as [-> Hm]; now apply Hreads).
  subst r. rewrite Hrun. cbn [fst snd] in *.
  split; [reflexivity |].
  now rewrite write_plan_members, zip_members_archived in Hl.
Qed.

Lemma custom_zip_folder_reads_archived_only_witness :
  let env := demo_env_unreadable ["srv"; "bot"; "node_modules"; "x.js"]
               permission_denied in
  let zip_path := ["srv"; "backup"; "new.zip"] in
  let r := custom_zip_folder demo_cfg env ["srv"; "bot"] zip_path demo_world in
  fst r = Ok tt /\
  lookup zip_path (fs (snd r))
  = Some (File 100 (ZipArchive [(["a.txt"], Raw "A");
                                (["sub"; "c.txt"], Raw "C")])).
Proof.
  cbv zeta.
  apply (custom_zip_folder_reads_archived_only demo_cfg
           (demo_env_unreadable ["srv"; "bot"; "node_modules"; "x.js"]
              permission_denied)
           ["srv"; "bot"] ["srv"; "backup"; "new.zip"] demo_world 0
           [("a.txt", File 0 (Raw "A"));
            ("b.log", File 0 (Raw "B"));
            ("node_modules", Dir 0 [("x.js", File 0 (Raw "X"))]);
            ("sub", Dir 0 [("c.txt", File 0 (Raw "C"));
                           ("node_modules", Dir 0 [("y.js", File 0 (Raw "Y"))]);
                           ("d.log", File 0 (Raw "D"))])]).
  - reflexivity.
  - reflexivity.
  - reflexivity.
  - intros r Hr. discriminate Hr.
  - intros m [<- | [<- | []]]; reflexivity.
Defined.

Lemma endswith_empty (s : string) : Py.endswith s EmptyString = true.
Proof. apply endswith_iff. exists s. induction s; simpl; congruence. Qed.

(** X10: an empty string among [excluded_extensions] excludes every file,
    since every name ends with it: the call returns and the archive it
    leaves has no member, without any file being read. *)
Theorem empty_extension_excludes_everything cfg env src zip_path w t ch :
  In EmptyString (excluded_extensions cfg) ->
  lookup (abspath src) (fs w) = Some (Dir t ch) ->
  isdir (parent zip_path) (fs w) = true ->
  isdir zip_path (fs w) = false ->
  (forall r, zip_path <> abspath src ++ r) ->
  let r := custom_zip_folder cfg env src zip_path w in
  fst r = Ok tt /\
  lookup zip_path (fs (snd r)) = Some (File (clock env) (ZipArchive [])).
Proof.
  intros Hext Hsrc Hparent Hzip Hout r.
  assert (Hnone : filter (archived cfg env) (all_files [] (Dir t ch)) = []).
  { induction (all_files [] (Dir t ch)) as [| m l IH]; [reflexivity |].
    simpl. unfold archived at 1, has_excluded_extension.
    replace (existsb _ (excluded_extensions cfg)) with true;
      [now rewrite andb_false_r |].
    symmetry. apply existsb_exists. exists EmptyString.
    split; [exact Hext | apply endswith_empty]. }
  assert (Hplan : write_plan cfg env (abspath src) (Dir t ch) = []).
  { apply (map_eq_nil snd).
    now rewrite write_plan_members, zip_members_archived. }
  destruct (custom_zip_folder_outcome cfg env src zip_path w t ch
              Hsrc Hparent Hzip Hout) as (w2 & Hrun & Hl).
  rewrite Hplan in Hrun, Hl. subst r. rewrite Hrun. cbn [fst snd] in *.
  split; [reflexivity | exact Hl].
Qed.

Lemma empty_extension_excludes_everything_witness :
  let cfg := demo_cfg_excluding [".log"; EmptyString] [] in
  let env := demo_env_unreadable ["srv"; "bot"; "a.txt"] permission_denied in
  let zip_path := ["srv"; "backup"; "new.zip"] in
  let r := custom_zip_folder cfg env ["srv"; "bot"] zip_path demo_world in
  fst r = Ok tt /\
  lookup zip_path (fs (snd r)) = Some (File 100 (ZipArchive [])).
Proof.
  cbv zeta.
  apply (empty_extension_excludes_everything
           (demo_cfg_excluding [".log"; EmptyString] [])
           (demo_env_unreadable ["srv"; "bot"; "a.txt"] permission_denied)
           ["srv"; "bot"] ["srv"; "backup"; "new.zip"] demo_world 0
           [("a.txt", File 0 (Raw "A"));
            ("b.log", File 0 (Raw "B"));
            ("node_modules", Dir 0 [("x.js", File 0 (Raw "X"))]);
            ("sub", Dir 0 [("c.txt", File 0 (Raw "C"));
                           ("node_modules", Dir 0 [("y.js", File 0 (Raw "Y"))]);
                           ("d.log", File 0 (Raw "D"))])]).
  - right. left. reflexivity.
  - reflexivity.
  - reflexivity.
  - reflexivity.
  - intros r Hr. discriminate Hr.
Defined.

(** X11: the members of the archive, names and contents, depend on the
    tree of the source folder only, not on where that folder is: member
    names are relative to the source. *)
Theorem archive_independent_of_source_location cfg env (a b : path)
    (tree : Node) :
  zip_members cfg env a tree = zip_members cfg env b tree /\
  map snd (write_plan cfg env a tree) = map snd (write_plan cfg env b tree).
Proof.
  rewrite !write_plan_members, !zip_members_archived. split; reflexivity.
Qed.

(** ** What a cycle leaves alone *)

Lemma apart_below (root q r : path) :
  apart q root ->
  (forall r', root ++ r <> q ++ r') /\ (forall r', q <> (root ++ r) ++ r').
Proof.
  intros [Hq Hroot]. split.
  - intros r' H. apply app_eq_app in H.
    destruct H as (l & [[H _] | [H _]]).
    + now apply (Hroot l).
    + now apply (Hq l).
  - intros r' H. apply (Hq (r ++ r')). now rewrite app_assoc.
Qed.

Lemma lookup_store_below (root r q : path) (v : option Node) (n : Node) :
  apart q root -> lookup q (store (root ++ r) v n) = lookup q n.
Proof.
  intros Ha. destruct (apart_below root q r Ha) as [H1 H2].
  now apply lookup_store_other.
Qed.

Lemma makedirs_lookup_other (t : Z) (p q : path) (n n' : Node) :
  makedirs t p n = Ok n' ->
  (forall r, p <> q ++ r) -> (forall r, q <> p ++ r) ->
  lookup q n' = lookup q n.
Proof.
  revert q n n'. induction p as [| c p IH]; intros q n n' Hmk Hpq Hqp.
  - exfalso. now apply (Hqp q).
  - destruct q as [| d q]; [exfalso; now apply (Hpq (c :: p)) |].
    destruct n as [tn x | tn ch]; simpl in Hmk; [discriminate |].
    destruct (makedirs t p
                (match get_child c ch with Some m => m | None => Dir t [] end))
      as [m' | e] eqn:Hrec; [| discriminate].
    inversion Hmk; subst; clear Hmk.
    rewrite !lookup_cons.
    destruct (String.eqb_spec d c) as [-> | Hne].
    + rewrite get_put_same.
      assert (Hq : lookup q m'
                   = lookup q (match get_child c ch with
                               | Some m => m
                               | None => Dir t []
                               end)).
      { apply (IH q _ _ Hrec).
        - intros r Hr. apply (Hpq r). simpl. now rewrite Hr.
        - intros r Hr. apply (Hqp r). simpl. now rewrite Hr. }
      rewrite Hq. destruct (get_child c ch) as [m |]; [reflexivity |].
      destruct q as [| d q]; [| reflexivity].
      exfalso. now apply (Hpq p).
    + now rewrite get_put_other.
Qed.

#[local] Instance same_fs_preorder : PreOrder same_fs.
Proof.
  split.
  - intros w. reflexivity.
  - intros a b c H1 H2. unfold same_fs in *. congruence.
Qed.

Lemma same_fs_emit (e : Event) : steps same_fs (emit e).
Proof. intros w. reflexivity. Qed.

Lemma same_fs_log lvl msg : steps same_fs (log lvl msg).
Proof. intros w. reflexivity. Qed.

Lemma same_fs_set_drive d : steps same_fs (set_drive d).
Proof. intros w. reflexivity. Qed.

#[local] Hint Resolve same_fs_emit same_fs_log same_fs_set_drive : steps.

Lemma same_fs_delete_old_backups_by_count cfg env :
  steps same_fs (delete_old_backups_by_count cfg env).
Proof.
  unfold delete_old_backups_by_count, drive_files_list, drive_files_delete.
  steps_tac.
Qed.

Lemma same_fs_authenticate cfg env : steps same_fs (authenticate cfg env).
Proof. unfold authenticate. steps_tac. Qed.

Lemma same_fs_build env creds : steps same_fs (build env creds).
Proof. unfold build. steps_tac. Qed.

Lemma same_fs_create_drive_folder cfg env folder_name :
  steps same_fs (create_drive_folder cfg env folder_name).
Proof. unfold create_drive_folder. steps_tac. Qed.

Lemma same_fs_upload_file_to_folder cfg env folder_id file_path :
  steps same_fs (upload_file_to_folder cfg env folder_id file_path).
Proof. unfold upload_file_to_folder. steps_tac. Qed.

#[local] Instance same_outside_preorder (root : path) : PreOrder (same_outside root).
Proof.
  split.
  - intros w q _. reflexivity.
  - intros a b c H1 H2 q Hq. now rewrite (H2 q Hq), (H1 q Hq).
Qed.

Section Outside.
Variable root : path.

Lemma same_fs_outside (w w' : World) : same_fs w w' -> same_outside root w w'.
Proof. intros H q _. now rewrite H. Qed.

Lemma same_outside_of_same_fs {A : Type} (m : M A) :
  steps same_fs m -> steps (same_outside root) m.
Proof. intros H w. apply same_fs_outside, H. Qed.

Lemma same_outside_emit (e : Event) : steps (same_outside root) (emit e).
Proof. apply same_outside_of_same_fs, same_fs_emit. Qed.

Lemma same_outside_log lvl msg : steps (same_outside root) (log lvl msg).
Proof. apply same_outside_emit. Qed.

Lemma same_outside_os_path_exists p :
  steps (same_outside root) (os_path_exists p).
Proof. unfold os_path_exists. steps_tac. Qed.

Lemma same_outside_os_path_isdir p :
  steps (same_outside root) (os_path_isdir p).
Proof. unfold os_path_isdir. steps_tac. Qed.

Lemma same_outside_os_path_getsize p :
  steps (same_outside root) (os_path_getsize p).
Proof. unfold os_path_getsize. steps_tac. Qed.

Lemma same_outside_set_fs_store r v n w :
  n = fs w -> same_outside root w (snd (set_fs (store (root ++ r) v n) w)).
Proof. intros -> q Hq. simpl. now apply lookup_store_below. Qed.

Lemma same_outside_os_remove r :
  steps (same_outside root) (os_remove (root ++ r)).
Proof.
  intros w. unfold os_remove, bind, get_fs.
  destruct (lookup (root ++ r) (fs w)) as [[t d | t ch] |];
    try (apply same_fs_outside; reflexivity).
  now apply same_outside_set_fs_store.
Qed.

Lemma same_outside_os_makedirs env r :
  steps (same_outside root) (os_makedirs env (root ++ r)).
Proof.
  intros w. unfold os_makedirs, bind, get_fs. simpl.
  destruct (makedirs (clock env) (root ++ r) (fs w)) as [n' | e] eqn:Hmk;
    simpl; [| apply same_fs_outside; reflexivity].
  intros q Hq. simpl. destruct (apart_below root q r Hq) as [H1 H2].
  eapply makedirs_lookup_other; eassumption.
Qed.

Lemma same_outside_zipfile_open env r :
  steps (same_outside root) (zipfile_open env (root ++ r)).
Proof.
  intros w. unfold zipfile_open, bind, get_fs. simpl.
  destruct (isdir (parent (root ++ r)) (fs w)); simpl; [| apply same_fs_outside; reflexivity].
  destruct (isdir (root ++ r) (fs w)); simpl; [apply same_fs_outside; reflexivity |].
  intros q Hq. simpl. now apply lookup_store_below.
Qed.

Lemma same_outside_z_write env r f a d :
  steps (same_outside root) (z_write env (root ++ r) f a d).
Proof.
  intros w. unfold z_write, bind, get_fs, fail_if.
  destruct (zip_write_error env f); simpl; [apply same_fs_outside; reflexivity |].
  destruct (lookup (root ++ r) (fs w)); simpl; [| apply same_fs_outside; reflexivity].
  intros q Hq. simpl. now apply lookup_store_below.
Qed.

Lemma same_outside_shutil_rmtree env r :
  steps (same_outside root) (shutil_rmtree env (root ++ r)).
Proof.
  intros w. unfold shutil_rmtree, bind, get_fs, fail_if, emit.
  destruct (rmtree_error env (root ++ r)); simpl; [apply same_fs_outside; reflexivity |].
  destruct (lookup (root ++ r) (fs w)) as [[t d | t ch] |]; simpl;
    try (apply same_fs_outside; reflexivity).
  intros q Hq. simpl. now apply lookup_store_below.
Qed.

#[local] Hint Resolve same_outside_emit same_outside_log
  same_outside_os_path_exists same_outside_os_path_isdir
  same_outside_os_path_getsize same_outside_os_remove
  same_outside_os_makedirs same_outside_zipfile_open same_outside_z_write
  same_outside_shutil_rmtree : steps.

Lemma same_outside_custom_zip_folder cfg env src r :
  steps (same_outside root) (custom_zip_folder cfg env src (root ++ r)).
Proof. unfold custom_zip_folder. steps_tac. Qed.

Lemma same_outside_archive_and_upload cfg env r :
  steps (same_outside root) (archive_and_upload cfg env (root ++ r)).
Proof.
  unfold archive_and_upload.
  apply steps_bind; [apply same_outside_custom_zip_folder | intros _].
  apply steps_bind;
    [apply same_outside_of_same_fs, same_fs_authenticate | intros creds].
  apply steps_bind;
    [apply same_outside_of_same_fs, same_fs_build | intros _].
  apply steps_bind;
    [apply same_outside_of_same_fs, same_fs_create_drive_folder | intros i].
  apply steps_bind;
    [apply same_outside_of_same_fs, same_fs_upload_file_to_folder | intros _].
  apply steps_ret.
Qed.
End Outside.

(** The local pass removes under its root only. *)
Lemma same_outside_clean_local_backups cfg env :
  steps (same_outside (local_backup_root cfg)) (clean_local_backups cfg env).
Proof.
  intros w.
  destruct (local_entries (local_backup_root cfg) w) as [[entries | e] w1]
    eqn:Hent.
  - rewrite (clean_local_backups_loop cfg env w entries w1 Hent).
    pose proof (local_entries_paths _ _ _ _ Hent) as Hpaths.
    apply (@steps_for_each (same_outside (local_backup_root cfg)) _ path).
    intros old Hold.
    assert (Hin : In old (map fst entries)).
    { apply in_map_iff in Hold. destruct Hold as (x & <- & Hx).
      apply in_map, (select_local_incl _ _ _ Hx). }
    destruct (Hpaths old Hin) as (_ & d & ->). unfold join.
    apply steps_bind; [apply same_outside_shutil_rmtree | intros _].
    apply same_outside_log.
  - unfold clean_local_backups. rewrite (bind_raise _ _ _ _ _ Hent).
    apply local_entries_reads in Hent. subst w1. simpl. reflexivity.
Qed.

(** A cycle writes and removes under its backup root only. *)
Lemma same_outside_do_backup cfg env :
  steps (same_outside (local_backup_root cfg)) (do_backup cfg env).
Proof.
  unfold do_backup. cbv zeta. unfold join. rewrite <- app_assoc.
  apply steps_bind; [apply same_outside_os_makedirs | intros _].
  apply steps_bind; [apply same_outside_log | intros _].
  apply steps_bind; [| intros _; apply same_outside_log].
  apply steps_try.
  - apply steps_bind; [apply same_outside_archive_and_upload | intros _].
    apply steps_bind; [| intros _].
    + unfold nettoyages. apply steps_bind; [| intros _].
      * apply same_outside_clean_local_backups.
      * apply same_outside_of_same_fs, same_fs_delete_old_backups_by_count.
    + unfold bilan. apply steps_bind;
        [apply same_outside_os_path_getsize | intros _; apply same_outside_log].
  - intros e. apply steps_bind; intros; apply same_outside_log.
Qed.

(** X12: a cycle changes nothing of the file system outside the local
    backup root.  With a [zip_prefix] that is a plain name, so that the
    archive is made in the dated folder, whatever the cycle does, at a
    path that is neither under [local_backup_root] nor on the way to it,
    there is after the cycle what was there before it.  A source folder
    apart from the backup root is therefore left as it was, with all it
    contains. *)
Theorem do_backup_writes_under_backup_root cfg env w q :
  plain_name (zip_prefix cfg) = true ->
  apart q (local_backup_root cfg) ->
  lookup q (fs (snd (do_backup cfg env w))) = lookup q (fs w).
Proof. intros _ Hq. now apply (same_outside_do_backup cfg env w). Qed.

Lemma do_backup_writes_under_backup_root_witness :
  lookup ["srv"; "bot"]
    (fs (snd (do_backup demo_cfg (demo_env None no_error no_error) demo_world)))
  = Some demo_source.
Proof.
  rewrite (do_backup_writes_under_backup_root demo_cfg
             (demo_env None no_error no_error) demo_world ["srv"; "bot"]).
  - reflexivity.
  - reflexivity.
  - split; intros r Hr; discriminate Hr.
Defined.

(** ** The records of a cycle *)

(** What [do_backup] does once the dated folder is there, in terms of
    what its [try] block does. *)
Lemma do_backup_run cfg env w n' :
  makedirs (clock env) (local_folder_of cfg env) (fs w) = Ok n' ->
  try_block_start cfg env w
  = mkWorld n' (drive w) (trace w ++ [Log INFO debut_de_cycle]) /\
  do_backup cfg env w
  = (Ok tt,
     let w1 := snd (try_block cfg env (try_block_start cfg env w)) in
     mkWorld (fs w1) (drive w1)
       (trace w1 ++
        match fst (try_block cfg env (try_block_start cfg env w)) with
        | Ok _ => [Log INFO fin_de_cycle]
        | Raise e => [erreur_pendant_le_backup e;
                      Log DEBUG ("Traceback: " ++ exc_msg e)%string;
                      Log INFO fin_de_cycle]
        end)).
Proof.
  intros Hmk.
  pose proof (os_makedirs_ok env _ w n' Hmk) as Hmk'.
  assert (Hstart : try_block_start cfg env w
                   = mkWorld n' (drive w) (trace w ++ [Log INFO debut_de_cycle])).
  { rewrite (try_block_start_eq cfg env w _ Hmk'). reflexivity. }
  split; [exact Hstart |].
  rewrite Hstart. unfold do_backup. cbv zeta.
  change (join (local_backup_root cfg) (local_name (now env)))
    with (local_folder_of cfg env).
  change (join (local_folder_of cfg env)
            (zip_name (zip_prefix cfg) (utcnow env)))
    with (zip_path_of cfg env).
  rewrite (bind_ok _ _ _ _ _ Hmk').
  rewrite (bind_ok _ _ (mkWorld n' (drive w) (trace w)) tt
             (mkWorld n' (drive w) (trace w ++ [Log INFO debut_de_cycle])))
    by reflexivity.
  fold (try_block cfg env).
  destruct (try_block cfg env
              (mkWorld n' (drive w) (trace w ++ [Log INFO debut_de_cycle])))
    as [[[] | e] w1] eqn:Hbody; cbn [fst snd].
  - rewrite (bind_ok _ _ _ tt w1) by (now apply try_except_ok).
    reflexivity.
  - rewrite (bind_ok _ _ _ tt
               (mkWorld (fs w1) (drive w1)
                  (trace w1 ++ [erreur_pendant_le_backup e;
                                Log DEBUG ("Traceback: " ++ exc_msg e)%string]))).
    + unfold log, emit. cbn [fs drive trace]. now rewrite <- app_assoc.
    + rewrite (try_except_raise _ _ _ _ _ Hbody).
      unfold bind, log, emit, erreur_pendant_le_backup. cbn [fs drive trace].
      now rewrite <- app_assoc.
Qed.

Lemma try_block_ok cfg env w0 w1 :
  try_block cfg env w0 = (Ok tt, w1) ->
  exists evs, trace w1 = trace w0 ++ evs ++ [Log INFO "🎉 BACKUP OK"].
Proof.
  unfold try_block. intros H.
  assert (Ha : extends (fun _ => True) w0
                 (snd (archive_and_upload cfg env (zip_path_of cfg env) w0)))
    by (apply extends_archive_and_upload; trivial).
  unfold bind at 1 in H.
  destruct (archive_and_upload cfg env (zip_path_of cfg env) w0)
    as [[[] | e1] wa]; cbv beta iota in H; [| discriminate H].
  assert (Hn : extends (fun _ => True) wa (snd (nettoyages cfg env wa)))
    by (apply extends_nettoyages; trivial).
  unfold bind at 1 in H.
  destruct (nettoyages cfg env wa) as [[[] | e2] wb]; cbv beta iota in H;
    [| discriminate H].
  unfold bilan, os_path_getsize, log, emit, bind, get_fs in H.
  cbn [fst snd] in *.
  destruct (lookup (zip_path_of cfg env) (fs wb));
    unfold raise, ret in H; cbv beta iota in H; [| discriminate H].
  inversion H; subst; clear H.
  destruct Ha as (ea & Ha & _), Hn as (en & Hn & _).
  exists (ea ++ en). cbn [trace]. rewrite Hn, Ha, <- !app_assoc. reflexivity.
Qed.

Lemma quiet_try_block cfg env : steps (extends not_an_error) (try_block cfg env).
Proof.
  unfold try_block, archive_and_upload, nettoyages, bilan, custom_zip_folder,
    authenticate, build, create_drive_folder, upload_file_to_folder,
    clean_local_backups, local_entries, delete_old_backups_by_count,
    shutil_rmtree, drive_files_list, drive_files_delete, os_path_exists,
    os_path_isdir, os_remove, os_listdir, os_path_getctime, os_path_getsize,
    zipfile_open, z_write.
  steps_tac; exact I.
Qed.

(** X13: the log tells how a cycle went.  Once the dated folder is there,
    a cycle logs a record of level ERROR exactly when a step of its [try]
    block raised, and that record is the one of the handler, with the
    message of the exception; a cycle all of whose steps returned logs no
    record of level ERROR and logs the success line. *)
Theorem do_backup_logs_error_iff_step_raises cfg env w n' :
  makedirs (clock env) (local_folder_of cfg env) (fs w) = Ok n' ->
  let evs := events_since w (snd (do_backup cfg env w)) in
  match fst (try_block cfg env (try_block_start cfg env w)) with
  | Ok _ =>
      (forall msg, ~ In (Log ERROR msg) evs) /\
      In (Log INFO "🎉 BACKUP OK") evs
  | Raise e =>
      forall msg, In (Log ERROR msg) evs <->
                  msg = ("❌ ERREUR pendant le backup : " ++ exc_msg e)%string
  end.
Proof.
  intros Hmk evs.
  destruct (do_backup_run cfg env w n' Hmk) as [Hstart Hrun].
  pose proof (quiet_try_block cfg env (try_block_start cfg env w)) as Hq.
  destruct Hq as (body & Hbody & Hquiet).
  assert (Hevs : evs = Log INFO debut_de_cycle :: body ++
            match fst (try_block cfg env (try_block_start cfg env w)) with
            | Ok _ => [Log INFO fin_de_cycle]
            | Raise e => [erreur_pendant_le_backup e;
                          Log DEBUG ("Traceback: " ++ exc_msg e)%string;
                          Log INFO fin_de_cycle]
            end).
  { subst evs. apply events_since_app. rewrite Hrun. cbn [snd trace].
    rewrite Hbody, Hstart. cbn [trace]. now rewrite <- !app_assoc. }
  rewrite Forall_forall in Hquiet.
  destruct (fst (try_block cfg env (try_block_start cfg env w))) as [[] | e]
    eqn:Hres.
  - split.
    + intros msg Hin. rewrite Hevs in Hin.
      destruct Hin as [Hin | Hin]; [discriminate Hin |].
      apply in_app_iff in Hin. destruct Hin as [Hin | [Hin | []]];
        [apply (Hquiet _ Hin) | discriminate Hin].
    + destruct (try_block cfg env (try_block_start cfg env w))
        as [r w1] eqn:Hb. cbn [fst snd] in *. subst r.
      destruct (try_block_ok cfg env _ _ Hb) as (evs' & Htr).
      rewrite Hbody in Htr. apply app_inv_head in Htr.
      rewrite Hevs, Htr. right. apply in_or_app. left.
      apply in_or_app. right. now left.
  - intros msg. rewrite Hevs. split.
    + intros [Hin | Hin]; [discriminate Hin |].
      apply in_app_iff in Hin. destruct Hin as [Hin | Hin];
        [destruct (Hquiet _ Hin) |].
      destruct Hin as [Hin | [Hin | [Hin | []]]];
        [now inversion Hin | discriminate Hin | discriminate Hin].
    + intros ->. right. apply in_or_app. right. now left.
Qed.

Lemma do_backup_logs_error_iff_step_raises_witness :
  let env := demo_env (Some bad_credentials) no_error no_error in
  let evs := events_since demo_world (snd (do_backup demo_cfg env demo_world)) in
  In (Log ERROR ("❌ ERREUR pendant le backup : " ++ exc_msg bad_credentials))
    evs /\
  ~ In (Log ERROR "💥") evs.
Proof.
  cbv zeta.
  destruct (makedirs 100
              (local_folder_of demo_cfg
                 (demo_env (Some bad_credentials) no_error no_error))
              (fs demo_world)) as [n' | e] eqn:Hmk;
    [| vm_compute in Hmk; discriminate Hmk].
  pose proof (do_backup_logs_error_iff_step_raises demo_cfg
                (demo_env (Some bad_credentials) no_error no_error)
                demo_world n' Hmk) as H.
  cbv zeta in H.
  change (forall msg,
             In (Log ERROR msg)
               (events_since demo_world
                  (snd (do_backup demo_cfg
                          (demo_env (Some bad_credentials) no_error no_error)
                          demo_world))) <->
             msg = ("❌ ERREUR pendant le backup : "
                    ++ exc_msg bad_credentials)%string) in H.
  split.
  - apply H. reflexivity.
  - intros Hin. apply H in Hin. discriminate Hin.
Defined.

(** ** A cycle that keeps no local backup *)

Lemma lookup_app (p r : path) (n : Node) :
  lookup (p ++ r) n
  = match lookup p n with
    | Some m => lookup r m
    | None => None
    end.
Proof.
  revert n. induction p as [| c p IH]; intros n; [reflexivity |].
  destruct n as [t d | t ch]; [reflexivity |].
  simpl app. rewrite !lookup_cons.
  destruct (get_child c ch) as [m |]; [apply IH | reflexivity].
Qed.

Lemma get_child_In (c : string) (ch : Children) (m : Node) :
  get_child c ch = Some m -> In c (map fst ch).
Proof.
  induction ch as [| [c' m'] ch IH]; simpl; [discriminate |].
  destruct (String.eqb_spec c' c) as [-> | Hne]; [now left |].
  intros H. right. now apply IH.
Qed.

(** Removing something brings nothing back. *)
Lemma lookup_store_none_stays (y p : path) (n : Node) :
  lookup p n = None -> lookup p (store y None n) = None.
Proof.
  revert p n. induction y as [| c y IH]; intros p n Hl.
  - destruct n; exact Hl.
  - destruct n as [t x | t ch]; [exact Hl |].
    destruct p as [| d p]; [discriminate Hl |].
    rewrite lookup_cons in Hl.
    destruct y as [| c' y'].
    + simpl store. rewrite lookup_cons.
      destruct (String.eqb_spec d c) as [-> | Hne].
      * now rewrite get_del_same.
      * now rewrite get_del_other.
    + rewrite store_cons by discriminate.
      destruct (get_child c ch) as [m |] eqn:Hget;
        [| now rewrite lookup_cons].
      rewrite lookup_cons.
      destruct (String.eqb_spec d c) as [-> | Hne].
      * rewrite get_put_same. rewrite Hget in Hl. now apply IH.
      * now rewrite get_put_other.
Qed.

(** The listing holds every directory that stands directly under the
    root. *)
Lemma local_entries_complete root w entries w1 d :
  local_entries root w = (Ok entries, w1) ->
  isdir (join root d) (fs w) = true ->
  In (join root d) (map fst entries).
Proof.
  intros H Hdir. unfold local_entries in H. unfold bind at 1 in H.
  destruct (os_listdir root w) as [[names | e] w2] eqn:Hls; [| discriminate].
  unfold os_listdir, bind, get_fs in Hls. cbn [fst snd] in Hls.
  destruct (lookup root (fs w)) as [[t x | t ch] |] eqn:Hroot;
    try discriminate Hls.
  unfold ret in Hls. injection Hls as <- <-.
  rewrite (bind_ok _ _ w (fs w) w) in H by reflexivity.
  apply map_m_getctime_paths in H.
  cut (In (join root d)
         (filter (fun q => isdir q (fs w)) (map (join root) (map fst ch))));
    [intros Hc; rewrite <- H in Hc; exact Hc |].
  apply filter_In. split; [| exact Hdir].
  apply in_map. unfold isdir, join in Hdir.
  rewrite lookup_app, Hroot, lookup_cons in Hdir.
  destruct (get_child d ch) as [m |] eqn:Hget; [| discriminate Hdir].
  eapply get_child_In, Hget.
Qed.

Lemma rmtree_body_ok env (old : path) w w' :
  (shutil_rmtree env old ;;
   log INFO ("🗑️ Supprimé local : " ++ path_str old)%string) w = (Ok tt, w') ->
  fs w' = store old None (fs w).
Proof.
  intros H.
  unfold shutil_rmtree, log, emit, fail_if, bind, get_fs, set_fs in H.
  destruct (rmtree_error env old); [discriminate H |].
  unfold raise, ret in H. cbn [fst snd fs] in H.
  destruct (lookup old (fs w)) as [[t d | t ch] |]; try discriminate H.
  inversion H. reflexivity.
Qed.

(** When the loop of the local pass returns, nothing is left of what it
    went through. *)
Lemma rmtree_loop_removes env (xs : list path) w w' p :
  for_each xs
    (fun old =>
       shutil_rmtree env old ;;
       log INFO ("🗑️ Supprimé local : " ++ path_str old)%string) w = (Ok tt, w') ->
  In p xs -> p <> [] -> lookup p (fs w') = None.
Proof.
  set (body := fun old : path =>
                 shutil_rmtree env old ;;
                 log INFO ("🗑️ Supprimé local : " ++ path_str old)%string).
  assert (Hbody : forall x wa wb,
             body x wa = (Ok tt, wb) -> fs wb = store x None (fs wa))
    by (intros x wa wb; apply rmtree_body_ok).
  clearbody body. intros Hrun Hin Hne.
  assert (Hstay : forall ys wa wb,
             for_each ys body wa = (Ok tt, wb) ->
             lookup p (fs wa) = None -> lookup p (fs wb) = None).
  { induction ys as [| y ys IHy]; intros wa wb Hr Hl.
    - inversion Hr; subst. exact Hl.
    - change (for_each (y :: ys) body wa)
        with (bind (body y) (fun _ => for_each ys body) wa) in Hr.
      unfold bind in Hr.
      destruct (body y wa) as [[[] | e] wy] eqn:Hy; [| discriminate Hr].
      apply (IHy wy wb Hr). rewrite (Hbody _ _ _ Hy).
      now apply lookup_store_none_stays. }
  revert w Hrun Hin.
  induction xs as [| x xs IH]; intros w Hrun Hin; [destruct Hin |].
  change (for_each (x :: xs) body w)
    with (bind (body x) (fun _ => for_each xs body) w) in Hrun.
  unfold bind in Hrun.
  destruct (body x w) as [[[] | e] wx] eqn:Hx; [| discriminate Hrun].
  destruct (list_eq_dec string_dec x p) as [-> | Hxp].
  - apply (Hstay xs wx w' Hrun). rewrite (Hbody _ _ _ Hx).
    now apply lookup_store_none.
  - destruct Hin as [Hin | Hin]; [contradiction |]. now apply (IH wx).
Qed.

Lemma upload_ok_isfile cfg env i p w r w1 :
  upload_file_to_folder cfg env i p w = (Ok r, w1) ->
  isfile p (fs w1) = true.
Proof.
  intros H.
  pose proof (same_fs_upload_file_to_folder cfg env i p w) as Hfs.
  rewrite H in Hfs. unfold same_fs in Hfs. cbn [snd] in Hfs. rewrite Hfs.
  unfold upload_file_to_folder, log, emit, bind, get_fs in H.
  cbn [fst snd fs] in H.
  destruct (isfile p (fs w)); [reflexivity | discriminate H].
Qed.

Lemma archive_and_upload_ok_isfile cfg env zip_path w w1 :
  archive_and_upload cfg env zip_path w = (Ok tt, w1) ->
  isfile zip_path (fs w1) = true.
Proof.
  unfold archive_and_upload. intros H.
  unfold bind at 1 in H.
  destruct (custom_zip_folder cfg env (folder_to_zip cfg) zip_path w)
    as [[[] | e] wa]; cbv beta iota in H; [| discriminate H].
  unfold bind at 1 in H.
  destruct (authenticate cfg env wa) as [[creds | e] wb]; cbv beta iota in H;
    [| discriminate H].
  unfold bind at 1 in H.
  destruct (build env creds wb) as [[[] | e] wc]; cbv beta iota in H;
    [| discriminate H].
  unfold bind at 1 in H.
  destruct (create_drive_folder cfg env _ wc) as [[df_id | e] wd];
    cbv beta iota in H; [| discriminate H].
  unfold bind at 1 in H.
  destruct (upload_file_to_folder cfg env df_id zip_path wd)
    as [[fid | e] we] eqn:Hup; cbv beta iota in H; [| discriminate H].
  unfold ret in H. injection H as <-.
  eapply upload_ok_isfile, Hup.
Qed.

Lemma select_local_all (entries : list LocalEntry) (e : LocalEntry) :
  In e entries -> In e (select_local 0 entries).
Proof.
  intros H. unfold select_local. rewrite slice_from_nonneg by lia.
  simpl skipn. eapply Permutation_in; [| exact H].
  apply Permutation_sym, sort_perm.
Qed.

(** With [local_keep = 0] a local pass that returns has removed every
    directory directly under the root. *)
Lemma clean_local_backups_keep_none cfg env w w' d :
  local_keep cfg = 0 ->
  clean_local_backups cfg env w = (Ok tt, w') ->
  isdir (join (local_backup_root cfg) d) (fs w) = true ->
  lookup (join (local_backup_root cfg) d) (fs w') = None.
Proof.
  intros Hkeep Hrun Hdir.
  destruct (local_entries (local_backup_root cfg) w) as [[entries | e] w1]
    eqn:Hent.
  - rewrite (clean_local_backups_loop cfg env w entries w1 Hent) in Hrun.
    apply (rmtree_loop_removes env _ w w' _ Hrun).
    + rewrite Hkeep.
      pose proof (local_entries_complete _ _ _ _ d Hent Hdir) as Hin.
      apply in_map_iff in Hin. destruct Hin as (x & Hx & Hin).
      rewrite <- Hx. apply in_map. now apply select_local_all.
    + unfold join. now destruct (local_backup_root cfg).
  - unfold clean_local_backups in Hrun.
    rewrite (bind_raise _ _ _ _ _ Hent) in Hrun. discriminate Hrun.
Qed.

(** The [try] block cannot complete when no local backup is kept: the
    local pass then removes the archive the summary measures. *)
Lemma try_block_keep_none cfg env w0 :
  local_keep cfg = 0 ->
  forall w1 w2,
    archive_and_upload cfg env (zip_path_of cfg env) w0 = (Ok tt, w1) ->
    nettoyages cfg env w1 = (Ok tt, w2) ->
    lookup (local_folder_of cfg env) (fs w2) = None /\
    try_block cfg env w0
    = (Raise (mkExn FileNotFoundError (path_str (zip_path_of cfg env))), w2).
Proof.
  intros Hkeep w1 w2 Harch Hnet.
  pose proof (archive_and_upload_ok_isfile _ _ _ _ _ Harch) as Hfile.
  assert (Hdir : isdir (local_folder_of cfg env) (fs w1) = true).
  { unfold isfile in Hfile.
    destruct (lookup (zip_path_of cfg env) (fs w1)) as [x |] eqn:Hl;
      [| discriminate Hfile].
    unfold zip_path_of, join in Hl.
    apply lookup_through in Hl; [exact Hl | discriminate]. }
  assert (Hgone : lookup (local_folder_of cfg env) (fs w2) = None).
  { unfold nettoyages in Hnet. unfold bind at 1 in Hnet.
    destruct (clean_local_backups cfg env w1) as [[[] | e] wl] eqn:Hloc;
      cbv beta iota in Hnet; [| discriminate Hnet].
    pose proof (same_fs_delete_old_backups_by_count cfg env wl) as Hfs.
    rewrite Hnet in Hfs. unfold same_fs in Hfs. cbn [snd] in Hfs.
    rewrite Hfs.
    apply (clean_local_backups_keep_none cfg env w1 wl _ Hkeep Hloc Hdir). }
  split; [exact Hgone |].
  unfold try_block. rewrite (bind_ok _ _ _ _ _ Harch).
  rewrite (bind_ok _ _ _ _ _ Hnet).
  unfold bilan, os_path_getsize, bind, get_fs. cbn [fst snd].
  unfold zip_path_of at 1, join. rewrite lookup_app, Hgone. reflexivity.
Qed.

(** X14: with [local_keep = 0] and a [zip_prefix] that is a plain name,
    so that the archive is made in the dated folder, no cycle succeeds.
    Once the dated folder is there, a step of the [try] block raises and
    the cycle logs the error record; in particular, when the archive was
    made and uploaded and both retention passes returned, the local pass
    has removed the dated folder of the cycle itself, so the size of the
    archive cannot be read: the error logged is the [FileNotFoundError]
    of the summary, and the folder is still missing when the cycle
    ends. *)
Theorem zero_local_keep_never_succeeds cfg env w n' :
  plain_name (zip_prefix cfg) = true ->
  local_keep cfg = 0 ->
  makedirs (clock env) (local_folder_of cfg env) (fs w) = Ok n' ->
  let w' := snd (do_backup cfg env w) in
  (exists e,
      fst (try_block cfg env (try_block_start cfg env w)) = Raise e /\
      In (erreur_pendant_le_backup e) (events_since w w')) /\
  (forall w1 w2,
      archive_and_upload cfg env (zip_path_of cfg env)
        (try_block_start cfg env w) = (Ok tt, w1) ->
      nettoyages cfg env w1 = (Ok tt, w2) ->
      In (erreur_pendant_le_backup
            (mkExn FileNotFoundError (path_str (zip_path_of cfg env))))
        (events_since w w') /\
      exists_ (local_folder_of cfg env) (fs w') = false).
Proof.
  intros _ Hkeep Hmk w'.
  destruct (do_backup_run cfg env w n' Hmk) as [Hstart Hrun].
  pose proof (extends_try_block (fun _ => True) cfg env (zip_path_of cfg env)
                (fun _ _ => I) (try_block_start cfg env w)) as Hext.
  fold (try_block cfg env) in Hext. destruct Hext as (body & Hbody & _).
  assert (Hlogged : forall e,
             fst (try_block cfg env (try_block_start cfg env w)) = Raise e ->
             In (erreur_pendant_le_backup e) (events_since w w')).
  { intros e He.
    rewrite (events_since_app w w'
               (Log INFO debut_de_cycle :: body ++
                [erreur_pendant_le_backup e;
                 Log DEBUG ("Traceback: " ++ exc_msg e)%string;
                 Log INFO fin_de_cycle])).
    - right. apply in_or_app. right. now left.
    - subst w'. rewrite Hrun. cbn [snd trace]. rewrite He, Hbody, Hstart.
      cbn [trace]. now rewrite <- !app_assoc. }
  split.
  - destruct (try_block cfg env (try_block_start cfg env w)) as [[[] | e] wb]
      eqn:Hres.
    + exfalso. revert Hres. unfold try_block. unfold bind at 1.
      destruct (archive_and_upload cfg env (zip_path_of cfg env)
                  (try_block_start cfg env w)) as [[[] | e1] w1] eqn:Harch;
        cbv beta iota; [| discriminate].
      unfold bind at 1.
      destruct (nettoyages cfg env w1) as [[[] | e2] w2] eqn:Hnet;
        cbv beta iota; [| discriminate].
      destruct (try_block_keep_none cfg env _ Hkeep w1 w2 Harch Hnet)
        as [_ Htb].
      unfold try_block in Htb. rewrite (bind_ok _ _ _ _ _ Harch) in Htb.
      rewrite (bind_ok _ _ _ _ _ Hnet) in Htb. rewrite Htb. discriminate.
    + exists e. split; [reflexivity |]. now apply Hlogged.
  - intros w1 w2 Harch Hnet.
    destruct (try_block_keep_none cfg env _ Hkeep w1 w2 Harch Hnet)
      as [Hgone Htb].
    split.
    + apply Hlogged. now rewrite Htb.
    + subst w'. rewrite Hrun, Htb. cbn [fst snd fs].
      unfold exists_. now rewrite Hgone.
Qed.

Lemma zero_local_keep_never_succeeds_witness :
  let cfg := demo_cfg_keeping 0 1 in
  let env := demo_env None no_error no_error in
  let w' := snd (do_backup cfg env demo_world) in
  In (erreur_pendant_le_backup
        (mkExn FileNotFoundError (path_str (zip_path_of cfg env))))
    (events_since demo_world w') /\
  exists_ (local_folder_of cfg env) (fs w') = false.
Proof.
  cbv zeta.
  destruct (makedirs 100
              (local_folder_of (demo_cfg_keeping 0 1)
                 (demo_env None no_error no_error))
              (fs demo_world)) as [n' | e] eqn:Hmk;
    [| vm_compute in Hmk; discriminate Hmk].
  destruct (zero_local_keep_never_succeeds (demo_cfg_keeping 0 1)
              (demo_env None no_error no_error) demo_world n' eq_refl eq_refl
              Hmk)
    as [_ H].
  pose (w0 := try_block_start (demo_cfg_keeping 0 1)
                (demo_env None no_error no_error) demo_world).
  pose (w1 := snd (archive_and_upload (demo_cfg_keeping 0 1)
                     (demo_env None no_error no_error)
                     (zip_path_of (demo_cfg_keeping 0 1)
                        (demo_env None no_error no_error)) w0)).
  apply (H w1 (snd (nettoyages (demo_cfg_keeping 0 1)
                      (demo_env None no_error no_error) w1)));
    vm_compute; reflexivity.
Defined.

(** ** What a failed step leaves behind *)

Lemma bind_ok_inv {A B : Type} (m : M A) (k : A -> M B) w b w1 :
  bind m k w = (Ok b, w1) ->
  exists a w', m w = (Ok a, w') /\ k a w' = (Ok b, w1).
Proof.
  unfold bind. destruct (m w) as [[a | e] w']; intros H;
    [now exists a, w' | discriminate H].
Qed.

#[local] Instance same_drive_preorder : PreOrder same_drive.
Proof.
  split.
  - intros w. reflexivity.
  - intros a b c H1 H2. unfold same_drive in *. congruence.
Qed.

#[local] Instance drive_kept_preorder : PreOrder drive_kept.
Proof.
  split.
  - intros w. apply incl_refl.
  - intros a b c H1 H2. eapply incl_tran; eassumption.
Qed.

Lemma same_drive_emit (e : Event) : steps same_drive (emit e).
Proof. intros w. reflexivity. Qed.

Lemma same_drive_log lvl msg : steps same_drive (log lvl msg).
Proof. intros w. reflexivity. Qed.

Lemma same_drive_set_fs n : steps same_drive (set_fs n).
Proof. intros w. reflexivity. Qed.

#[local] Hint Resolve same_drive_emit same_drive_log same_drive_set_fs : steps.

Lemma same_drive_os_makedirs env p : steps same_drive (os_makedirs env p).
Proof. unfold os_makedirs. steps_tac. Qed.

Lemma same_drive_os_path_getsize p : steps same_drive (os_path_getsize p).
Proof. unfold os_path_getsize. steps_tac. Qed.

Lemma same_drive_custom_zip_folder cfg env src zip_path :
  steps same_drive (custom_zip_folder cfg env src zip_path).
Proof.
  unfold custom_zip_folder, os_path_exists, os_path_isdir, os_remove,
    zipfile_open, z_write, os_path_getsize.
  steps_tac.
Qed.

Lemma same_drive_clean_local_backups cfg env :
  steps same_drive (clean_local_backups cfg env).
Proof.
  unfold clean_local_backups, local_entries, os_listdir, os_path_getctime,
    shutil_rmtree.
  steps_tac.
Qed.

Lemma drive_kept_of_same_drive {A : Type} (m : M A) :
  steps same_drive m -> steps drive_kept m.
Proof.
  intros H w. unfold drive_kept. rewrite (H w). apply incl_refl.
Qed.

Lemma drive_kept_archive_and_upload cfg env zip_path :
  steps drive_kept (archive_and_upload cfg env zip_path).
Proof. intros w. apply (nothing_deleted_archive_and_upload cfg env). Qed.

(** The archive is a file at its path when [custom_zip_folder] returns. *)
Lemma custom_zip_folder_ok_isfile cfg env src zip_path w w1 :
  custom_zip_folder cfg env src zip_path w = (Ok tt, w1) ->
  isfile zip_path (fs w1) = true.
Proof.
  intros H. unfold custom_zip_folder in H.
  apply bind_ok_inv in H. destruct H as (u1 & wa & _ & H).
  apply bind_ok_inv in H. destruct H as (ex & wb & _ & H).
  apply bind_ok_inv in H. destruct H as (u2 & wc & _ & H).
  cbv zeta in H.
  apply bind_ok_inv in H. destruct H as (isd & wd & _ & H).
  destruct (negb isd); [discriminate H |].
  apply bind_ok_inv in H. destruct H as (u3 & we & Hopen & H).
  apply bind_ok_inv in H. destruct H as (n & wf & Hget & H).
  apply bind_ok_inv in H. destruct H as (u4 & wg & Hloop & H).
  apply bind_ok_inv in H. destruct H as (u5 & wh & Hsize & H).
  assert (Hw1 : fs w1 = fs wh) by (inversion H; reflexivity).
  assert (Hwh : wh = wg).
  { unfold os_path_getsize, bind, get_fs in Hsize. cbn [fst snd] in Hsize.
    destruct (lookup zip_path (fs wg)); inversion Hsize; reflexivity. }
  assert (Hwf : wf = we) by (inversion Hget; reflexivity).
  subst wh wf.
  unfold zipfile_open, bind, get_fs in Hopen. cbn [fst snd] in Hopen.
  destruct (isdir (parent zip_path) (fs wd)) eqn:Hparent;
    [| discriminate Hopen].
  destruct (isdir zip_path (fs wd)) eqn:Hzip; [discriminate Hopen |].
  cbn [negb] in Hopen. unfold set_fs in Hopen.
  assert (Hne : zip_path <> []).
  { intros ->. unfold parent in Hparent. simpl in Hparent. congruence. }
  assert (Hz : lookup zip_path (fs we)
               = Some (File (clock env) (ZipArchive []))).
  { inversion Hopen. cbn [fs]. now apply lookup_store_some. }
  destruct (write_steps_outcome cfg env zip_path (abspath src) Hne
              (os_walk (kept_folder cfg) (unlistable env (abspath src)) (abspath src)
                 match lookup (abspath src) n with
                 | Some t => t
                 | None => Dir 0 []
                 end)
              we (clock env) [] Hz) as (w' & Hrun & Hl).
  unfold write_file in Hrun. cbv zeta in Hrun.
  pose proof (eq_trans (eq_sym Hloop) Hrun) as Heq.
  assert (Hwg : wg = w') by (inversion Heq; reflexivity).
  rewrite Hw1, Hwg. unfold isfile. now rewrite Hl.
Qed.

(** The record of the handler is in the log of a cycle whose [try] block
    raised. *)
Lemma do_backup_logs_raise cfg env w n' e :
  makedirs (clock env) (local_folder_of cfg env) (fs w) = Ok n' ->
  fst (try_block cfg env (try_block_start cfg env w)) = Raise e ->
  In (erreur_pendant_le_backup e)
    (events_since w (snd (do_backup cfg env w))).
Proof.
  intros Hmk He.
  destruct (do_backup_run cfg env w n' Hmk) as [Hstart Hrun].
  pose proof (extends_try_block (fun _ => True) cfg env (zip_path_of cfg env)
                (fun _ _ => I) (try_block_start cfg env w)) as Hext.
  fold (try_block cfg env) in Hext. destruct Hext as (body & Hbody & _).
  rewrite (events_since_app w _
             (Log INFO debut_de_cycle :: body ++
              [erreur_pendant_le_backup e;
               Log DEBUG ("Traceback: " ++ exc_msg e)%string;
               Log INFO fin_de_cycle])).
  - right. apply in_or_app. right. now left.
  - rewrite Hrun. cbn [snd trace]. rewrite He, Hbody, Hstart.
    cbn [trace]. now rewrite <- !app_assoc.
Qed.

(** The state a cycle ends in is the one its [try] block leaves. *)
Lemma do_backup_final_state cfg env w n' :
  makedirs (clock env) (local_folder_of cfg env) (fs w) = Ok n' ->
  fs (snd (do_backup cfg env w))
  = fs (snd (try_block cfg env (try_block_start cfg env w))) /\
  drive (snd (do_backup cfg env w))
  = drive (snd (try_block cfg env (try_block_start cfg env w))).
Proof.
  intros Hmk. destruct (do_backup_run cfg env w n' Hmk) as [_ Hrun].
  rewrite Hrun. split; reflexivity.
Qed.

(** X15: nothing is undone when the upload fails.  When the archive was
    made, the Drive folder created and the upload then fails, the cycle
    ends with the new, empty folder on the Drive, after the folders that
    were there, and with the archive still on the disk; the error of the
    upload is logged. *)
Theorem failed_upload_leaves_remote_folder cfg env w n' w1 i t e :
  makedirs (clock env) (local_folder_of cfg env) (fs w) = Ok n' ->
  custom_zip_folder cfg env (folder_to_zip cfg) (zip_path_of cfg env)
    (try_block_start cfg env w) = (Ok tt, w1) ->
  auth_error env = None ->
  build_error env = None ->
  create_outcome env (drive_folder_name (name cfg) (now env)) = Ok (i, t) ->
  upload_outcome env i (zip_path_of cfg env) = Raise e ->
  let w' := snd (do_backup cfg env w) in
  drive w'
  = drive w ++ [mkDriveFile i (drive_folder_name (name cfg) (now env)) t] /\
  isfile (zip_path_of cfg env) (fs w') = true /\
  In (erreur_pendant_le_backup e) (events_since w w').
Proof.
  intros Hmk Hzip Hauth Hbuild Hcreate Hupload w'.
  pose proof (custom_zip_folder_ok_isfile _ _ _ _ _ _ Hzip) as Hfile.
  pose proof (same_drive_custom_zip_folder cfg env (folder_to_zip cfg)
                (zip_path_of cfg env) (try_block_start cfg env w)) as Hdrive.
  rewrite Hzip in Hdrive. unfold same_drive in Hdrive. cbn [snd] in Hdrive.
  destruct (do_backup_run cfg env w n' Hmk) as [Hstart _].
  rewrite Hstart in Hdrive. cbn [drive] in Hdrive.
  assert (Harch : exists tr,
             archive_and_upload cfg env (zip_path_of cfg env)
               (try_block_start cfg env w)
             = (Raise e,
                mkWorld (fs w1)
                  (drive w1 ++
                   [mkDriveFile i (drive_folder_name (name cfg) (now env)) t])
                  tr)).
  { unfold archive_and_upload. rewrite (bind_ok _ _ _ _ _ Hzip).
    unfold authenticate, build, create_drive_folder, upload_file_to_folder,
      log, emit, bind, get_fs, get_drive, set_drive.
    rewrite Hauth, Hbuild, Hcreate. cbn [fail_if lift ret fst snd fs drive].
    rewrite Hfile. cbn [ret]. rewrite Hupload. cbn [lift raise].
    eexists. reflexivity. }
  destruct Harch as (tr & Harch).
  assert (Htb : try_block cfg env (try_block_start cfg env w)
                = (Raise e,
                   mkWorld (fs w1)
                     (drive w1 ++
                      [mkDriveFile i (drive_folder_name (name cfg) (now env)) t])
                     tr)).
  { unfold try_block. now rewrite (bind_raise _ _ _ _ _ Harch). }
  destruct (do_backup_final_state cfg env w n' Hmk) as [Hfs Hdr].
  subst w'. rewrite Htb in Hfs, Hdr. cbn [snd fs drive] in Hfs, Hdr.
  split; [now rewrite Hdr, Hdrive |].
  split; [now rewrite Hfs |].
  apply (do_backup_logs_raise cfg env w n' e Hmk). now rewrite Htb.
Qed.

Lemma failed_upload_leaves_remote_folder_witness :
  let env := demo_env_upload_fails backend_error in
  let w' := snd (do_backup demo_cfg env demo_world) in
  drive w'
  = demo_drive ++ [mkDriveFile "id5" (drive_folder_name "Bot" demo_now)
                     "2026-11-03T10:02:07.000Z"] /\
  isfile (zip_path_of demo_cfg env) (fs w') = true /\
  In (erreur_pendant_le_backup backend_error) (events_since demo_world w').
Proof.
  cbv zeta.
  destruct (makedirs 100
              (local_folder_of demo_cfg (demo_env_upload_fails backend_error))
              (fs demo_world)) as [n' | e] eqn:Hmk;
    [| vm_compute in Hmk; discriminate Hmk].
  apply (failed_upload_leaves_remote_folder demo_cfg
           (demo_env_upload_fails backend_error) demo_world n'
           (snd (custom_zip_folder demo_cfg
                   (demo_env_upload_fails backend_error)
                   (folder_to_zip demo_cfg)
                   (zip_path_of demo_cfg (demo_env_upload_fails backend_error))
                   (try_block_start demo_cfg
                      (demo_env_upload_fails backend_error) demo_world)))
           "id5" "2026-11-03T10:02:07.000Z" backend_error Hmk);
    reflexivity.
Defined.

Section Cycle.
Context {R : World -> World -> Prop} {HR : PreOrder R}.
Variables (cfg : BotConfig) (env : Env).
Hypothesis R_makedirs : forall p, steps R (os_makedirs env p).
Hypothesis R_log : forall lvl msg, steps R (log lvl msg).
Hypothesis R_archive :
  forall zip_path, steps R (archive_and_upload cfg env zip_path).
Hypothesis R_local : steps R (clean_local_backups cfg env).
Hypothesis R_remote : steps R (delete_old_backups_by_count cfg env).
Hypothesis R_getsize : forall p, steps R (os_path_getsize p).

(** A cycle only makes steps of its parts. *)
Lemma do_backup_steps : steps R (do_backup cfg env).
Proof.
  unfold do_backup.
  apply steps_bind; [apply R_makedirs | intros _].
  apply steps_bind; [apply R_log | intros _].
  apply steps_bind; [| intros _; apply R_log].
  apply steps_try.
  - apply steps_bind; [apply R_archive | intros _].
    apply steps_bind; [| intros _].
    + unfold nettoyages.
      apply steps_bind; [apply R_local | intros _; apply R_remote].
    + unfold bilan.
      apply steps_bind; [apply R_getsize | intros _; apply R_log].
  - intros e. apply steps_bind; [apply R_log | intros _; apply R_log].
Qed.
End Cycle.

Lemma no_remote_pruning_nil (evs : list Event) :
  Forall no_remote_pruning evs ->
  list_requests evs = [] /\ delete_attempts evs = [].
Proof.
  intros H. split; apply flat_map_nil_Forall; (eapply Forall_impl; [| exact H]);
    intros ev [Hl Hd]; unfold list_requests, delete_attempts in *;
    simpl in *; rewrite app_nil_r in *; assumption.
Qed.

(** X16: a failure of the local pass skips the remote pass.  When the
    archive was uploaded and the local pass then raises, the cycle ends
    without having listed the Drive folders or deleted any: the Drive is
    what the upload left, old folders included; the error is logged. *)
Theorem local_pass_failure_skips_remote_pass cfg env w n' w1 e w2 :
  makedirs (clock env) (local_folder_of cfg env) (fs w) = Ok n' ->
  archive_and_upload cfg env (zip_path_of cfg env) (try_block_start cfg env w)
  = (Ok tt, w1) ->
  clean_local_backups cfg env w1 = (Raise e, w2) ->
  let w' := snd (do_backup cfg env w) in
  list_requests (events_since w w') = [] /\
  delete_attempts (events_since w w') = [] /\
  drive w' = drive w1 /\
  In (erreur_pendant_le_backup e) (events_since w w').
Proof.
  intros Hmk Harch Hloc w'.
  assert (Htb : try_block cfg env (try_block_start cfg env w) = (Raise e, w2)).
  { unfold try_block. rewrite (bind_ok _ _ _ _ _ Harch). unfold nettoyages.
    apply bind_raise. now apply bind_raise. }
  destruct (do_backup_run cfg env w n' Hmk) as [Hstart Hrun].
  rewrite Htb in Hrun. cbn [fst snd] in Hrun.
  assert (Hlog : forall lvl msg, no_remote_pruning (Log lvl msg))
    by (intros; split; reflexivity).
  pose proof (extends_archive_and_upload no_remote_pruning Hlog cfg env
                (zip_path_of cfg env)
                (fun _ => conj eq_refl eq_refl)
                (fun _ _ => conj eq_refl eq_refl)
                (try_block_start cfg env w)) as Ha.
  rewrite Harch in Ha. cbn [snd] in Ha.
  pose proof (extends_clean_local_backups no_remote_pruning Hlog cfg env
                (fun _ => conj eq_refl eq_refl) w1) as Hl.
  rewrite Hloc in Hl. cbn [snd] in Hl.
  destruct Ha as (ea & Hea & Fa), Hl as (el & Hel & Fl).
  assert (Htrace : trace w'
                   = trace w ++ Log INFO debut_de_cycle :: ea ++ el ++
                     [erreur_pendant_le_backup e;
                      Log DEBUG ("Traceback: " ++ exc_msg e)%string;
                      Log INFO fin_de_cycle]).
  { subst w'. rewrite Hrun. cbn [snd trace]. rewrite Hel, Hea, Hstart.
    cbn [trace]. now rewrite <- !app_assoc. }
  rewrite (events_since_app w w' _ Htrace).
  assert (Hall : Forall no_remote_pruning
                   (Log INFO debut_de_cycle :: ea ++ el ++
                    [erreur_pendant_le_backup e;
                     Log DEBUG ("Traceback: " ++ exc_msg e)%string;
                     Log INFO fin_de_cycle])).
  { constructor; [apply Hlog |]. apply Forall_app. split; [exact Fa |].
    apply Forall_app. split; [exact Fl |].
    repeat constructor. }
  destruct (no_remote_pruning_nil _ Hall) as [Hlist Hdel].
  split; [exact Hlist |]. split; [exact Hdel |]. split.
  - subst w'. rewrite Hrun. cbn [snd drive].
    pose proof (same_drive_clean_local_backups cfg env w1) as Hd.
    now rewrite Hloc in Hd.
  - right. apply in_or_app. right. apply in_or_app. right. now left.
Qed.

Lemma local_pass_failure_skips_remote_pass_witness :
  let env := demo_env None
               (fails_on_path ["srv"; "backup"; "old3"] permission_denied)
               no_error in
  let w' := snd (do_backup demo_cfg env demo_world) in
  list_requests (events_since demo_world w') = [] /\
  delete_attempts (events_since demo_world w') = [] /\
  In (erreur_pendant_le_backup permission_denied) (events_since demo_world w').
Proof.
  cbv zeta.
  pose (env := demo_env None
                 (fails_on_path ["srv"; "backup"; "old3"] permission_denied)
                 no_error).
  destruct (makedirs 100 (local_folder_of demo_cfg env) (fs demo_world))
    as [n' | e] eqn:Hmk; [| vm_compute in Hmk; discriminate Hmk].
  pose (w1 := snd (archive_and_upload demo_cfg env (zip_path_of demo_cfg env)
                     (try_block_start demo_cfg env demo_world))).
  destruct (local_pass_failure_skips_remote_pass demo_cfg env demo_world n'
              w1 permission_denied (snd (clean_local_backups demo_cfg env w1))
              Hmk)
    as (Hl & Hd & _ & Hin);
    [vm_compute; reflexivity | vm_compute; reflexivity |].
  split; [exact Hl |]. split; [exact Hd | exact Hin].
Defined.

Lemma delete_old_backups_keep_zero cfg env w :
  drive_keep cfg = 0 ->
  delete_old_backups_by_count cfg env w
  = (match list_error env with
     | Some e => Raise e
     | None => Ok tt
     end,
     mkWorld (fs w) (drive w)
       (trace w ++ [Log DEBUG "🔍 Récupération des dossiers Drive pour nettoyage";
                    DriveList 1000])).
Proof.
  intros Hkeep. destruct (list_error env) as [e |] eqn:Hl.
  - now apply delete_old_backups_list_error.
  - rewrite (delete_old_backups_loop cfg env w Hl). cbv zeta.
    rewrite Hkeep. unfold select_remote. simpl Z.opp.
    now rewrite slice_to_zero.
Qed.

(** X17: with [drive_keep = 0] a cycle deletes nothing on the Drive.  It
    never calls the deletion, and every folder the Drive held before the
    cycle is there after it, so the folders of the cycles pile up. *)
Theorem zero_drive_keep_never_prunes cfg env w :
  drive_keep cfg = 0 ->
  let w' := snd (do_backup cfg env w) in
  delete_attempts (events_since w w') = [] /\
  incl (drive w) (drive w').
Proof.
  intros Hkeep w'. split.
  - assert (Hlog : forall lvl msg,
               (fun ev => delete_attempts [ev] = []) (Log lvl msg))
      by reflexivity.
    assert (Hext : extends (fun ev => delete_attempts [ev] = []) w w').
    { apply (@do_backup_steps _ (extends_preorder _) cfg env).
      - apply extends_os_makedirs.
      - intros lvl msg. now apply extends_emit.
      - intros zp. apply extends_archive_and_upload; reflexivity.
      - apply extends_clean_local_backups; reflexivity.
      - intros w0. rewrite (delete_old_backups_keep_zero cfg env w0 Hkeep).
        exists [Log DEBUG "🔍 Récupération des dossiers Drive pour nettoyage";
                DriveList 1000].
        split; [reflexivity | repeat constructor].
      - apply extends_os_path_getsize. }
    apply extends_events_since in Hext. destruct Hext as [_ Hall].
    apply flat_map_nil_Forall. eapply Forall_impl; [| exact Hall].
    intros ev Hev. unfold delete_attempts in Hev. simpl in Hev.
    now rewrite app_nil_r in Hev.
  - change (drive_kept w w').
    apply (@do_backup_steps _ drive_kept_preorder cfg env).
    + intros p. apply drive_kept_of_same_drive, same_drive_os_makedirs.
    + intros lvl msg. apply drive_kept_of_same_drive, same_drive_log.
    + apply drive_kept_archive_and_upload.
    + apply drive_kept_of_same_drive, same_drive_clean_local_backups.
    + intros w0. rewrite (delete_old_backups_keep_zero cfg env w0 Hkeep).
      apply incl_refl.
    + intros p. apply drive_kept_of_same_drive, same_drive_os_path_getsize.
Qed.

Lemma zero_drive_keep_never_prunes_witness :
  let w' := snd (do_backup (demo_cfg_keeping 1 0)
                   (demo_env None no_error no_error) demo_world) in
  delete_attempts (events_since demo_world w') = [] /\
  incl demo_drive (drive w').
Proof.
  exact (zero_drive_keep_never_prunes (demo_cfg_keeping 1 0)
           (demo_env None no_error no_error) demo_world eq_refl).
Defined.

(** ** The scheduler with a negative interval *)



(** ** The local pass, on the disk *)

Lemma join_apart (root : path) (d x : string) :
  d <> x ->
  (forall r, join root x <> join root d ++ r) /\
  (forall r, join root d <> join root x ++ r).
Proof.
  intros Hne. unfold join. split; intros r H; rewrite <- app_assoc in H;
    apply app_inv_head in H; simpl in H; congruence.
Qed.

(** What the loop of the local pass leaves of the entries of the root,
    when it returns. *)
Lemma rmtree_loop_leaves env root (ds : list string) w w' d :
  for_each (map (join root) ds)
    (fun old =>
       shutil_rmtree env old ;;
       log INFO ("🗑️ Supprimé local : " ++ path_str old)%string) w = (Ok tt, w') ->
  ~ In d ds ->
  lookup (join root d) (fs w') = lookup (join root d) (fs w).
Proof.
  set (body := fun old : path =>
                 shutil_rmtree env old ;;
                 log INFO ("🗑️ Supprimé local : " ++ path_str old)%string).
  assert (Hbody : forall x wa wb,
             body x wa = (Ok tt, wb) -> fs wb = store x None (fs wa))
    by (intros x wa wb; apply rmtree_body_ok).
  clearbody body. revert w.
  induction ds as [| x ds IH]; intros w Hrun Hnot.
  - inversion Hrun; subst. reflexivity.
  - change (for_each (map (join root) (x :: ds)) body w)
      with (bind (body (join root x)) (fun _ => for_each (map (join root) ds) body) w)
      in Hrun.
    unfold bind in Hrun.
    destruct (body (join root x) w) as [[[] | e] wx] eqn:Hx;
      [| discriminate Hrun].
    rewrite (IH wx Hrun) by (intros Hin; apply Hnot; now right).
    rewrite (Hbody _ _ _ Hx).
    assert (Hne : d <> x) by (intros ->; apply Hnot; now left).
    destruct (join_apart root d x Hne) as [H1 H2].
    now apply lookup_store_other.
Qed.

(** X19: what a local pass that returns has done to the directories of
    the root.  Every directory it selected is gone, with all it held, and
    every directory it did not select is what it was before the pass,
    with all it holds. *)
Theorem local_pass_removes_selected_only cfg env w entries w1 w' :
  local_entries (local_backup_root cfg) w = (Ok entries, w1) ->
  clean_local_backups cfg env w = (Ok tt, w') ->
  let to_remove := map fst (select_local (local_keep cfg) entries) in
  (forall p, In p to_remove -> lookup p (fs w') = None) /\
  (forall d, isdir (join (local_backup_root cfg) d) (fs w) = true ->
             ~ In (join (local_backup_root cfg) d) to_remove ->
             lookup (join (local_backup_root cfg) d) (fs w')
             = lookup (join (local_backup_root cfg) d) (fs w)).
Proof.
  intros Hent Hrun to_remove.
  rewrite (clean_local_backups_loop cfg env w entries w1 Hent) in Hrun.
  fold to_remove in Hrun.
  assert (Hpaths : forall p, In p to_remove ->
                             exists d, p = join (local_backup_root cfg) d).
  { intros p Hp. apply in_map_iff in Hp. destruct Hp as (x & <- & Hx).
    apply select_local_incl in Hx.
    destruct (local_entries_paths _ _ _ _ Hent (fst x)) as [_ Hd];
      [now apply in_map | exact Hd]. }
  split.
  - intros p Hp. apply (rmtree_loop_removes env to_remove w w' p Hrun Hp).
    destruct (Hpaths p Hp) as (d & ->). unfold join.
    now destruct (local_backup_root cfg).
  - intros d _ Hd.
    assert (Hds : exists ds, to_remove = map (join (local_backup_root cfg)) ds).
    { clear Hrun Hd. induction to_remove as [| p l IHl].
      - now exists [].
      - destruct (Hpaths p (or_introl eq_refl)) as (x & ->).
        destruct IHl as (ds & ->);
          [intros q Hq; apply Hpaths; now right |].
        now exists (x :: ds). }
    destruct Hds as (ds & Hds). rewrite Hds in Hrun.
    apply (rmtree_loop_leaves env _ ds w w' d Hrun).
    intros Hin. apply Hd. rewrite Hds. now apply in_map.
Qed.

Lemma local_pass_removes_selected_only_witness :
  let env := demo_env None no_error no_error in
  let w' := snd (clean_local_backups demo_cfg env demo_world) in
  lookup ["srv"; "backup"; "old1"] (fs w') = None /\
  lookup ["srv"; "backup"; "old2"] (fs w') = None /\
  lookup ["srv"; "backup"; "old3"] (fs w') = Some (Dir 30 []).
Proof.
  cbv zeta.
  destruct (local_pass_removes_selected_only demo_cfg
              (demo_env None no_error no_error) demo_world
              [(["srv"; "backup"; "old1"], 10); (["srv"; "backup"; "old2"], 20);
               (["srv"; "backup"; "old3"], 30)]
              demo_world
              (snd (clean_local_backups demo_cfg
                      (demo_env None no_error no_error) demo_world))
              eq_refl eq_refl) as [Hgone Hkept].
  split; [apply Hgone; vm_compute; tauto |].
  split; [apply Hgone; vm_compute; tauto |].
  transitivity (lookup (join (local_backup_root demo_cfg) "old3")
                  (fs demo_world)); [| reflexivity].
  apply (Hkept "old3"); [reflexivity |].
  vm_compute. intros [H | [H | []]]; discriminate H.
Defined.

(** ** Archiving again *)

(** X20: archiving a second time to the same path replaces the archive.
    With the source unchanged, a second call of [custom_zip_folder] ends
    as the first did, and leaves at the archive path the same archive:
    nothing of the earlier one is kept or appended to. *)
Theorem custom_zip_folder_again cfg env src zip_path w t ch :
  lookup (abspath src) (fs w) = Some (Dir t ch) ->
  isdir (parent zip_path) (fs w) = true ->
  isdir zip_path (fs w) = false ->
  (forall r, zip_path <> abspath src ++ r) ->
  let r1 := custom_zip_folder cfg env src zip_path w in
  let r2 := custom_zip_folder cfg env src zip_path (snd r1) in
  fst r2 = fst r1 /\
  lookup zip_path (fs (snd r2)) = lookup zip_path (fs (snd r1)) /\
  exists ms, lookup zip_path (fs (snd r1))
             = Some (File (clock env) (ZipArchive ms)).
Proof.
  intros Hsrc Hparent Hzip Hout r1 r2.
  destruct (custom_zip_folder_outcome cfg env src zip_path w t ch
              Hsrc Hparent Hzip Hout) as (w1 & Hrun1 & Hl1).
  assert (Hin : forall r, abspath src <> zip_path ++ r).
  { intros [| d r] Hr.
    - apply (Hout []). now rewrite Hr, !app_nil_r.
    - rewrite Hr in Hsrc. apply lookup_through in Hsrc;
        [congruence | discriminate]. }
  assert (Hsrc1 : lookup (abspath src) (fs w1) = Some (Dir t ch)).
  { pose proof (same_outside_custom_zip_folder zip_path cfg env src [] w)
      as Hsame.
    rewrite app_nil_r, Hrun1 in Hsame. cbn [snd] in Hsame.
    rewrite Hsame; [exact Hsrc |]. split; assumption. }
  assert (Hparent1 : isdir (parent zip_path) (fs w1) = true).
  { pose proof (nothing_deleted_custom_zip_folder cfg env src zip_path w)
      as [Hdirs _].
    rewrite Hrun1 in Hdirs. cbn [snd] in Hdirs. now apply Hdirs. }
  assert (Hzip1 : isdir zip_path (fs w1) = false)
    by (unfold isdir; now rewrite Hl1).
  destruct (custom_zip_folder_outcome cfg env src zip_path w1 t ch
              Hsrc1 Hparent1 Hzip1 Hout) as (w2 & Hrun2 & Hl2).
  subst r2 r1. rewrite Hrun1. cbn [fst snd]. rewrite Hrun2. cbn [fst snd].
  split; [reflexivity |]. split; [now rewrite Hl1, Hl2 |].
  eexists. exact Hl1.
Qed.

Lemma custom_zip_folder_again_witness :
  let env := demo_env None no_error no_error in
  let zip_path := ["srv"; "backup"; "new.zip"] in
  let r1 := custom_zip_folder demo_cfg env ["srv"; "bot"] zip_path demo_world in
  let r2 := custom_zip_folder demo_cfg env ["srv"; "bot"] zip_path (snd r1) in
  fst r2 = fst r1 /\
  lookup zip_path (fs (snd r2)) = lookup zip_path (fs (snd r1)).
Proof.
  cbv zeta.
  destruct (custom_zip_folder_again demo_cfg (demo_env None no_error no_error)
              ["srv"; "bot"] ["srv"; "backup"; "new.zip"] demo_world 0
              [("a.txt", File 0 (Raw "A"));
               ("b.log", File 0 (Raw "B"));
               ("node_modules", Dir 0 [("x.js", File 0 (Raw "X"))]);
               ("sub", Dir 0 [("c.txt", File 0 (Raw "C"));
                              ("node_modules", Dir 0 [("y.js", File 0 (Raw "Y"))]);
                              ("d.log", File 0 (Raw "D"))])])
    as (H1 & H2 & _).
  - reflexivity.
  - reflexivity.
  - reflexivity.
  - intros r Hr. discriminate Hr.
  - split; [exact H1 | exact H2].
Defined.

(** ** The configuration of a bot *)

Section InitFacts.
Variable Value : Type.
Variable fstring : string -> Value -> Value.
Variable lower : Value -> outcome Value.
Variable set_of : Value -> outcome Value.

Lemma dict_getitem_missing (d : Dict Value) (k : string) (v : Value) :
  dict_find d k = None -> dict_getitem d k <> Returns v.
Proof. intros H. unfold dict_getitem. now rewrite H. Qed.

(** X21: a setting of the bot does not dispense with the global one.
    The default of every [cfg.get(key, global_cfg[key])] is looked up
    before the bot's own mapping is asked, so when one of the keys
    [__init__] reads in the global configuration is missing there,
    [__init__] raises and no bot is built, whatever the bot's mapping
    holds, this key included. *)
Theorem init_needs_global_defaults (cfg global_cfg : Dict Value) (k : string) :
  In k global_keys ->
  dict_find global_cfg k = None ->
  exists e, init_attributes Value fstring lower set_of cfg global_cfg = Raises e.
Proof.
  intros Hk Hnone. unfold init_attributes. cbv zeta.
  repeat match goal with
         | |- exists e, and_then ?r _ = Raises e =>
             let E := fresh "E" in
             destruct r eqn:E; cbn [and_then]; [| eexists; reflexivity]
         end.
  exfalso. unfold global_keys in Hk. simpl in Hk.
  destruct Hk as [<- | [<- | [<- | [<- | [<- | [<- | []]]]]]];
    match goal with
    | H : dict_getitem global_cfg _ = Returns _ |- _ =>
        apply (dict_getitem_missing _ _ _ Hnone H)
    end.
Qed.

Ltac settle_key K :=
  match type of K with
  | match dict_find ?c ?k with _ => _ end =>
      destruct (dict_find c k); cbv beta iota in K;
      [destruct K as [(? & ? & -> & ->) | [-> ->]] | rewrite <- K]
  end.

(** X22: what the bot sets for itself hides the global value.  Two
    global configurations that hold the same keys, the same [scopes] and
    the same value for every key the bot does not set give the bot the
    same attributes, or the same exception: the global value of a key
    the bot sets is looked up and then dropped, while [scopes] is always
    the global one. *)
Theorem init_ignores_overridden_defaults (cfg g1 g2 : Dict Value) :
  (forall k, In k global_keys ->
             (dict_find g1 k = None <-> dict_find g2 k = None)) ->
  (forall k, In k overridable_keys -> dict_find cfg k = None ->
             dict_find g1 k = dict_find g2 k) ->
  dict_find g1 "scopes" = dict_find g2 "scopes" ->
  init_attributes Value fstring lower set_of cfg g1
  = init_attributes Value fstring lower set_of cfg g2.
Proof.
  intros Hsame Hfree Hscopes.
  assert (Hkey : forall k, In k overridable_keys ->
            match dict_find cfg k with
            | Some _ => (exists a b, dict_find g1 k = Some a /\
                                     dict_find g2 k = Some b) \/
                        (dict_find g1 k = None /\ dict_find g2 k = None)
            | None => dict_find g1 k = dict_find g2 k
            end).
  { intros k Hk. destruct (dict_find cfg k) eqn:Ec; [| now apply Hfree].
    assert (Hg : In k global_keys).
    { unfold overridable_keys, global_keys in *. simpl in *.
      intuition. }
    destruct (dict_find g1 k) as [a |] eqn:E1.
    - destruct (dict_find g2 k) as [b |] eqn:E2.
      + left. now exists a, b.
      + apply (Hsame k Hg) in E2. congruence.
    - right. split; [reflexivity |]. now apply (Hsame k Hg). }
  pose proof (Hkey "backup_interval" ltac:(simpl; tauto)) as K1.
  pose proof (Hkey "local_keep" ltac:(simpl; tauto)) as K2.
  pose proof (Hkey "drive_keep" ltac:(simpl; tauto)) as K3.
  pose proof (Hkey "excluded_extensions" ltac:(simpl; tauto)) as K4.
  pose proof (Hkey "excluded_folders" ltac:(simpl; tauto)) as K5.
  clear Hkey Hsame Hfree.
  unfold init_attributes, dict_getitem, dict_get. cbv zeta.
  rewrite <- Hscopes.
  settle_key K1; settle_key K2; settle_key K3; settle_key K4; settle_key K5;
    reflexivity.
Qed.
End InitFacts.

Lemma init_needs_global_defaults_witness :
  exists e, demo_init demo_bot_document demo_global_document = Raises e.
Proof.
  apply (init_needs_global_defaults string String.append Returns Returns
           demo_bot_document demo_global_document "local_keep").
  - right. left. reflexivity.
  - reflexivity.
Defined.

Lemma init_ignores_overridden_defaults_witness :
  demo_init demo_bot_document (demo_global_complete "86400" "7" ".tmp" ".git")
  = demo_init demo_bot_document (demo_global_complete "60" "2" ".bak" "dist").
Proof.
  apply (init_ignores_overridden_defaults string String.append Returns Returns).
  - intros k Hk. unfold global_keys in Hk. simpl in Hk.
    destruct Hk as [<- | [<- | [<- | [<- | [<- | [<- | []]]]]]];
      split; intros H; discriminate H.
  - intros k Hk Hnone. unfold overridable_keys in Hk. simpl in Hk.
    destruct Hk as [<- | [<- | [<- | [<- | [<- | []]]]]];
      discriminate Hnone.
  - reflexivity.
Defined.

Lemma existsb_same_elements {A : Type} (f : A -> bool) (l1 l2 : list A) :
  (forall x, In x l1 <-> In x l2) -> existsb f l1 = existsb f l2.
Proof.
  intros H. apply eq_true_iff_eq. rewrite !existsb_exists.
  split; intros (x & Hx & Hf); exists x; (split; [now apply H | exact Hf]).
Qed.

(** X23: the exclusions count as sets.  [__init__] turns both exclusion
    lists into sets; two configurations whose exclusion lists hold the
    same extensions and the same folder names, in whatever order and
    however often, make [custom_zip_folder] write the same members. *)
Theorem archive_depends_on_exclusion_sets c1 c2 env (abs_src : path)
    (tree : Node) :
  (forall x, In x (excluded_extensions c1) <-> In x (excluded_extensions c2)) ->
  (forall x, In x (excluded_folders c1) <-> In x (excluded_folders c2)) ->
  zip_members c1 env abs_src tree = zip_members c2 env abs_src tree.
Proof.
  intros Hext Hfold. rewrite !zip_members_archived.
  apply filter_ext. intros m.
  unfold archived, through_excluded_folder, has_excluded_extension.
  rewrite (existsb_same_elements _ _ _ Hext). f_equal. f_equal. f_equal.
  induction (removelast (fst m)) as [| d l IH]; [reflexivity |].
  simpl. now rewrite IH, (existsb_same_elements _ _ _ Hfold).
Qed.

Lemma archive_depends_on_exclusion_sets_witness :
  zip_members (demo_cfg_excluding [".log"; ".tmp"] ["node_modules"; ".git"])
    (demo_env None no_error no_error) ["srv"; "bot"] demo_source
  = zip_members
      (demo_cfg_excluding [".tmp"; ".log"; ".tmp"] [".git"; "node_modules"])
      (demo_env None no_error no_error) ["srv"; "bot"] demo_source.
Proof.
  apply (archive_depends_on_exclusion_sets
           (demo_cfg_excluding [".log"; ".tmp"] ["node_modules"; ".git"])
           (demo_cfg_excluding [".tmp"; ".log"; ".tmp"] [".git"; "node_modules"])).
  - intros x. simpl. tauto.
  - intros x. simpl. tauto.
Defined.

(** ** The service and the source folder *)

(** X24: the service never touches what is outside the backup root.
    With a [zip_prefix] that is a plain name, however many passes [run]
    makes and whatever happens in them, at a path that is neither under
    [local_backup_root] nor on the way to it the file system holds what
    it held when [run] started. *)
Theorem run_writes_under_backup_root cfg envs (n : nat) w q :
  plain_name (zip_prefix cfg) = true ->
  apart q (local_backup_root cfg) ->
  lookup q (fs (snd (run cfg envs n w))) = lookup q (fs w).
Proof.
  intros _ Hq. revert q Hq.
  change (same_outside (local_backup_root cfg) w (snd (run cfg envs n w))).
  revert w. change (steps (same_outside (local_backup_root cfg))
                      (run cfg envs n)).
  unfold run. cbv zeta.
  apply steps_bind; [apply same_outside_log | intros _].
  generalize 0%nat as k. induction n as [| n IH]; intros k.
  - apply steps_ret.
  - change (run_loop cfg envs (backup_interval cfg) k (S n))
      with (bind (run_iteration cfg (envs k) (backup_interval cfg))
              (fun _ => run_loop cfg envs (backup_interval cfg) (S k) n)).
    apply steps_bind; [| intros _; apply IH].
    unfold run_iteration.
    apply steps_bind; [| intros _].
    + apply steps_try; [apply same_outside_do_backup | intros e].
      apply steps_bind; intros; apply same_outside_log.
    + unfold time_sleep.
      destruct (backup_interval cfg <? 0); [apply steps_raise |].
      destruct (max_sleep <? backup_interval cfg);
        [apply steps_raise | apply same_outside_emit].
Qed.

Lemma run_writes_under_backup_root_witness :
  lookup ["srv"; "bot"]
    (fs (snd (run demo_cfg (fun _ : nat => demo_env None no_error no_error)
                3 demo_world)))
  = Some demo_source.
Proof.
  rewrite (run_writes_under_backup_root demo_cfg
             (fun _ : nat => demo_env None no_error no_error) 3 demo_world
             ["srv"; "bot"]).
  - reflexivity.
  - reflexivity.
  - split; intros r Hr; discriminate Hr.
Defined.
